(** * midi2Tiles: the piano tile creator

    A shallow embedding of [pianoTileCreator.py]: the per-key tile state
    machine ([KB_key.createTiles], [KB_key.update]), the keyboard layout
    ([PianoTileCreator.init_keys]), the loader ([loadMidiFile]) and the frame
    loop ([render]).

    Numbers.  Python computes the geometry and the time base with [/]
    (true division) on numbers; the embedding uses exact rationals [Q] for
    every such quantity, so the theorems below speak about the arithmetic
    the program writes down.  Binary64 rounding moves a position or a size
    by a rounding error only, but it can change a count or a branch taken
    on a rounded value: the number of frames,
    [int(total_duration * vid_fps) + 2], is one less than the rational one
    when the rounded product falls just below an integer, and the test
    [get_height() <= 0] of [update] can go either way at a tick within
    rounding distance of the end of a note.  Statements about the number
    of frames therefore carry the hypothesis [exact_frame_count], under
    which no operation leading to that number rounds and the rationals are
    the values the program computes; module [Binary64] evaluates the frame
    count on primitive binary64 numbers.  The concrete inputs of the tile and timing
    examples are chosen so that all intermediate values are small dyadic
    rationals, on which binary64 arithmetic is exact as well; the layout
    examples keep the decimal constants of the source and only state strict
    inequalities that hold with a wide margin.  A division by zero raises
    [ZeroDivisionError], as in Python, and a list index out of range raises
    [IndexError].

    Drawing.  A matplotlib [Rectangle] is a record with its anchor, size,
    face colour and alpha; [in_axes] records whether the patch is currently
    attached to the axes ([add_patch] / [remove]), that is whether it belongs
    to the drawable set.  Line width and edge colour are static styling and
    are left out. *)

From Stdlib Require Import String ZArith QArith Qround List Bool Lia Lqa.
From Stdlib Require Import Sorted Permutation Qpower Floats.
Import ListNotations.

Open Scope Q_scope.

(** ** Exceptions and fallible computations *)

Inductive exn : Type :=
| IndexError
| ZeroDivisionError
| ValueError.

Inductive result (A : Type) : Type :=
| Ok (a : A)
| Raise (e : exn).

Arguments Ok {A} a.
Arguments Raise {A} e.

Definition bind {A B : Type} (c : result A) (k : A -> result B) : result B :=
  match c with
  | Ok a => k a
  | Raise e => Raise e
  end.

Notation "x <- c ;; k" := (bind c (fun x => k))
  (at level 61, c at next level, right associativity).

Definition fmap {A B : Type} (f : A -> B) (c : result A) : result B :=
  match c with
  | Ok a => Ok (f a)
  | Raise e => Raise e
  end.

(** A [for] loop whose body may raise: the first exception ends the loop. *)
Fixpoint mapM {A B : Type} (f : A -> result B) (l : list A) : result (list B) :=
  match l with
  | [] => Ok []
  | a :: l' => b <- f a ;; bs <- mapM f l' ;; Ok (b :: bs)
  end.

(** Python's [a / b] on numbers. *)
Definition pydiv (a b : Q) : result Q :=
  if Qeq_bool b 0 then Raise ZeroDivisionError else Ok (a / b).

(** Python's [max(0, x)]: [x] when [x > 0], else [0]. *)
Definition max0 (x : Q) : Q := if Qle_bool x 0 then 0 else x.

(** Python's [int(x)] on a float: truncation towards zero. *)
Definition py_int (x : Q) : Z := Z.quot (Qnum x) (QDen x).

(** Truth value of a number: nonzero. *)
Definition truthy (x : Q) : bool := negb (Qeq_bool x 0).

Definition Qlt_bool (x y : Q) : bool := negb (Qle_bool y x).

(** Python's [sorted(l, key=...)] is a stable sort; [leb a b] stands for
    [key(a) <= key(b)].  Insertion from the right keeps equal keys in their
    original order, and the stable sorted arrangement of a list is unique. *)
Section Sorted.
Context {A : Type} (leb : A -> A -> bool).

Fixpoint insert (a : A) (l : list A) : list A :=
  match l with
  | [] => [a]
  | b :: l' => if leb a b then a :: b :: l' else b :: insert a l'
  end.

Fixpoint sorted (l : list A) : list A :=
  match l with
  | [] => []
  | a :: l' => insert a (sorted l')
  end.

End Sorted.

(** ** Data *)

(** A miditoolkit note. *)
Record Note : Type := {
  pitch : Z;
  start : Z;
  end_ : Z;
  velocity : Z
}.

Record Rectangle : Type := {
  get_x : Q;
  get_y : Q;
  get_width : Q;
  get_height : Q;
  facecolor : string;
  alpha : option Q;
  in_axes : bool
}.

Definition set_y (r : Rectangle) (y : Q) : Rectangle :=
  {| get_x := get_x r; get_y := y; get_width := get_width r;
     get_height := get_height r; facecolor := facecolor r;
     alpha := alpha r; in_axes := in_axes r |}.

Definition set_height (r : Rectangle) (h : Q) : Rectangle :=
  {| get_x := get_x r; get_y := get_y r; get_width := get_width r;
     get_height := h; facecolor := facecolor r;
     alpha := alpha r; in_axes := in_axes r |}.

Definition set_facecolor (r : Rectangle) (c : string) : Rectangle :=
  {| get_x := get_x r; get_y := get_y r; get_width := get_width r;
     get_height := get_height r; facecolor := c;
     alpha := alpha r; in_axes := in_axes r |}.

Definition set_alpha (r : Rectangle) (a : Q) : Rectangle :=
  {| get_x := get_x r; get_y := get_y r; get_width := get_width r;
     get_height := get_height r; facecolor := facecolor r;
     alpha := Some a; in_axes := in_axes r |}.

(** [plt.gca().add_patch(r)] and [r.remove()]. *)
Definition add_patch (r : Rectangle) : Rectangle :=
  {| get_x := get_x r; get_y := get_y r; get_width := get_width r;
     get_height := get_height r; facecolor := facecolor r;
     alpha := alpha r; in_axes := true |}.

Definition remove (r : Rectangle) : Rectangle :=
  {| get_x := get_x r; get_y := get_y r; get_width := get_width r;
     get_height := get_height r; facecolor := facecolor r;
     alpha := alpha r; in_axes := false |}.

(** The dictionary kept per tile; [state] is 0 (not appeared), 1 (present)
    or 2 (done). *)
Record Tile : Type := {
  state : Z;
  rect : Rectangle;
  start_y_pos : Q;
  initial_w : Q
}.

Definition with_rect (t : Tile) (r : Rectangle) : Tile :=
  {| state := state t; rect := r;
     start_y_pos := start_y_pos t; initial_w := initial_w t |}.

Definition with_state (t : Tile) (s : Z) : Tile :=
  {| state := s; rect := rect t;
     start_y_pos := start_y_pos t; initial_w := initial_w t |}.

Record KB_key : Type := {
  _midi_num : Z;
  _rect : Rectangle;
  _notes : list Note;
  _current_tick : Q;
  _isSharp : bool;
  _tiles : list Tile;
  _kbtop : Q;
  _key_color : string;
  _showKeyVelocity : bool;
  _tile_velocity : Q;
  _ticks_per_sec : Q;
  _video_height : Q
}.

Definition with_tiles (k : KB_key) (ts : list Tile) : KB_key :=
  {| _midi_num := _midi_num k; _rect := _rect k; _notes := _notes k;
     _current_tick := _current_tick k; _isSharp := _isSharp k; _tiles := ts;
     _kbtop := _kbtop k; _key_color := _key_color k;
     _showKeyVelocity := _showKeyVelocity k;
     _tile_velocity := _tile_velocity k; _ticks_per_sec := _ticks_per_sec k;
     _video_height := _video_height k |}.

Definition with_key_rect (k : KB_key) (r : Rectangle) : KB_key :=
  {| _midi_num := _midi_num k; _rect := r; _notes := _notes k;
     _current_tick := _current_tick k; _isSharp := _isSharp k;
     _tiles := _tiles k;
     _kbtop := _kbtop k; _key_color := _key_color k;
     _showKeyVelocity := _showKeyVelocity k;
     _tile_velocity := _tile_velocity k; _ticks_per_sec := _ticks_per_sec k;
     _video_height := _video_height k |}.

Definition with_notes (k : KB_key) (ns : list Note) : KB_key :=
  {| _midi_num := _midi_num k; _rect := _rect k; _notes := ns;
     _current_tick := _current_tick k; _isSharp := _isSharp k;
     _tiles := _tiles k;
     _kbtop := _kbtop k; _key_color := _key_color k;
     _showKeyVelocity := _showKeyVelocity k;
     _tile_velocity := _tile_velocity k; _ticks_per_sec := _ticks_per_sec k;
     _video_height := _video_height k |}.

(** ** KB_key *)

(** One iteration of the loop of [createTiles]. *)
Definition new_tile (self : KB_key) (n : Note) : result Tile :=
  s <- pydiv (inject_Z (start n)) (_ticks_per_sec self) ;;
  let start_y := s * _tile_velocity self + _kbtop self in
  e <- pydiv (inject_Z (end_ n)) (_ticks_per_sec self) ;;
  let end_y := e * _tile_velocity self + _kbtop self in
  let a := if _showKeyVelocity self then inject_Z (velocity n) / 127 else 1 in
  Ok {| state := 0;
        rect := {| get_x := get_x (_rect self); get_y := start_y;
                   get_width := get_width (_rect self);
                   get_height := end_y - start_y;
                   facecolor := _key_color self; alpha := Some a;
                   in_axes := false |};
        start_y_pos := start_y;
        initial_w := end_y - start_y |}.

Definition createTiles (self : KB_key) : result KB_key :=
  ts <- mapM (new_tile self) (_notes self) ;;
  Ok (with_tiles self ts).

(** [KB_key.__init__] *)
Definition KB_key_init (midi_num : Z) (r : Rectangle) (video_height kb_top
    tile_velocity ticks_per_sec : Q) (key_color : string)
    (showKeyVelocity isSharp : bool) (notes : list Note) : result KB_key :=
  createTiles
    {| _midi_num := midi_num; _rect := r; _notes := notes;
       _current_tick := 0; _isSharp := isSharp; _tiles := [];
       _kbtop := kb_top; _key_color := key_color;
       _showKeyVelocity := showKeyVelocity;
       _tile_velocity := tile_velocity; _ticks_per_sec := ticks_per_sec;
       _video_height := video_height |}.

(** The "move position" part of the loop body of [update]. *)
Definition move_tile (self : KB_key) (tick : Q) (t : Tile) : result Tile :=
  if (state t <=? 1)%Z then
    if Qle_bool (get_y (rect t)) (_kbtop self) then
      d <- pydiv (_tile_velocity self * tick) (_ticks_per_sec self) ;;
      Ok (with_rect t
            (set_height (rect t)
               (max0 (initial_w t - _kbtop self + start_y_pos t - d))))
    else
      d <- pydiv (_tile_velocity self * tick) (_ticks_per_sec self) ;;
      Ok (with_rect t (set_y (rect t) (start_y_pos t - d)))
  else Ok t.

(** The "state transition" part. *)
Definition step_state (self : KB_key) (t : Tile) : Tile :=
  if (state t =? 1)%Z then
    if Qle_bool (get_height (rect t)) 0
    then with_state (with_rect t (remove (rect t))) 2
    else t
  else if (state t =? 0)%Z then
    if Qle_bool (get_y (rect t)) (_video_height self)
    then with_state (with_rect t (add_patch (rect t))) 1
    else t
  else t.

Definition update_tile (self : KB_key) (tick : Q) (t : Tile) : result Tile :=
  t1 <- move_tile self tick t ;;
  Ok (step_state self t1).

(** The notes sounding at [tick]. *)
Definition current_note (self : KB_key) (tick : Q) : list Note :=
  filter (fun n => Qle_bool (inject_Z (start n)) tick
                   && Qlt_bool tick (inject_Z (end_ n)))
         (_notes self).

(** The "update piano display" part of [update]. *)
Definition update_display (self : KB_key) (tick : Q) : Rectangle :=
  match current_note self tick with
  | n :: _ =>
      let r := set_facecolor (_rect self) (_key_color self) in
      if _showKeyVelocity self
      then set_alpha r (inject_Z (velocity n) / 127)
      else r
  | [] =>
      let r := if _showKeyVelocity self
               then set_alpha (_rect self) 1 else _rect self in
      if _isSharp self
      then set_facecolor r "black"
      else set_facecolor r "white"
  end.

(** [KB_key.update] *)
Definition update (self : KB_key) (tick : Q) : result KB_key :=
  ts <- mapM (update_tile self tick) (_tiles self) ;;
  Ok (with_key_rect (with_tiles self ts) (update_display self tick)).

(** A loop that threads its state through a body that may raise. *)
Fixpoint foldM {A S : Type} (f : S -> A -> result S) (l : list A) (s : S)
  : result S :=
  match l with
  | [] => Ok s
  | a :: l' => s' <- f s a ;; foldM f l' s'
  end.

(** Successive calls of the tile part of [update] at the given ticks. *)
Definition run_tile (self : KB_key) (ticks : list Q) (t : Tile) : result Tile :=
  foldM (fun t tick => update_tile self tick t) ticks t.

(** ** Python lists *)

(** Resolution of the index in [l[i]]: negative indices count from the end. *)
Definition py_index {A : Type} (l : list A) (i : Z) : result nat :=
  let n := Z.of_nat (length l) in
  if ((0 <=? i) && (i <? n))%Z then Ok (Z.to_nat i)
  else if ((- n <=? i) && (i <? 0))%Z then Ok (Z.to_nat (n + i))
  else Raise IndexError.

Definition getitem {A : Type} (l : list A) (i : Z) : result A :=
  k <- py_index l i ;;
  match nth_error l k with
  | Some a => Ok a
  | None => Raise IndexError
  end.

(** In-place change of the object stored at position [k]. *)
Fixpoint modify_at {A : Type} (k : nat) (f : A -> A) (l : list A) : list A :=
  match l, k with
  | [], _ => []
  | a :: l', O => f a :: l'
  | a :: l', S k' => a :: modify_at k' f l'
  end.

(** [range(n)] *)
Definition py_range (n : Z) : list Z := map Z.of_nat (seq 0 (Z.to_nat n)).

(** [enumerate(l)] *)
Definition enumerate {A : Type} (l : list A) : list (Z * A) :=
  combine (py_range (Z.of_nat (length l))) l.

(** ** PianoTileCreator *)

Record PianoTileCreator : Type := {
  vid_width : Q;
  vid_height : Q;
  vid_dpi : Q;
  vid_fps : Q;
  key_color : string;
  kb_top : Q;
  tile_velocity : Q;
  showKeyVelocity : bool
}.

(** [PianoTileCreator.__init__]; the writer and the figure belong to
    matplotlib, only the arithmetic of the constructor is kept. *)
Definition PianoTileCreator_init (video_width video_height video_dpi video_fps
    KB_ratio tile_velocity : Q) (key_color : string) (showKeyVelocity : bool)
  : result PianoTileCreator :=
  _ <- pydiv video_width video_dpi ;;
  _ <- pydiv video_height video_dpi ;;
  if Qle_bool 0 KB_ratio && Qlt_bool KB_ratio 1 then
    Ok {| vid_width := video_width; vid_height := video_height;
          vid_dpi := video_dpi; vid_fps := video_fps;
          key_color := key_color; kb_top := KB_ratio * video_height;
          tile_velocity := tile_velocity;
          showKeyVelocity := showKeyVelocity |}
  else Raise ValueError.

(** The parsed MIDI object handed over by miditoolkit. *)
Record TempoChange : Type := { tempo : Q; time : Z }.
Record Instrument : Type := { notes : list Note }.
Record MidiFile : Type := {
  ticks_per_beat : Z;
  tempo_changes : list TempoChange;
  instruments : list Instrument
}.

(** The attributes [loadMidiFile] adds to the creator. *)
Record Loaded : Type := {
  creator : PianoTileCreator;
  all_notes : list Note;
  ticks_per_sec : Q;
  total_duration : Q;
  ticks_per_frame : Q;
  white_key_width : Q;
  all_key_objs : list KB_key
}.

Definition black_key_pattern : list Q :=
  [16.69; 0; 13.97; 16.79; 0; 12.83; 14.76].

Definition key_leb (a b : Rectangle) : bool := Qle_bool (get_x a) (get_x b).

Definition white_keys (self : PianoTileCreator) (wkw : Q) : list Rectangle :=
  map (fun x : nat =>
         {| get_x := inject_Z (Z.of_nat x) * wkw; get_y := 0;
            get_width := wkw; get_height := kb_top self;
            facecolor := "white"; alpha := None; in_axes := true |})
      (seq 0 52).

Definition black_keys (self : PianoTileCreator) (wkw : Q) : list Rectangle :=
  let pattern := map (fun x => x / 22.15 * wkw) black_key_pattern in
  let black_key_height := kb_top self * 80 / 126.27 in
  let black_key_width := wkw * 11 / 22.15 in
  flat_map (fun x : nat =>
              let off := nth (x mod length pattern) pattern 0 in
              if truthy off then
                [ {| get_x := inject_Z (Z.of_nat x) * wkw + off;
                     get_y := kb_top self - black_key_height;
                     get_width := black_key_width;
                     get_height := black_key_height;
                     facecolor := "black"; alpha := None;
                     in_axes := true |} ]
              else [])
           (seq 0 51).

(** [all_key_rects] after the sort of [init_keys]. *)
Definition all_key_rects (self : PianoTileCreator) : list Rectangle :=
  let white_key_width := vid_width self / 52 in
  sorted key_leb
    (white_keys self white_key_width ++ black_keys self white_key_width).

(** [PianoTileCreator.init_keys]; [tps] is [self.ticks_per_sec], set by
    [loadMidiFile] before the keyboard is built. *)
Definition init_keys (self : PianoTileCreator) (tps : Q)
  : result (list KB_key) :=
  let white_key_width := vid_width self / 52 in
  mapM (fun ik : Z * Rectangle =>
          let (i, k) := ik in
          KB_key_init (21 + i) k (vid_height self) (kb_top self)
            (tile_velocity self) tps (key_color self)
            (showKeyVelocity self)
            (Qlt_bool (get_width k) white_key_width) [])
       (enumerate (all_key_rects self)).

(** The sort key [(n.start, -n.pitch)], compared as Python compares tuples. *)
Definition note_leb (n m : Note) : bool :=
  ((start n <? start m) ||
   ((start n =? start m) && (- pitch n <=? - pitch m)))%Z.

(** Body of the loop that distributes the notes over the keys. *)
Definition assign (keys : list KB_key) (n : Note) : result (list KB_key) :=
  if ((21 <=? pitch n) && (pitch n <=? 108))%Z then
    i <- py_index keys (pitch n - 21) ;;
    Ok (modify_at i (fun k => with_notes k (_notes k ++ [n])) keys)
  else Ok keys.

(** [PianoTileCreator.loadMidiFile], from the parsed file on. *)
Definition loadMidiFile (self : PianoTileCreator) (midi_obj : MidiFile)
  : result Loaded :=
  let all_notes := flat_map notes (instruments midi_obj) in
  let all_notes := sorted note_leb all_notes in
  tc <- getitem (tempo_changes midi_obj) 0 ;;
  let ticks_per_sec := inject_Z (ticks_per_beat midi_obj) * tempo tc / 60 in
  last_note <- getitem all_notes (-1) ;;
  total_duration <- pydiv (inject_Z (end_ last_note)) ticks_per_sec ;;
  ticks_per_frame <- pydiv ticks_per_sec (vid_fps self) ;;
  keys <- init_keys self ticks_per_sec ;;
  keys <- foldM assign all_notes keys ;;
  keys <- mapM createTiles keys ;;
  Ok {| creator := self; all_notes := all_notes;
        ticks_per_sec := ticks_per_sec; total_duration := total_duration;
        ticks_per_frame := ticks_per_frame;
        white_key_width := vid_width self / 52;
        all_key_objs := keys |}.

(** What [grab_frame] captures: the tick of the frame and every key with
    its tiles. *)
Record Frame : Type := {
  frame_tick : Q;
  frame_keys : list KB_key
}.

Fixpoint render_loop (ticks_per_frame : Q) (frames : list Z)
    (keys : list KB_key) : result (list Frame) :=
  match frames with
  | [] => Ok []
  | i :: frames' =>
      let tick := inject_Z i * ticks_per_frame in
      keys' <- mapM (fun k => update k tick) keys ;;
      rest <- render_loop ticks_per_frame frames' keys' ;;
      Ok ({| frame_tick := tick; frame_keys := keys' |} :: rest)
  end.

(** [PianoTileCreator.render].  The number of frames is taken from the
    rational product; it is the number the program runs through when
    [exact_frame_count] holds. *)
Definition render (L : Loaded) : result (list Frame) :=
  render_loop (ticks_per_frame L)
    (py_range (py_int (total_duration L * vid_fps (creator L)) + 2))
    (all_key_objs L).

(** ** Auxiliary definitions used in the statements *)

(** The tile [createTiles] builds when the division succeeds. *)
Definition tile_of (self : KB_key) (n : Note) : Tile :=
  let tps := _ticks_per_sec self in
  let start_y := inject_Z (start n) / tps * _tile_velocity self + _kbtop self in
  let end_y := inject_Z (end_ n) / tps * _tile_velocity self + _kbtop self in
  {| state := 0;
     rect := {| get_x := get_x (_rect self); get_y := start_y;
                get_width := get_width (_rect self);
                get_height := end_y - start_y;
                facecolor := _key_color self;
                alpha := Some (if _showKeyVelocity self
                               then inject_Z (velocity n) / 127 else 1);
                in_axes := false |};
     start_y_pos := start_y;
     initial_w := end_y - start_y |}.

(** The "move position" step when the division succeeds. *)
Definition moved (self : KB_key) (tick : Q) (t : Tile) : Tile :=
  let d := _tile_velocity self * tick / _ticks_per_sec self in
  if (state t <=? 1)%Z then
    if Qle_bool (get_y (rect t)) (_kbtop self) then
      with_rect t
        (set_height (rect t)
           (max0 (initial_w t - _kbtop self + start_y_pos t - d)))
    else with_rect t (set_y (rect t) (start_y_pos t - d))
  else t.


(** Phase and drawable set agree: a tile is attached to the axes exactly
    while it is present. *)
Definition phase_ok (t : Tile) : Prop :=
  (state t = 0%Z /\ in_axes (rect t) = false) \/
  (state t = 1%Z /\ in_axes (rect t) = true) \/
  (state t = 2%Z /\ in_axes (rect t) = false).

(** What every tile reached from [t0] by calls of [update] satisfies. *)
Definition tile_inv (self : KB_key) (t0 t : Tile) : Prop :=
  start_y_pos t = start_y_pos t0 /\
  initial_w t = initial_w t0 /\
  phase_ok t /\
  (state t = 2%Z -> get_height (rect t) <= 0) /\
  (_kbtop self < get_y (rect t) ->
   _kbtop self < start_y_pos t /\ get_height (rect t) = initial_w t).

(** The ticks of frames [0 .. n-1] of [render]. *)
Definition frame_ticks (ticks_per_frame : Q) (n : nat) : list Q :=
  map (fun i => inject_Z i * ticks_per_frame) (py_range (Z.of_nat n)).

(** Frame-by-frame replay up to frame [N], and the single update at the tick
    of frame [N]. *)
Definition replay (self : KB_key) (ticks_per_frame : Q) (N : nat) (t : Tile)
  : result Tile :=
  run_tile self (frame_ticks ticks_per_frame (S N)) t.

Definition direct (self : KB_key) (ticks_per_frame : Q) (N : nat) (t : Tile)
  : result Tile :=
  update_tile self (inject_Z (Z.of_nat N) * ticks_per_frame) t.

(** Where the falling branch of [update] puts the leading edge at [tick]. *)
Definition edge_at (self : KB_key) (n : Note) (tick : Q) : Q :=
  start_y_pos (tile_of self n)
  - _tile_velocity self * tick / _ticks_per_sec self.

(** What is compared between two computations of a tile. *)
Definition observed (t : Tile) : Z * Q * Q :=
  (state t, get_y (rect t), get_height (rect t)).

(** ** A sample scenario

    512 ticks per beat at 120 beats per minute (1024 ticks per second),
    32 frames per second (32 ticks per frame), a 1040 x 400 video with a
    quarter of its height for the keyboard, tiles falling at 256 pixels per
    second, and one note on middle C from tick 50 to tick 1074. *)

Definition demo_note : Note :=
  {| pitch := 60; start := 50; end_ := 1074; velocity := 100 |}.

Definition demo_key : KB_key :=
  {| _midi_num := 60;
     _rect := {| get_x := 460; get_y := 0; get_width := 20;
                 get_height := 100; facecolor := "white"; alpha := None;
                 in_axes := true |};
     _notes := [demo_note]; _current_tick := 0; _isSharp := false;
     _tiles := []; _kbtop := 100; _key_color := "green";
     _showKeyVelocity := false; _tile_velocity := 256;
     _ticks_per_sec := 1024; _video_height := 400 |}.

Definition demo_creator : PianoTileCreator :=
  {| vid_width := 1040; vid_height := 400; vid_dpi := 100; vid_fps := 32;
     key_color := "green"; kb_top := 100; tile_velocity := 256;
     showKeyVelocity := false |}.

Definition demo_midi : MidiFile :=
  {| ticks_per_beat := 512;
     tempo_changes := [ {| tempo := 120; time := 0 |} ];
     instruments := [ {| notes := [demo_note] |} ] |}.

(** A file with a tempo entry and one instrument without notes. *)
Definition empty_midi : MidiFile :=
  {| ticks_per_beat := 512;
     tempo_changes := [ {| tempo := 120; time := 0 |} ];
     instruments := [ {| notes := [] |} ] |}.

(** The exceptions the program raises itself with a [raise] statement;
    [IndexError] and [ZeroDivisionError] only come from the interpreter, out
    of an index or a division. *)
Definition explicit_rejection (e : exn) : bool :=
  match e with
  | ValueError => true
  | IndexError | ZeroDivisionError => false
  end.

(** The configuration every key carries, which no method changes. *)
Definition config_of (k : KB_key) : Q * string * bool * Q * Q * Q :=
  (_kbtop k, _key_color k, _showKeyVelocity k, _tile_velocity k,
   _ticks_per_sec k, _video_height k).

Definition creator_config (self : PianoTileCreator) (tps : Q)
  : Q * string * bool * Q * Q * Q :=
  (kb_top self, key_color self, showKeyVelocity self, tile_velocity self,
   tps, vid_height self).

(** [createTiles] and [update] when no division raises. *)
Definition tiles_created (k : KB_key) : KB_key :=
  with_tiles k (map (tile_of k) (_notes k)).

Definition updated (k : KB_key) (tick : Q) : KB_key :=
  with_key_rect
    (with_tiles k (map (fun t => step_state k (moved k tick t)) (_tiles k)))
    (update_display k tick).

(** ** The keyboard in units of one white key

    Every rectangle of [init_keys] sits at a fixed multiple of the white key
    width: natural key [x] at [x], the sharp key after natural key [x] at
    [x + p / 22.15] with [p] the pattern entry of [x]. *)

Inductive KeySpec : Type :=
| Natural (x : nat)
| Sharp (x : nat) (p : Q).

Definition spec_rect (self : PianoTileCreator) (wkw : Q) (s : KeySpec)
  : Rectangle :=
  match s with
  | Natural x =>
      {| get_x := inject_Z (Z.of_nat x) * wkw; get_y := 0;
         get_width := wkw; get_height := kb_top self;
         facecolor := "white"; alpha := None; in_axes := true |}
  | Sharp x p =>
      {| get_x := inject_Z (Z.of_nat x) * wkw + p / 22.15 * wkw;
         get_y := kb_top self - kb_top self * 80 / 126.27;
         get_width := wkw * 11 / 22.15;
         get_height := kb_top self * 80 / 126.27;
         facecolor := "black"; alpha := None; in_axes := true |}
  end.

Definition natural_specs : list KeySpec := map Natural (seq 0 52).

Definition sharp_specs : list KeySpec :=
  flat_map (fun x : nat =>
              let p := nth (x mod 7) black_key_pattern 0 in
              if truthy p then [Sharp x p] else [])
           (seq 0 51).

Definition spec_pos (s : KeySpec) : Q :=
  match s with
  | Natural x => inject_Z (Z.of_nat x)
  | Sharp x p => inject_Z (Z.of_nat x) + p / 22.15
  end.

Definition spec_width (s : KeySpec) : Q :=
  match s with
  | Natural _ => 1
  | Sharp _ _ => 11 / 22.15
  end.

Definition is_sharp (s : KeySpec) : bool :=
  match s with
  | Natural _ => false
  | Sharp _ _ => true
  end.

Definition spec_leb (a b : KeySpec) : bool :=
  Qle_bool (spec_pos a) (spec_pos b).

Definition sorted_specs : list KeySpec :=
  sorted spec_leb (natural_specs ++ sharp_specs).

(** The key object [init_keys] builds from entry [(i, s)] of the sorted
    keyboard. *)
Definition key_of_spec (self : PianoTileCreator) (tps : Q)
    (e : Z * KeySpec) : KB_key :=
  let wkw := vid_width self / 52 in
  {| _midi_num := 21 + fst e; _rect := spec_rect self wkw (snd e);
     _notes := []; _current_tick := 0;
     _isSharp := Qlt_bool (get_width (spec_rect self wkw (snd e))) wkw;
     _tiles := [];
     _kbtop := kb_top self; _key_color := key_color self;
     _showKeyVelocity := showKeyVelocity self;
     _tile_velocity := tile_velocity self; _ticks_per_sec := tps;
     _video_height := vid_height self |}.

(** A relation checked on every ordered pair of a list. *)
Fixpoint all_pairs {A : Type} (r : A -> A -> bool) (l : list A) : bool :=
  match l with
  | [] => true
  | a :: l' => forallb (r a) l' && all_pairs r l'
  end.

(** [a] lies strictly left of [b], and entirely left of it when both are
    naturals or both are sharps. *)
Definition spec_before (a b : Z * KeySpec) : bool :=
  Qlt_bool (spec_pos (snd a)) (spec_pos (snd b)) &&
  (negb (Bool.eqb (is_sharp (snd a)) (is_sharp (snd b))) ||
   Qle_bool (spec_pos (snd a) + spec_width (snd a)) (spec_pos (snd b))).

(** Two rectangles overlap when their interiors meet. *)
Definition overlaps (a b : Rectangle) : Prop :=
  get_x a < get_x b + get_width b /\ get_x b < get_x a + get_width a /\
  get_y a < get_y b + get_height b /\ get_y b < get_y a + get_height a.

Definition key_before (a b : KB_key) : Prop :=
  get_x (_rect a) < get_x (_rect b) /\
  (_isSharp a = _isSharp b -> ~ overlaps (_rect a) (_rect b)).

(** The sample creator with a video of width 0. *)
Definition zero_width_creator : PianoTileCreator :=
  {| vid_width := 0; vid_height := 400; vid_dpi := 100; vid_fps := 32;
     key_color := "green"; kb_top := 100; tile_velocity := 256;
     showKeyVelocity := false |}.

(** The notes of [ns] whose pitch belongs to the key at index [i]. *)
Definition routed_notes (ns : list Note) (i : nat) : list Note :=
  filter (fun n => (pitch n =? 21 + Z.of_nat i)%Z) ns.

(** [self.ticks_per_sec] as [loadMidiFile] computes it from the first tempo
    entry [tc]. *)
Definition ticks_per_sec_of (midi_obj : MidiFile) (tc : TempoChange) : Q :=
  inject_Z (ticks_per_beat midi_obj) * tempo tc / 60.

(** [self.all_notes] after the sort. *)
Definition sorted_notes (midi_obj : MidiFile) : list Note :=
  sorted note_leb (flat_map notes (instruments midi_obj)).

(** The scenario of the specification: 480 ticks per beat at 120 beats per
    minute, 30 frames per second, one note on middle C from tick 0 to tick
    960. *)
Definition scenario_creator : PianoTileCreator :=
  {| vid_width := 1040; vid_height := 400; vid_dpi := 100; vid_fps := 30;
     key_color := "green"; kb_top := 100; tile_velocity := 256;
     showKeyVelocity := false |}.

Definition scenario_midi : MidiFile :=
  {| ticks_per_beat := 480;
     tempo_changes := [ {| tempo := 120; time := 0 |} ];
     instruments :=
       [ {| notes := [ {| pitch := 60; start := 0; end_ := 960;
                          velocity := 100 |} ] |} ] |}.

(** ** Velocities

    [strip] forgets the velocity of a note; two inputs are identical except
    in their velocities when stripping makes them equal. *)

Definition strip (n : Note) : Note :=
  {| pitch := pitch n; start := start n; end_ := end_ n; velocity := 0 |}.

Definition strip_key (k : KB_key) : KB_key :=
  with_notes k (map strip (_notes k)).

Definition strip_frame (f : Frame) : Frame :=
  {| frame_tick := frame_tick f;
     frame_keys := map strip_key (frame_keys f) |}.

Definition strip_midi (m : MidiFile) : MidiFile :=
  {| ticks_per_beat := ticks_per_beat m;
     tempo_changes := tempo_changes m;
     instruments :=
       map (fun ins => {| notes := map strip (notes ins) |}) (instruments m) |}.

Definition strip_loaded (L : Loaded) : Loaded :=
  {| creator := creator L; all_notes := map strip (all_notes L);
     ticks_per_sec := ticks_per_sec L; total_duration := total_duration L;
     ticks_per_frame := ticks_per_frame L;
     white_key_width := white_key_width L;
     all_key_objs := map strip_key (all_key_objs L) |}.

(** What is drawn for a key: its own rectangle (position, size, colour,
    opacity) and its tiles with their rectangles. *)
Definition drawn (k : KB_key) : Rectangle * list Tile := (_rect k, _tiles k).

(** What is drawn over a whole rendering, frame by frame. *)
Definition view (fs : list Frame) : list (Q * list (Rectangle * list Tile)) :=
  map (fun f => (frame_tick f, map drawn (frame_keys f))) fs.

(** Load, then render. *)
Definition run (self : PianoTileCreator) (midi_obj : MidiFile)
  : result (list Frame) :=
  L <- loadMidiFile self midi_obj ;; render L.

(** Two inputs that differ in velocities only. *)
Definition loud_midi : MidiFile :=
  {| ticks_per_beat := 512;
     tempo_changes := [ {| tempo := 120; time := 0 |} ];
     instruments :=
       [ {| notes := [ {| pitch := 60; start := 50; end_ := 1074;
                          velocity := 127 |} ] |} ] |}.

(** Three notes: one below the keyboard, middle C, one above the keyboard. *)
Definition stray_midi : MidiFile :=
  {| ticks_per_beat := 512;
     tempo_changes := [ {| tempo := 120; time := 0 |} ];
     instruments :=
       [ {| notes :=
              [ {| pitch := 20; start := 0; end_ := 512; velocity := 64 |};
                {| pitch := 60; start := 0; end_ := 512; velocity := 64 |};
                {| pitch := 109; start := 0; end_ := 512; velocity := 64 |} ]
         |} ] |}.

(** Successive calls of [update] on one key. *)
Definition run_key (self : KB_key) (ticks : list Q) : result KB_key :=
  foldM update ticks self.

(** A tile stands over its key: same x-position, same width, and the tile
    colour of the key. *)
Definition over_key (k : KB_key) (t : Tile) : Prop :=
  get_x (rect t) = get_x (_rect k) /\
  get_width (rect t) = get_width (_rect k) /\
  facecolor (rect t) = _key_color k.

(** The sample key with velocities shown as opacity. *)
Definition loud_key : KB_key :=
  {| _midi_num := 60;
     _rect := {| get_x := 460; get_y := 0; get_width := 20;
                 get_height := 100; facecolor := "white"; alpha := None;
                 in_axes := true |};
     _notes := [demo_note]; _current_tick := 0; _isSharp := false;
     _tiles := []; _kbtop := 100; _key_color := "green";
     _showKeyVelocity := true; _tile_velocity := 256;
     _ticks_per_sec := 1024; _video_height := 400 |}.

(** A note sounds at [tick] when [start <= tick < end]. *)
Definition sounding (tick : Q) (n : Note) : Prop :=
  inject_Z (start n) <= tick /\ tick < inject_Z (end_ n).

(** The order of [all_notes]: by start tick, and for equal start ticks by
    pitch, the higher pitch first. *)
Definition note_order (a b : Note) : Prop :=
  (start a < start b)%Z \/ (start a = start b /\ pitch b <= pitch a)%Z.

(** The pitch classes of the black keys: A#, C#, D#, F#, G#. *)
Definition black_pitch_class (m : Z) : bool :=
  existsb (Z.eqb (m mod 12)) [1; 3; 6; 8; 10]%Z.

(** The sample file with a tempo of zero. *)
Definition still_midi : MidiFile :=
  {| ticks_per_beat := 512;
     tempo_changes := [ {| tempo := 0; time := 0 |} ];
     instruments := [ {| notes := [demo_note] |} ] |}.

(** The same key, possibly after some updates: number, kind, notes and
    number of tiles. *)
Definition same_key (k0 k : KB_key) : Prop :=
  _midi_num k = _midi_num k0 /\ _isSharp k = _isSharp k0 /\
  _notes k = _notes k0 /\ length (_tiles k) = length (_tiles k0).

(** The key object [init_keys] builds from entry [(i, rectangle)] of the
    enumeration of the sorted rectangles. *)
Definition key_of_rect (self : PianoTileCreator) (tps : Q)
    (e : Z * Rectangle) : KB_key :=
  {| _midi_num := 21 + fst e; _rect := snd e;
     _notes := []; _current_tick := 0;
     _isSharp := Qlt_bool (get_width (snd e)) (vid_width self / 52);
     _tiles := [];
     _kbtop := kb_top self; _key_color := key_color self;
     _showKeyVelocity := showKeyVelocity self;
     _tile_velocity := tile_velocity self; _ticks_per_sec := tps;
     _video_height := vid_height self |}.

(** The note of the scenario and what [loadMidiFile] builds from it. *)
Definition scenario_note : Note :=
  {| pitch := 60; start := 0; end_ := 960; velocity := 100 |}.

Definition scenario_loaded : Loaded :=
  match loadMidiFile scenario_creator scenario_midi with
  | Ok L => L
  | Raise _ =>
      {| creator := scenario_creator; all_notes := []; ticks_per_sec := 0;
         total_duration := 0; ticks_per_frame := 0; white_key_width := 0;
         all_key_objs := [] |}
  end.

(** The sample key after its tiles were created and 35 frames were
    played. *)
Definition demo_key_played : KB_key :=
  match run_key (tiles_created demo_key) (frame_ticks 32 35) with
  | Ok k => k
  | Raise _ => demo_key
  end.

(** The tile after the given updates, when no division raises. *)
Definition play (self : KB_key) (ticks : list Q) (t : Tile) : Tile :=
  fold_left (fun t tick => step_state self (moved self tick t)) ticks t.

(** The tile of the frame-by-frame replay after frame [N]. *)
Definition replayed (self : KB_key) (ticks_per_frame : Q) (N : nat)
    (t : Tile) : Tile :=
  play self (frame_ticks ticks_per_frame (S N)) t.

(** The key of pitch 60 in the 480/120/30 scenario (960 ticks per second,
    32 ticks per frame), whose note starts at tick 0: its tile is created
    with its leading edge at [kb_top]. *)
Definition scenario_key : KB_key :=
  {| _midi_num := 60;
     _rect := {| get_x := 460; get_y := 0; get_width := 20;
                 get_height := 100; facecolor := "white"; alpha := None;
                 in_axes := true |};
     _notes := [scenario_note]; _current_tick := 0; _isSharp := false;
     _tiles := []; _kbtop := 100; _key_color := "green";
     _showKeyVelocity := false; _tile_velocity := 256;
     _ticks_per_sec := 960; _video_height := 400 |}.

(** ** Binary64

    [loadMidiFile] and [render] compute the time base and the number of
    frames with Python floats, and [int()] truncates the rounded product
    [total_duration * vid_fps].  The number of frames is therefore a
    function of the binary64 values, not of the rationals they stand for.
    [Binary64] evaluates lines 235-237 and 265 on the primitive binary64
    numbers of the kernel; [binary64] says that a rational is a finite
    binary64 number, [exact_frame_count] that no operation leading to the
    number of frames rounds, and [exact_time_base] that no operation of
    lines 235-238 and 265-266 rounds, in which case the rationals of the
    embedding are the values the program computes. *)
Module Binary64.

(** Python's conversion of an [int] to a [float], for [|z| < 2^63]. *)
Definition of_int (z : Z) : option float :=
  if (Z.abs z <? 2 ^ 63)%Z then
    let x := PrimFloat.of_uint63 (Uint63.of_Z (Z.abs z)) in
    Some (if (z <? 0)%Z then PrimFloat.opp x else x)
  else None.

(** Python's [int(x)] on a float: truncation towards zero, an exception
    on infinities and NaN. *)
Definition to_int (x : float) : option Z :=
  match Prim2SF x with
  | S754_zero _ => Some 0%Z
  | S754_finite s m e =>
      let v := if (0 <=? e)%Z then (Z.pos m * 2 ^ e)%Z
               else Z.quot (Z.pos m) (2 ^ (- e)) in
      Some (if s then (- v)%Z else v)
  | _ => None
  end.

(** Lines 235-236: [ticks_per_beat * tempo / 60]. *)
Definition ticks_per_sec (ticks_per_beat : Z) (tempo : float)
  : option float :=
  match of_int ticks_per_beat, of_int 60 with
  | Some tpb, Some sixty =>
      Some (PrimFloat.div (PrimFloat.mul tpb tempo) sixty)
  | _, _ => None
  end.

(** Line 237: [all_notes[-1].end / ticks_per_sec]; a zero divisor
    raises. *)
Definition total_duration (last_end : Z) (ticks_per_sec : float)
  : option float :=
  match of_int last_end with
  | Some e =>
      if PrimFloat.eqb ticks_per_sec PrimFloat.zero then None
      else Some (PrimFloat.div e ticks_per_sec)
  | None => None
  end.

(** Line 265: [int(total_duration * vid_fps) + 2]. *)
Definition frame_count (total_duration : float) (vid_fps : Z) : option Z :=
  match of_int vid_fps with
  | Some fps =>
      match to_int (PrimFloat.mul total_duration fps) with
      | Some n => Some (n + 2)%Z
      | None => None
      end
  | None => None
  end.

(** The number of frames [render] runs through, from the numbers read
    from the file and the frame rate. *)
Definition frames (ticks_per_beat : Z) (tempo : float) (last_end : Z)
    (vid_fps : Z) : option Z :=
  match ticks_per_sec ticks_per_beat tempo with
  | Some tps =>
      match total_duration last_end tps with
      | Some d => frame_count d vid_fps
      | None => None
      end
  | None => None
  end.

End Binary64.

(** [q = m * 2^e] for an integer [m] with [|m| < 2^53]. *)
Definition binary64_at (q : Q) (e : Z) : bool :=
  let a := (Qnum q * 2 ^ Z.max 0 (- e))%Z in
  let b := (QDen q * 2 ^ Z.max 0 e)%Z in
  ((a mod b =? 0) && (Z.abs (a / b) <? 2 ^ 53))%Z.

(** [q] is a finite binary64 number: [m * 2^e] with [|m| < 2^53] and
    [-1074 <= e <= 971].  With [l] the difference of the bit lengths of
    numerator and denominator, [2^(l-1) < |q| < 2^(l+1)], so that
    [l - 53] and [l - 52] are tried first, and every exponent after
    them. *)
Definition binary64 (q : Q) : bool :=
  let l := (Z.log2 (Z.abs (Qnum q)) - Z.log2 (QDen q))%Z in
  let fits := fun e => (-1074 <=? e)%Z && (e <=? 971)%Z && binary64_at q e in
  if existsb fits [Z.max (-1074) (l - 53); Z.max (-1074) (l - 52)]
  then true
  else existsb fits (map (fun i => (i - 1074)%Z) (py_range 2046)).

(** No operation that leads to the number of frames rounds (lines 235-237
    and 265): the operands, the product [ticks_per_beat * tempo],
    [ticks_per_sec], [total_duration] and the product
    [total_duration * vid_fps] are binary64 numbers. *)
Definition exact_count_numbers (ticks_per_beat : Z) (tempo : Q)
    (last_end : Z) (vid_fps : Q) : bool :=
  let tps := inject_Z ticks_per_beat * tempo / 60 in
  let dur := inject_Z last_end / tps in
  forallb binary64
    [inject_Z ticks_per_beat; tempo; inject_Z ticks_per_beat * tempo; tps;
     inject_Z last_end; dur; vid_fps; dur * vid_fps].

(** Nor does any operation that leads to the tick of a frame (lines 238
    and 266): [ticks_per_frame], the index [i] and the tick
    [i * ticks_per_frame] of every frame are binary64 numbers. *)
Definition exact_tick_numbers (ticks_per_beat : Z) (tempo : Q)
    (last_end : Z) (vid_fps : Q) : bool :=
  let tps := inject_Z ticks_per_beat * tempo / 60 in
  let dur := inject_Z last_end / tps in
  let tpf := tps / vid_fps in
  binary64 tpf
  && forallb (fun i => binary64 (inject_Z i) && binary64 (inject_Z i * tpf))
       (py_range (py_int (dur * vid_fps) + 2)).

(** [exact_count_numbers] for the first tempo entry of the file and the
    last note of the sorted list. *)
Definition exact_frame_count (self : PianoTileCreator) (midi : MidiFile)
    (L : Loaded) : bool :=
  match tempo_changes midi, rev (all_notes L) with
  | tc :: _, ln :: _ =>
      exact_count_numbers (ticks_per_beat midi) (tempo tc) (end_ ln)
        (vid_fps self)
  | _, _ => false
  end.

(** No operation of the time base rounds: [exact_frame_count], and
    [exact_tick_numbers] for the same numbers. *)
Definition exact_time_base (self : PianoTileCreator) (midi : MidiFile)
    (L : Loaded) : bool :=
  exact_frame_count self midi L
  && match tempo_changes midi, rev (all_notes L) with
     | tc :: _, ln :: _ =>
         exact_tick_numbers (ticks_per_beat midi) (tempo tc) (end_ ln)
           (vid_fps self)
     | _, _ => false
     end.

(** * Properties *)

(** ** Arithmetic helpers *)

Lemma Qle_bool_spec (a b : Q) : BoolSpec (a <= b) (b < a) (Qle_bool a b).
Proof.
  destruct (Qle_bool a b) eqn:E; constructor.
  - now apply Qle_bool_iff.
  - apply Qnot_le_lt. intro H. apply Qle_bool_iff in H. congruence.
Qed.

Lemma Qeq_bool_spec (a b : Q) : BoolSpec (a == b) (~ a == b) (Qeq_bool a b).
Proof.
  destruct (Qeq_bool a b) eqn:E; constructor.
  - now apply Qeq_bool_iff.
  - now apply Qeq_bool_neq.
Qed.

Lemma pydiv_ok (a b : Q) : ~ b == 0 -> pydiv a b = Ok (a / b).
Proof.
  intro H. unfold pydiv. now destruct (Qeq_bool_spec b 0) as [Hz|Hz].
Qed.

Lemma pydiv_inv (a b q : Q) : pydiv a b = Ok q -> ~ b == 0 /\ q = a / b.
Proof.
  unfold pydiv. destruct (Qeq_bool_spec b 0) as [Hz|Hz]; intro E;
    inversion E; auto.
Qed.

Lemma max0_nonneg (x : Q) : 0 <= max0 x.
Proof.
  unfold max0. destruct (Qle_bool_spec x 0) as [Hx|Hx]; lra.
Qed.

Lemma max0_pos (x : Q) : 0 < x -> max0 x = x.
Proof.
  intro H. unfold max0.
  destruct (Qle_bool_spec x 0) as [Hx|Hx]; [lra | reflexivity].
Qed.

Lemma max0_nonpos (x : Q) : x <= 0 -> max0 x = 0.
Proof.
  intro H. unfold max0.
  destruct (Qle_bool_spec x 0) as [Hx|Hx]; [reflexivity | lra].
Qed.

(** ** The tile state machine *)

Section TileMachine.
Variable self : KB_key.
Hypothesis tps_nonzero : ~ _ticks_per_sec self == 0.

Lemma new_tile_ok (n : Note) : new_tile self n = Ok (tile_of self n).
Proof.
  unfold new_tile. rewrite !pydiv_ok by assumption. reflexivity.
Qed.

Lemma move_tile_ok (tick : Q) (t : Tile) :
  move_tile self tick t = Ok (moved self tick t).
Proof.
  unfold move_tile, moved. rewrite !pydiv_ok by assumption. simpl.
  destruct (state t <=? 1)%Z; [|reflexivity].
  destruct (Qle_bool _ _); reflexivity.
Qed.

Lemma update_tile_ok (tick : Q) (t : Tile) :
  update_tile self tick t = Ok (step_state self (moved self tick t)).
Proof.
  unfold update_tile. rewrite move_tile_ok. reflexivity.
Qed.

(** Replaying any list of ticks never raises. *)
Lemma run_tile_total (ticks : list Q) (t : Tile) :
  exists t', run_tile self ticks t = Ok t'.
Proof.
  revert t. induction ticks as [|tick ticks IH]; intro t.
  - now exists t.
  - unfold run_tile. simpl. rewrite update_tile_ok. simpl. apply IH.
Qed.

Lemma run_tile_app (ticks : list Q) (tick : Q) (t t1 : Tile) :
  run_tile self ticks t = Ok t1 ->
  run_tile self (ticks ++ [tick]) t = update_tile self tick t1.
Proof.
  revert t. induction ticks as [|a ticks IH]; intros t H.
  - inversion H; subst. unfold run_tile. simpl.
    now destruct (update_tile self tick t1).
  - unfold run_tile in *. simpl in *.
    destruct (update_tile self a t) as [t2|e]; simpl in *; [|discriminate].
    now apply IH.
Qed.
End TileMachine.

Lemma new_tile_inv (self : KB_key) (n : Note) (t : Tile) :
  new_tile self n = Ok t -> ~ _ticks_per_sec self == 0 /\ t = tile_of self n.
Proof.
  intro H. destruct (Qeq_bool_spec (_ticks_per_sec self) 0) as [Hz|Hz].
  - unfold new_tile, pydiv in H.
    rewrite (Qeq_eq_bool _ _ Hz) in H. discriminate.
  - split; [assumption|].
    rewrite new_tile_ok in H by assumption. now inversion H.
Qed.

(** A finished tile is left alone by [update]: nothing is divided, moved
    or attached. *)
Lemma update_tile_done (self : KB_key) (tick : Q) (t : Tile) :
  state t = 2%Z -> update_tile self tick t = Ok t.
Proof.
  intro H. unfold update_tile, move_tile, step_state. rewrite H. simpl.
  rewrite H. reflexivity.
Qed.

Lemma run_tile_done (self : KB_key) (ticks : list Q) (t : Tile) :
  state t = 2%Z -> run_tile self ticks t = Ok t.
Proof.
  intro H. induction ticks as [|tick ticks IH]; [reflexivity|].
  unfold run_tile in *. simpl. rewrite update_tile_done by assumption.
  exact IH.
Qed.

Ltac case_Qle :=
  match goal with
  | |- context [Qle_bool ?a ?b] =>
      let H := fresh "Hle" in destruct (Qle_bool_spec a b) as [H|H]
  end.

Section TileInvariant.
Variable self : KB_key.
Hypothesis tps_nonzero : ~ _ticks_per_sec self == 0.

Lemma tile_inv_init (n : Note) : tile_inv self (tile_of self n) (tile_of self n).
Proof.
  unfold tile_inv, phase_ok. simpl.
  repeat split; auto; try discriminate.
Qed.

Lemma tile_inv_step (t0 t : Tile) (tick : Q) :
  tile_inv self t0 t ->
  tile_inv self t0 (step_state self (moved self tick t)).
Proof.
  intros (Hs & Hw & Hp & Hd & Hf).
  unfold tile_inv, phase_ok, step_state, moved.
  destruct Hp as [[E Ha]|[[E Ha]|[E Ha]]]; rewrite E; simpl.
  - case_Qle; simpl; rewrite ?E; simpl; case_Qle; simpl;
      repeat split; auto; try discriminate; try lra;
      try (intro; exfalso; lra); try (now apply Hf);
      intuition (try congruence; try lra).
  - case_Qle; simpl; rewrite ?E; simpl; case_Qle; simpl;
      repeat split; auto; try discriminate; try lra;
      try (intro; exfalso; lra); try (now apply Hf);
      intuition (try congruence; try lra).
  - rewrite E. simpl. repeat split; auto; now apply Hf.
Qed.

Lemma run_tile_inv (ticks : list Q) (t0 t t' : Tile) :
  tile_inv self t0 t -> run_tile self ticks t = Ok t' -> tile_inv self t0 t'.
Proof.
  revert t. induction ticks as [|tick ticks IH]; intros t Hi Hr.
  - now inversion Hr; subst.
  - unfold run_tile in Hr. simpl in Hr.
    rewrite update_tile_ok in Hr by assumption. simpl in Hr.
    eapply IH; [|exact Hr]. now apply tile_inv_step.
Qed.

(** The height written by [update] is never negative. *)
Lemma step_height_nonneg (t : Tile) (tick : Q) :
  0 <= get_height (rect t) \/
  ((state t <= 1)%Z /\ get_y (rect t) <= _kbtop self) ->
  0 <= get_height (rect (step_state self (moved self tick t))).
Proof.
  intro H.
  assert (Hm : 0 <= get_height (rect (moved self tick t))).
  { unfold moved. destruct (Z.leb_spec (state t) 1) as [Hs|Hs].
    - case_Qle; simpl; [apply max0_nonneg|].
      destruct H as [H|[_ H]]; [exact H | lra].
    - destruct H as [H|[H _]]; [exact H | lia]. }
  unfold step_state.
  destruct (state (moved self tick t) =? 1)%Z.
  - case_Qle; simpl; assumption.
  - destruct (state (moved self tick t) =? 0)%Z; [|assumption].
    case_Qle; simpl; assumption.
Qed.

Lemma run_height_nonneg (ticks : list Q) (t t' : Tile) :
  0 <= get_height (rect t) ->
  run_tile self ticks t = Ok t' -> 0 <= get_height (rect t').
Proof.
  revert t. induction ticks as [|tick ticks IH]; intros t Hh Hr.
  - now inversion Hr; subst.
  - unfold run_tile in Hr. simpl in Hr.
    rewrite update_tile_ok in Hr by assumption. simpl in Hr.
    eapply IH; [|exact Hr]. apply step_height_nonneg. now left.
Qed.

End TileInvariant.

(** For a note with [0 <= start < end], a tile that starts above the
    keyboard has a positive length. *)
Lemma initial_w_pos (self : KB_key) (n : Note) :
  (0 <= start n < end_ n)%Z ->
  _kbtop self < start_y_pos (tile_of self n) ->
  0 < initial_w (tile_of self n).
Proof.
  intros [H0 H1] Hy. simpl in *.
  rewrite Zle_Qle in H0. rewrite Zlt_Qlt in H1.
  change (inject_Z 0) with 0 in H0.
  set (s := inject_Z (start n)) in *. set (e := inject_Z (end_ n)) in *.
  unfold Qdiv in *.
  set (i := / _ticks_per_sec self) in *.
  set (v := _tile_velocity self) in *.
  assert (Hc : 0 < s * (i * v)) by lra.
  assert (Hci : 0 < i * v) by nra.
  nra.
Qed.

(** ** Claims on the tile state machine *)

(** C6. Once a tile is done (state 2) after some sequence of frame
    updates, every later sequence of updates leaves it exactly as it is, so
    it stays done, and it is not in the drawable set. *)
Theorem done_is_terminal (self : KB_key) (n : Note) (t0 t : Tile)
    (before after : list Q) :
  new_tile self n = Ok t0 ->
  run_tile self before t0 = Ok t ->
  state t = 2%Z ->
  run_tile self after t = Ok t /\ in_axes (rect t) = false.
Proof.
  intros Hn Hr Hs. split; [now apply run_tile_done|].
  apply new_tile_inv in Hn. destruct Hn as [Hz ->].
  pose proof (run_tile_inv self Hz before _ _ _ (tile_inv_init self n) Hr)
    as (_ & _ & Hp & _).
  destruct Hp as [[E Ha]|[[E Ha]|[E Ha]]]; congruence.
Qed.

Lemma done_is_terminal_witness :
  exists t,
    run_tile demo_key (frame_ticks 32 35) (tile_of demo_key demo_note) = Ok t /\
    state t = 2%Z /\
    run_tile demo_key [1120; 1152] t = Ok t /\ in_axes (rect t) = false.
Proof.
  eexists. split; [vm_compute; reflexivity|]. split; [reflexivity|].
  apply (done_is_terminal demo_key demo_note (tile_of demo_key demo_note) _
           (frame_ticks 32 35));
    vm_compute; reflexivity.
Defined.

(** C7. For a tile made from a note with [0 <= start < end], every
    nonempty sequence of frame updates succeeds and leaves a drawn height
    that is not negative. *)
Theorem height_nonnegative (self : KB_key) (n : Note) (t0 : Tile)
    (ticks : list Q) :
  (0 <= start n < end_ n)%Z ->
  new_tile self n = Ok t0 ->
  ticks <> [] ->
  exists t, run_tile self ticks t0 = Ok t /\ 0 <= get_height (rect t).
Proof.
  intros Hn Ht Hne. apply new_tile_inv in Ht. destruct Ht as [Hz ->].
  destruct ticks as [|tick ticks]; [congruence|].
  destruct (run_tile_total self Hz (tick :: ticks) (tile_of self n))
    as [t Hr].
  exists t. split; [exact Hr|].
  unfold run_tile in Hr. simpl in Hr.
  rewrite update_tile_ok in Hr by assumption. simpl in Hr.
  eapply run_height_nonneg; [exact Hz| |exact Hr].
  apply step_height_nonneg.
  destruct (Qlt_le_dec (_kbtop self) (get_y (rect (tile_of self n))))
    as [Hy|Hy].
  - left. pose proof (initial_w_pos self n Hn Hy) as Hw.
    simpl in *. lra.
  - right. split; [simpl; lia | exact Hy].
Qed.

Lemma height_nonnegative_witness :
  exists t,
    run_tile demo_key (frame_ticks 32 20) (tile_of demo_key demo_note) = Ok t /\
    0 <= get_height (rect t).
Proof.
  apply (height_nonnegative demo_key demo_note).
  - simpl. lia.
  - reflexivity.
  - discriminate.
Defined.

Lemma step_state_geometry (self : KB_key) (t : Tile) :
  get_y (rect (step_state self t)) = get_y (rect t) /\
  get_height (rect (step_state self t)) = get_height (rect t).
Proof.
  unfold step_state.
  destruct (state t =? 1)%Z; [|destruct (state t =? 0)%Z];
    try (destruct (Qle_bool _ _)); simpl; auto.
Qed.

Lemma max0_compat (a b : Q) : a == b -> max0 a == max0 b.
Proof.
  intro H. unfold max0.
  destruct (Qle_bool_spec a 0) as [Ha|Ha];
    destruct (Qle_bool_spec b 0) as [Hb|Hb]; lra.
Qed.

(** A tile still above the keyboard is not done: its phase is 0 or 1. *)
Lemma falling_not_done (self : KB_key) (n : Note) (t : Tile) (ticks : list Q) :
  (0 <= start n < end_ n)%Z ->
  ~ _ticks_per_sec self == 0 ->
  run_tile self ticks (tile_of self n) = Ok t ->
  _kbtop self < get_y (rect t) ->
  (state t <= 1)%Z /\ start_y_pos t = start_y_pos (tile_of self n).
Proof.
  intros Hn Hz Hr Hy.
  pose proof (run_tile_inv self Hz ticks _ _ _ (tile_inv_init self n) Hr)
    as (Hs & Hw & Hp & Hd & Hf).
  split; [|exact Hs].
  destruct (Hf Hy) as [Hsy Hh]. rewrite Hs in Hsy.
  pose proof (initial_w_pos self n Hn Hsy) as Hpos.
  destruct Hp as [[E _]|[[E _]|[E _]]]; try lia.
  specialize (Hd E). rewrite Hh, Hw in Hd. lra.
Qed.

(** C2, as the code has it.  While the leading (bottom) edge of a tile is
    above [kb_top], the frame update at tick [tick] puts that edge at
    [kb_top + (start/ticks_per_sec) * tile_velocity
       - tile_velocity * (tick/ticks_per_sec)]:
    the leading edge is the one derived from the START of the note. *)
Theorem leading_edge_position (self : KB_key) (n : Note) (t0 t : Tile)
    (ticks : list Q) (tick : Q) :
  (0 <= start n < end_ n)%Z ->
  new_tile self n = Ok t0 ->
  run_tile self ticks t0 = Ok t ->
  _kbtop self < get_y (rect t) ->
  exists t',
    update_tile self tick t = Ok t' /\
    get_y (rect t') ==
      _kbtop self
      + inject_Z (start n) / _ticks_per_sec self * _tile_velocity self
      - _tile_velocity self * (tick / _ticks_per_sec self).
Proof.
  intros Hn Ht Hr Hy. apply new_tile_inv in Ht. destruct Ht as [Hz ->].
  destruct (falling_not_done self n t ticks Hn Hz Hr Hy) as [Hs Hsy].
  eexists. split; [apply update_tile_ok; exact Hz|].
  rewrite (proj1 (step_state_geometry self _)).
  unfold moved. apply Z.leb_le in Hs. rewrite Hs.
  destruct (Qle_bool_spec (get_y (rect t)) (_kbtop self)) as [Hle|Hle];
    [lra|].
  simpl. rewrite Hsy. simpl. field. exact Hz.
Qed.

Lemma leading_edge_position_witness :
  exists t',
    update_tile demo_key 64
      (step_state demo_key (moved demo_key 32 (tile_of demo_key demo_note)))
    = Ok t' /\
    get_y (rect t') == 100 + 50 / 1024 * 256 - 256 * (64 / 1024).
Proof.
  apply (leading_edge_position demo_key demo_note
           (tile_of demo_key demo_note) _ [32]).
  - simpl. lia.
  - reflexivity.
  - reflexivity.
  - vm_compute. reflexivity.
Defined.

(** C2, as the claim states it, fails: with the END of the note in the
    formula the predicted edge is 368.5, while the update at tick 0 leaves
    the leading edge of the sample tile at 112.5. *)
Lemma leading_edge_not_from_end :
  _kbtop demo_key < get_y (rect (tile_of demo_key demo_note)) /\
  exists t',
    update_tile demo_key 0 (tile_of demo_key demo_note) = Ok t' /\
    get_y (rect t') == 112.5 /\
    ~ get_y (rect t') ==
        _kbtop demo_key
        + inject_Z (end_ demo_note) / _ticks_per_sec demo_key
          * _tile_velocity demo_key
        - _tile_velocity demo_key * (0 / _ticks_per_sec demo_key).
Proof.
  split; [vm_compute; reflexivity|].
  eexists. split; [vm_compute; reflexivity|].
  split; [vm_compute; reflexivity|].
  vm_compute. discriminate.
Qed.

(** The height rule of the clipped branch: for a tile that is not done and
    whose leading edge is at or below [kb_top], the update writes
    [max(0, initial_length - (t - top_edge_time) * tile_velocity)] and does
    not touch the anchor [y]. *)
Lemma clipped_height (self : KB_key) (n : Note) (t0 t : Tile)
    (ticks : list Q) (tick : Q) :
  new_tile self n = Ok t0 ->
  run_tile self ticks t0 = Ok t ->
  (state t <= 1)%Z ->
  get_y (rect t) <= _kbtop self ->
  exists t',
    update_tile self tick t = Ok t' /\
    get_height (rect t') ==
      max0 (inject_Z (end_ n - start n) / _ticks_per_sec self
              * _tile_velocity self
            - (tick / _ticks_per_sec self
               - inject_Z (start n) / _ticks_per_sec self)
              * _tile_velocity self) /\
    get_y (rect t') = get_y (rect t).
Proof.
  intros Ht Hr Hs Hy. apply new_tile_inv in Ht. destruct Ht as [Hz ->].
  pose proof (run_tile_inv self Hz ticks _ _ _ (tile_inv_init self n) Hr)
    as (Hsy & Hw & _).
  eexists. split; [apply update_tile_ok; exact Hz|].
  destruct (step_state_geometry self (moved self tick t)) as [-> ->].
  unfold moved. apply Z.leb_le in Hs. rewrite Hs.
  destruct (Qle_bool_spec (get_y (rect t)) (_kbtop self)) as [Hle|Hle];
    [|lra].
  simpl. split; [|reflexivity].
  apply max0_compat. rewrite Hsy, Hw. simpl.
  unfold Zminus. rewrite inject_Z_plus, inject_Z_opp. field. exact Hz.
Qed.

(** C3 on the sample scenario.  The leading edge passes [kb_top = 100]
    between frames 1 and 2; the anchor is left at 96.5, where frame 2 put
    it, and the update of frame 3 shrinks the height to 244.5 measured from
    [kb_top] without bringing the edge back to the boundary. *)
Theorem edge_held_below_keyboard :
  exists t t',
    run_tile demo_key (frame_ticks 32 3) (tile_of demo_key demo_note) = Ok t /\
    get_y (rect t) <= _kbtop demo_key /\
    update_tile demo_key 96 t = Ok t' /\
    get_height (rect t') == 244.5 /\
    get_y (rect t') == 96.5 /\
    ~ get_y (rect t') == _kbtop demo_key.
Proof.
  eexists. eexists. split; [vm_compute; reflexivity|].
  split; [vm_compute; discriminate|].
  split; [vm_compute; reflexivity|].
  split; [vm_compute; reflexivity|].
  split; [vm_compute; reflexivity|].
  vm_compute. discriminate.
Qed.

(** ** Replay against direct computation *)

Lemma frame_ticks_S (tpf : Q) (k : nat) :
  frame_ticks tpf (S k) = frame_ticks tpf k ++ [inject_Z (Z.of_nat k) * tpf].
Proof.
  unfold frame_ticks, py_range. rewrite !Nat2Z.id.
  rewrite seq_S, !map_app. reflexivity.
Qed.

Lemma replay_0 (self : KB_key) (tpf : Q) (t : Tile) :
  replay self tpf 0 t = direct self tpf 0 t.
Proof.
  unfold replay, direct, run_tile. simpl.
  now destruct (update_tile self (inject_Z 0 * tpf) t).
Qed.

Lemma replay_S (self : KB_key) (tpf : Q) (k : nat) (t t1 : Tile) :
  replay self tpf k t = Ok t1 ->
  replay self tpf (S k) t
  = update_tile self (inject_Z (Z.of_nat (S k)) * tpf) t1.
Proof.
  intro H. unfold replay in *. rewrite (frame_ticks_S tpf (S k)).
  now apply run_tile_app.
Qed.

Lemma drop_monotone (v tps t1 t2 : Q) :
  0 <= v -> 0 < tps -> t1 <= t2 -> v * t1 / tps <= v * t2 / tps.
Proof.
  intros Hv Htps Ht. unfold Qdiv.
  pose proof (Qinv_lt_0_compat _ Htps) as Hi.
  set (i := / tps) in *.
  assert (H1 : 0 <= v * i) by (apply Qmult_le_0_compat; lra).
  assert (H2 : t1 * (v * i) <= t2 * (v * i))
    by (apply Qmult_le_compat_r; assumption).
  lra.
Qed.

Section ReplayDirect.
Variable self : KB_key.
Variable n : Note.
Hypothesis note_ok : (0 <= start n < end_ n)%Z.
Hypothesis velocity_nonneg : 0 <= _tile_velocity self.
Hypothesis tps_pos : 0 < _ticks_per_sec self.

Lemma tps_nonzero_of_pos : ~ _ticks_per_sec self == 0.
Proof.
  intro H. rewrite H in tps_pos. now apply Qlt_irrefl in tps_pos.
Qed.

(** An update of the tile that a direct update at [tick1] produced gives
    what the direct update at a later [tick2] gives, while the leading edge
    at [tick1] is still above the keyboard. *)
Lemma update_after_direct (tick1 tick2 : Q) :
  tick1 <= tick2 ->
  _kbtop self < edge_at self n tick1 ->
  _kbtop self < start_y_pos (tile_of self n) ->
  update_tile self tick2
    (step_state self (moved self tick1 (tile_of self n)))
  = update_tile self tick2 (tile_of self n).
Proof.
  intros Ht He Hs.
  pose proof (initial_w_pos self n note_ok Hs) as Hw.
  pose proof (drop_monotone _ _ _ _ velocity_nonneg tps_pos Ht) as Hm.
  rewrite !update_tile_ok by apply tps_nonzero_of_pos. f_equal.
  unfold edge_at in He.
  cbn [tile_of start_y_pos initial_w] in Hs, Hw, He.
  unfold step_state, moved.
  cbn [tile_of state rect start_y_pos initial_w get_y get_height
       with_rect with_state set_y set_height add_patch remove
       Z.leb Z.eqb Z.compare Pos.compare Pos.compare_cont].
  repeat (case_Qle;
          cbn [tile_of state rect start_y_pos initial_w get_y get_height
               with_rect with_state set_y set_height add_patch remove
               Z.leb Z.eqb Z.compare Pos.compare Pos.compare_cont]);
    try reflexivity; exfalso; lra.
Qed.

End ReplayDirect.

Lemma frame_tick_le (tpf : Q) (k : nat) :
  0 <= tpf ->
  inject_Z (Z.of_nat k) * tpf <= inject_Z (Z.of_nat (S k)) * tpf.
Proof.
  intro H. apply Qmult_le_compat_r; [|exact H].
  rewrite <- Zle_Qle. lia.
Qed.

(** While the leading edge is above [kb_top] only the falling branch of
    [update] runs: replay and direct computation agree on the whole tile
    at every frame [N] such that the falling branch has the edge above
    [kb_top] at all frames before [N]. *)
Lemma replay_agrees_while_falling (self : KB_key) (n : Note) (tpf : Q)
    (N : nat) (t0 : Tile) :
  (0 <= start n < end_ n)%Z ->
  0 <= _tile_velocity self ->
  0 < _ticks_per_sec self ->
  0 <= tpf ->
  new_tile self n = Ok t0 ->
  (forall j, (j < N)%nat ->
     _kbtop self < edge_at self n (inject_Z (Z.of_nat j) * tpf)) ->
  exists t, replay self tpf N t0 = Ok t /\ direct self tpf N t0 = Ok t.
Proof.
  intros Hn Hv Htps Htpf Ht Hall.
  pose proof (tps_nonzero_of_pos self Htps) as Hz.
  apply new_tile_inv in Ht. destruct Ht as [_ ->].
  induction N as [|k IH].
  - rewrite replay_0. unfold direct. rewrite update_tile_ok by exact Hz.
    eexists. split; reflexivity.
  - destruct IH as [t [Hr Hd]]; [intros j Hj; apply Hall; lia|].
    rewrite (replay_S self tpf k _ t Hr).
    unfold direct in *. rewrite update_tile_ok in Hd by exact Hz.
    inversion Hd; subst t.
    rewrite (update_after_direct self n Hn Hv Htps).
    + rewrite update_tile_ok by exact Hz. eexists. split; reflexivity.
    + now apply frame_tick_le.
    + apply Hall. lia.
    + assert (H0 : _kbtop self < edge_at self n (inject_Z (Z.of_nat 0) * tpf))
        by (apply Hall; lia).
      unfold edge_at in H0. simpl in *.
      change (inject_Z 0) with 0 in H0. unfold Qdiv in *. lra.
Qed.

(** C1, as the claim states it, fails.  On the sample scenario the replay
    to frame 34 (tick 1088) ends with the tile done, held at 96.5 with
    height 0, while a single update at tick 1088 from the initial tile
    gives a present tile at -159.5 with height 256. *)
Lemma replay_differs_from_direct :
  exists t1 t2,
    replay demo_key 32 34 (tile_of demo_key demo_note) = Ok t1 /\
    direct demo_key 32 34 (tile_of demo_key demo_note) = Ok t2 /\
    (state t1 = 2%Z /\ get_y (rect t1) == 96.5 /\ get_height (rect t1) == 0) /\
    (state t2 = 1%Z /\ get_y (rect t2) == -159.5 /\
     get_height (rect t2) == 256) /\
    observed t1 <> observed t2.
Proof.
  eexists. eexists.
  split; [vm_compute; reflexivity|].
  split; [vm_compute; reflexivity|].
  split; [repeat split; vm_compute; reflexivity|].
  split; [repeat split; vm_compute; reflexivity|].
  vm_compute. discriminate.
Qed.

(** ** Loops that may raise *)

Lemma bind_ok {A B : Type} (c : result A) (k : A -> result B) (b : B) :
  bind c k = Ok b -> exists a, c = Ok a /\ k a = Ok b.
Proof.
  destruct c as [a|e]; simpl; intro H; [eauto | discriminate].
Qed.

Lemma mapM_ok_map {A B : Type} (f : A -> result B) (g : A -> B) (l : list A) :
  (forall a, In a l -> f a = Ok (g a)) -> mapM f l = Ok (map g l).
Proof.
  induction l as [|a l IH]; intro H; [reflexivity|]. simpl.
  rewrite H by (now left). simpl. rewrite IH; [reflexivity|].
  intros b Hb. apply H. now right.
Qed.

Lemma mapM_Forall2 {A B : Type} (f : A -> result B) (l : list A)
    (l' : list B) :
  mapM f l = Ok l' -> Forall2 (fun a b => f a = Ok b) l l'.
Proof.
  revert l'. induction l as [|a l IH]; intros l' H; simpl in H.
  - inversion H. constructor.
  - apply bind_ok in H. destruct H as [b [Hb H]].
    apply bind_ok in H. destruct H as [bs [Hbs H]].
    inversion H; subst. constructor; auto.
Qed.

Lemma Forall2_Forall_r {A B : Type} (R : A -> B -> Prop) (P : A -> Prop)
    (Q : B -> Prop) (l : list A) (l' : list B) :
  (forall a b, P a -> R a b -> Q b) ->
  Forall2 R l l' -> Forall P l -> Forall Q l'.
Proof.
  intros H HR. induction HR as [|a b l l' Hab HR IH]; intro HP;
    constructor; inversion HP; subst; eauto.
Qed.

Lemma getitem_raise {A : Type} (l : list A) (i : Z) (e : exn) :
  getitem l i = Raise e -> e = IndexError.
Proof.
  unfold getitem, py_index.
  destruct ((0 <=? i) && (i <? Z.of_nat (length l)))%Z;
    [|destruct ((- Z.of_nat (length l) <=? i) && (i <? 0))%Z]; simpl;
    try (destruct (nth_error l _)); intro H; congruence.
Qed.

(** ** Empty input *)

(** C4, as the code has it.  Loading a file that holds no note raises
    [IndexError], out of an index into an empty list; no test on the note
    list precedes the computation of the total duration. *)
Theorem load_empty_raises_IndexError (self : PianoTileCreator)
    (midi : MidiFile) :
  flat_map notes (instruments midi) = [] ->
  loadMidiFile self midi = Raise IndexError.
Proof.
  intro H. unfold loadMidiFile. rewrite H. simpl.
  destruct (getitem (tempo_changes midi) 0) as [tc|e] eqn:E; simpl.
  - reflexivity.
  - apply getitem_raise in E. now subst.
Qed.

Lemma load_empty_raises_IndexError_witness :
  loadMidiFile demo_creator empty_midi = Raise IndexError.
Proof.
  apply (load_empty_raises_IndexError demo_creator empty_midi).
  reflexivity.
Defined.

(** C4, as the claim states it, fails.  For a file with a tempo entry and
    no note the tempo lookup succeeds, [all_notes[-1]] raises [IndexError]
    inside the computation of the total duration, and that exception, not an
    explicit rejection, is what [loadMidiFile] ends with. *)
Lemma empty_input_not_rejected_explicitly :
  exists tc,
    getitem (tempo_changes empty_midi) 0 = Ok tc /\
    getitem (sorted note_leb (flat_map notes (instruments empty_midi))) (-1)
    = Raise IndexError /\
    loadMidiFile demo_creator empty_midi = Raise IndexError /\
    explicit_rejection IndexError = false.
Proof.
  eexists. repeat split; reflexivity.
Qed.

(** ** The stable sort *)

Lemma insert_map {A B : Type} (leb : B -> B -> bool) (f : A -> B) (a : A)
    (l : list A) :
  insert leb (f a) (map f l)
  = map f (insert (fun x y => leb (f x) (f y)) a l).
Proof.
  induction l as [|b l IH]; [reflexivity|]. simpl.
  destruct (leb (f a) (f b)); simpl; [reflexivity|]. now rewrite IH.
Qed.

Lemma sorted_map {A B : Type} (leb : B -> B -> bool) (f : A -> B)
    (l : list A) :
  sorted leb (map f l) = map f (sorted (fun x y => leb (f x) (f y)) l).
Proof.
  induction l as [|a l IH]; [reflexivity|]. simpl.
  rewrite IH. apply insert_map.
Qed.

Lemma insert_ext {A : Type} (leb1 leb2 : A -> A -> bool) (a : A)
    (l : list A) :
  (forall x y, leb1 x y = leb2 x y) -> insert leb1 a l = insert leb2 a l.
Proof.
  intro H. induction l as [|b l IH]; [reflexivity|]. simpl.
  now rewrite H, IH.
Qed.

Lemma sorted_ext {A : Type} (leb1 leb2 : A -> A -> bool) (l : list A) :
  (forall x y, leb1 x y = leb2 x y) -> sorted leb1 l = sorted leb2 l.
Proof.
  intro H. induction l as [|a l IH]; [reflexivity|]. simpl.
  rewrite IH. now apply insert_ext.
Qed.

Lemma insert_In {A : Type} (leb : A -> A -> bool) (a x : A) (l : list A) :
  In x (insert leb a l) <-> x = a \/ In x l.
Proof.
  induction l as [|b l IH]; simpl; [intuition|].
  destruct (leb a b); simpl; [intuition|]. rewrite IH. intuition.
Qed.

Lemma sorted_In {A : Type} (leb : A -> A -> bool) (x : A) (l : list A) :
  In x (sorted leb l) <-> In x l.
Proof.
  induction l as [|a l IH]; simpl; [reflexivity|].
  rewrite insert_In, IH. intuition.
Qed.

Lemma insert_not_nil {A : Type} (leb : A -> A -> bool) (a : A) (l : list A) :
  insert leb a l <> [].
Proof.
  destruct l as [|b l]; simpl; [discriminate|].
  destruct (leb a b); discriminate.
Qed.

Lemma sorted_not_nil {A : Type} (leb : A -> A -> bool) (l : list A) :
  l <> [] -> sorted leb l <> [].
Proof.
  destruct l as [|a l]; [congruence|]. intros _. apply insert_not_nil.
Qed.

(** ** The keyboard layout *)

Lemma all_pairs_sorted {A : Type} (r : A -> A -> bool) (l : list A) :
  all_pairs r l = true -> StronglySorted (fun a b => r a b = true) l.
Proof.
  induction l as [|a l IH]; simpl; intro H; constructor;
    apply andb_prop in H; destruct H as [H1 H2].
  - now apply IH.
  - apply Forall_forall. now apply forallb_forall.
Qed.

Lemma StronglySorted_map_impl {A B : Type} (R : A -> A -> Prop)
    (S : B -> B -> Prop) (f : A -> B) (l : list A) :
  (forall a b, R a b -> S (f a) (f b)) ->
  StronglySorted R l -> StronglySorted S (map f l).
Proof.
  intros H HS. induction HS as [|a l HS IH Hall]; simpl; constructor; auto.
  apply Forall_forall. intros b Hb. apply in_map_iff in Hb.
  destruct Hb as [c [<- Hc]]. apply H.
  rewrite Forall_forall in Hall. now apply Hall.
Qed.

Lemma flat_map_map {A B C : Type} (g : A -> list B) (h : B -> C)
    (l : list A) :
  flat_map (fun x => map h (g x)) l = map h (flat_map g l).
Proof.
  induction l as [|a l IH]; [reflexivity|]. simpl.
  now rewrite IH, map_app.
Qed.

Lemma truthy_scaled (p wkw : Q) :
  ~ wkw == 0 -> truthy (p / 22.15 * wkw) = truthy p.
Proof.
  intro H. unfold truthy. f_equal.
  destruct (Qeq_bool_spec p 0) as [Hp|Hp].
  - apply Qeq_eq_bool. rewrite Hp. field.
  - destruct (Qeq_bool_spec (p / 22.15 * wkw) 0) as [Hs|Hs];
      [|reflexivity].
    exfalso. apply Hp.
    assert (E : p == p / 22.15 * wkw * (22.15 / wkw)) by (field; exact H).
    rewrite E, Hs. ring.
Qed.

Lemma black_keys_specs (self : PianoTileCreator) (wkw : Q) :
  ~ wkw == 0 ->
  black_keys self wkw = map (spec_rect self wkw) sharp_specs.
Proof.
  intro H. unfold black_keys, sharp_specs.
  rewrite <- flat_map_map. apply flat_map_ext. intro x.
  rewrite length_map.
  change (length black_key_pattern) with 7%nat.
  assert (Hlt : (x mod 7 < length black_key_pattern)%nat)
    by (apply Nat.mod_upper_bound; discriminate).
  rewrite (nth_indep _ 0 ((fun p => p / 22.15 * wkw) 0))
    by (now rewrite length_map).
  rewrite (map_nth (fun p => p / 22.15 * wkw) black_key_pattern 0).
  rewrite truthy_scaled by exact H.
  destruct (truthy (nth (x mod 7) black_key_pattern 0)); reflexivity.
Qed.

Lemma white_keys_specs (self : PianoTileCreator) (wkw : Q) :
  white_keys self wkw = map (spec_rect self wkw) natural_specs.
Proof.
  unfold white_keys, natural_specs. rewrite map_map. reflexivity.
Qed.

Lemma spec_rect_x (self : PianoTileCreator) (wkw : Q) (s : KeySpec) :
  get_x (spec_rect self wkw s) == spec_pos s * wkw.
Proof.
  destruct s as [x|x p]; simpl; [reflexivity | ring].
Qed.

Lemma key_leb_spec_leb (self : PianoTileCreator) (wkw : Q) (a b : KeySpec) :
  0 < wkw ->
  key_leb (spec_rect self wkw a) (spec_rect self wkw b) = spec_leb a b.
Proof.
  intro H. unfold key_leb, spec_leb.
  rewrite (Qleb_comp _ _ (spec_rect_x self wkw a) _ _ (spec_rect_x self wkw b)).
  destruct (Qle_bool_spec (spec_pos a) (spec_pos b)) as [Hab|Hab].
  - apply Qle_bool_iff. now apply Qmult_le_compat_r; [|apply Qlt_le_weak].
  - destruct (Qle_bool_spec (spec_pos a * wkw) (spec_pos b * wkw))
      as [Hs|Hs]; [|reflexivity].
    exfalso. apply Qmult_le_r in Hs; [lra | exact H].
Qed.

Lemma white_key_width_pos (self : PianoTileCreator) :
  0 < vid_width self -> 0 < vid_width self / 52.
Proof.
  intro H. unfold Qdiv. apply Qmult_lt_0_compat; [exact H | reflexivity].
Qed.

Lemma all_key_rects_specs (self : PianoTileCreator) :
  0 < vid_width self ->
  all_key_rects self = map (spec_rect self (vid_width self / 52)) sorted_specs.
Proof.
  intro H. pose proof (white_key_width_pos self H) as Hw.
  unfold all_key_rects, sorted_specs.
  rewrite white_keys_specs, black_keys_specs by lra.
  rewrite <- map_app, sorted_map. f_equal.
  apply sorted_ext. intros a b. now apply key_leb_spec_leb.
Qed.

Lemma combine_map_r {A B C : Type} (f : B -> C) (l1 : list A) (l2 : list B) :
  combine l1 (map f l2) = map (fun e => (fst e, f (snd e))) (combine l1 l2).
Proof.
  revert l2. induction l1 as [|a l1 IH]; intros [|b l2]; simpl;
    try reflexivity. now rewrite IH.
Qed.

Lemma enumerate_map {A B : Type} (f : A -> B) (l : list A) :
  enumerate (map f l) = map (fun e => (fst e, f (snd e))) (enumerate l).
Proof.
  unfold enumerate. rewrite length_map. apply combine_map_r.
Qed.

Lemma init_keys_specs (self : PianoTileCreator) (tps : Q) :
  0 < vid_width self ->
  init_keys self tps
  = Ok (map (key_of_spec self tps) (enumerate sorted_specs)).
Proof.
  intro H. unfold init_keys. rewrite all_key_rects_specs by exact H.
  rewrite enumerate_map.
  rewrite (mapM_ok_map _
             (fun ik : Z * Rectangle =>
                {| _midi_num := 21 + fst ik; _rect := snd ik;
                   _notes := []; _current_tick := 0;
                   _isSharp := Qlt_bool (get_width (snd ik))
                                 (vid_width self / 52);
                   _tiles := [];
                   _kbtop := kb_top self; _key_color := key_color self;
                   _showKeyVelocity := showKeyVelocity self;
                   _tile_velocity := tile_velocity self;
                   _ticks_per_sec := tps;
                   _video_height := vid_height self |})).
  - rewrite map_map. reflexivity.
  - intros [i k] _. reflexivity.
Qed.

Lemma spec_rect_width (self : PianoTileCreator) (wkw : Q) (s : KeySpec) :
  get_width (spec_rect self wkw s) == spec_width s * wkw.
Proof.
  destruct s as [x|x p]; simpl; field.
Qed.

Lemma key_of_spec_isSharp (self : PianoTileCreator) (tps : Q)
    (e : Z * KeySpec) :
  0 < vid_width self ->
  _isSharp (key_of_spec self tps e) = is_sharp (snd e).
Proof.
  intro H. pose proof (white_key_width_pos self H) as Hw.
  destruct e as [i [x|x p]]; simpl; unfold Qlt_bool.
  - destruct (Qle_bool_spec (vid_width self / 52) (vid_width self / 52));
      [reflexivity | lra].
  - destruct (Qle_bool_spec (vid_width self / 52)
                (vid_width self / 52 * 11 / 22.15)) as [Hle|Hle];
      [|reflexivity].
    exfalso. set (w := vid_width self / 52) in *.
    assert (E : w * 11 / 22.15 == w * (11 / 22.15)) by field.
    rewrite E in Hle.
    assert (Hc : (11 / 22.15 : Q) < 1) by reflexivity.
    nra.
Qed.

Lemma spec_before_key_before (self : PianoTileCreator) (tps : Q)
    (a b : Z * KeySpec) :
  0 < vid_width self ->
  spec_before a b = true ->
  key_before (key_of_spec self tps a) (key_of_spec self tps b).
Proof.
  intros H Hb. pose proof (white_key_width_pos self H) as Hw.
  unfold spec_before in Hb. apply andb_prop in Hb. destruct Hb as [Hlt Hov].
  unfold Qlt_bool in Hlt.
  destruct (Qle_bool_spec (spec_pos (snd b)) (spec_pos (snd a)))
    as [Hle|Hpos]; [discriminate|].
  unfold key_before. rewrite !key_of_spec_isSharp by exact H.
  set (w := vid_width self / 52) in *.
  assert (Hx : get_x (_rect (key_of_spec self tps a))
               < get_x (_rect (key_of_spec self tps b))).
  { simpl. fold w. rewrite !spec_rect_x. now apply Qmult_lt_compat_r. }
  split; [exact Hx|].
  intros Hk (_ & H2 & _). rewrite Hk, Bool.eqb_reflx in Hov. simpl in Hov.
  apply Qle_bool_iff in Hov. simpl in H2. fold w in H2.
  rewrite !spec_rect_x, spec_rect_width in H2.
  apply (Qmult_le_compat_r _ _ w) in Hov; [|lra].
  lra.
Qed.

(** C5, as the code has it.  For every positive video width the layout
    builder returns exactly 88 keys, numbered 21 to 108 from left to right;
    their x-positions are strictly increasing, no two natural keys overlap
    and no two sharp keys overlap.  [StronglySorted key_before] says both
    of every pair of keys, the earlier against the later. *)
Theorem keyboard_layout (self : PianoTileCreator) (tps : Q) :
  0 < vid_width self ->
  exists keys,
    init_keys self tps = Ok keys /\
    map _rect keys = all_key_rects self /\
    length keys = 88%nat /\
    map _midi_num keys = map Z.of_nat (seq 21 88) /\
    StronglySorted key_before keys.
Proof.
  intro H. eexists. split; [now apply init_keys_specs|].
  split; [|split; [|split]].
  - rewrite all_key_rects_specs by exact H. rewrite map_map.
    unfold enumerate.
    change (map (fun x => _rect (key_of_spec self tps x))
              (combine (py_range (Z.of_nat (length sorted_specs)))
                       sorted_specs))
      with (map (fun x => spec_rect self (vid_width self / 52) (snd x))
              (combine (py_range (Z.of_nat (length sorted_specs)))
                       sorted_specs)).
    rewrite <- (map_map snd). f_equal.
  - rewrite length_map. vm_compute. reflexivity.
  - rewrite map_map.
    change (map (fun x => _midi_num (key_of_spec self tps x))
              (enumerate sorted_specs))
      with (map (fun x : Z * KeySpec => (21 + fst x)%Z)
              (enumerate sorted_specs)).
    vm_compute. reflexivity.
  - apply (StronglySorted_map_impl (fun a b => spec_before a b = true)).
    + intros a b. now apply spec_before_key_before.
    + apply all_pairs_sorted. vm_compute. reflexivity.
Qed.

Lemma keyboard_layout_witness :
  exists keys,
    init_keys demo_creator 1024 = Ok keys /\
    map _rect keys = all_key_rects demo_creator /\
    length keys = 88%nat /\
    map _midi_num keys = map Z.of_nat (seq 21 88) /\
    StronglySorted key_before keys.
Proof.
  apply (keyboard_layout demo_creator 1024). reflexivity.
Defined.

(** C5, as the claim states it, fails twice.  In a 1040 pixel wide video
    the lowest sharp key (MIDI 22) overlaps the natural key left of it
    (MIDI 21): it is drawn over it.  And in a video of width 0 every scaled
    pattern entry is 0, no sharp key is built, and the keyboard has 52
    keys, all at x = 0. *)
Lemma sharp_key_overlaps_natural_key :
  (exists keys a b,
     init_keys demo_creator 1024 = Ok keys /\
     nth_error keys 0 = Some a /\ nth_error keys 1 = Some b /\
     _midi_num a = 21%Z /\ _midi_num b = 22%Z /\
     overlaps (_rect a) (_rect b)) /\
  (exists keys,
     init_keys zero_width_creator 1024 = Ok keys /\
     length keys = 52%nat /\
     Forall (fun k => get_x (_rect k) == 0) keys).
Proof.
  split.
  - eexists. eexists. eexists.
    split; [vm_compute; reflexivity|].
    split; [reflexivity|]. split; [reflexivity|].
    split; [reflexivity|]. split; [reflexivity|].
    repeat split; vm_compute; reflexivity.
  - eexists. split; [vm_compute; reflexivity|].
    split; [reflexivity|].
    repeat constructor.
Qed.

(** ** Keys *)

Lemma createTiles_ok (k : KB_key) :
  ~ _ticks_per_sec k == 0 -> createTiles k = Ok (tiles_created k).
Proof.
  intro H. unfold createTiles.
  rewrite (mapM_ok_map _ (tile_of k)); [reflexivity|].
  intros n _. now apply new_tile_ok.
Qed.

Lemma createTiles_no_notes (k : KB_key) :
  _notes k = [] -> createTiles k = Ok (tiles_created k).
Proof.
  intro H. unfold createTiles, tiles_created. now rewrite H.
Qed.

Lemma createTiles_inv (k k' : KB_key) :
  createTiles k = Ok k' -> k' = tiles_created k.
Proof.
  intro H. destruct (_notes k) as [|n ns] eqn:E.
  - rewrite createTiles_no_notes in H by exact E. now inversion H.
  - destruct (Qeq_bool_spec (_ticks_per_sec k) 0) as [Hz|Hz].
    + unfold createTiles in H. rewrite E in H. simpl in H.
      unfold new_tile, pydiv in H. rewrite (Qeq_eq_bool _ _ Hz) in H.
      discriminate.
    + rewrite createTiles_ok in H by exact Hz. now inversion H.
Qed.

Lemma update_ok (k : KB_key) (tick : Q) :
  ~ _ticks_per_sec k == 0 -> update k tick = Ok (updated k tick).
Proof.
  intro H. unfold update.
  rewrite (mapM_ok_map _ (fun t => step_state k (moved k tick t)));
    [reflexivity|].
  intros t _. now apply update_tile_ok.
Qed.

(** ** Indexing *)

Lemma py_index_ok {A : Type} (l : list A) (i : Z) :
  (0 <= i < Z.of_nat (length l))%Z -> py_index l i = Ok (Z.to_nat i).
Proof.
  intro H. unfold py_index.
  destruct (Z.leb_spec 0 i); [|lia].
  destruct (Z.ltb_spec i (Z.of_nat (length l))); [reflexivity | lia].
Qed.

Lemma getitem_last {A : Type} (l : list A) (a : A) :
  getitem l (-1) = Ok a -> exists front, l = front ++ [a].
Proof.
  unfold getitem, py_index. simpl.
  destruct (Z.leb_spec (- Z.of_nat (length l)) (-1)) as [Hn|Hn]; simpl;
    [|discriminate].
  destruct (nth_error l (Z.to_nat (Z.of_nat (length l) + -1))) as [b|] eqn:E;
    [|discriminate].
  intro H. inversion H; subst b.
  apply nth_error_split in E. destruct E as (l1 & l2 & -> & Hl).
  rewrite length_app in Hl. simpl in Hl.
  destruct l2 as [|c l2]; [now exists l1|]. simpl in Hl. lia.
Qed.

Lemma getitem_last_ok {A : Type} (l : list A) :
  l <> [] -> exists a, getitem l (-1) = Ok a.
Proof.
  intro H. destruct (exists_last H) as (front & a & ->).
  exists a. unfold getitem, py_index. rewrite length_app. simpl.
  destruct (Z.leb_spec (- Z.of_nat (length front + 1)) (-1)); [|lia].
  simpl.
  replace (Z.to_nat (Z.of_nat (length front + 1) + -1)) with (length front)
    by lia.
  rewrite nth_error_app2 by lia. now rewrite Nat.sub_diag.
Qed.

Lemma length_modify_at {A : Type} (k : nat) (f : A -> A) (l : list A) :
  length (modify_at k f l) = length l.
Proof.
  revert k. induction l as [|a l IH]; intros [|k]; simpl; auto.
Qed.

Lemma nth_error_modify_at {A : Type} (k i : nat) (f : A -> A) (l : list A) :
  nth_error (modify_at k f l) i
  = if (i =? k)%nat then option_map f (nth_error l i) else nth_error l i.
Proof.
  revert k i. induction l as [|a l IH]; intros [|k] [|i]; simpl; auto.
  now destruct (i =? k)%nat.
Qed.

Lemma modify_at_Forall {A : Type} (P : A -> Prop) (k : nat) (f : A -> A)
    (l : list A) :
  (forall a, P a -> P (f a)) -> Forall P l -> Forall P (modify_at k f l).
Proof.
  intros Hf H. revert k. induction H as [|a l Ha H IH]; intros [|k]; simpl;
    constructor; auto.
Qed.

(** ** Distribution of the notes *)

Lemma with_notes_same (k : KB_key) : with_notes k (_notes k) = k.
Proof. now destruct k. Qed.

Lemma routed_one (n : Note) (i : nat) :
  routed_notes [n] i
  = if (pitch n =? 21 + Z.of_nat i)%Z then [n] else [].
Proof. reflexivity. Qed.

Lemma routed_cons (n : Note) (ns : list Note) (i : nat) :
  routed_notes (n :: ns) i = routed_notes [n] i ++ routed_notes ns i.
Proof.
  unfold routed_notes. cbn [filter].
  now destruct (pitch n =? 21 + Z.of_nat i)%Z.
Qed.

Lemma assign_spec (keys : list KB_key) (n : Note) :
  length keys = 88%nat ->
  exists keys',
    assign keys n = Ok keys' /\ length keys' = 88%nat /\
    forall i k, nth_error keys i = Some k ->
      nth_error keys' i
      = Some (with_notes k (_notes k ++ routed_notes [n] i)).
Proof.
  intro Hl. unfold assign.
  assert (Hout : forall i k, nth_error keys i = Some k ->
            pitch n <> (21 + Z.of_nat i)%Z ->
            nth_error keys i
            = Some (with_notes k (_notes k ++ routed_notes [n] i))).
  { intros i k Hk Hp. rewrite routed_one.
    destruct (Z.eqb_spec (pitch n) (21 + Z.of_nat i)); [contradiction|].
    now rewrite app_nil_r, with_notes_same. }
  assert (Hlt : forall i k, nth_error keys i = Some k -> (i < 88)%nat).
  { intros i k Hk. rewrite <- Hl. apply nth_error_Some. congruence. }
  destruct (Z.leb_spec 21 (pitch n)) as [H1|H1];
    [destruct (Z.leb_spec (pitch n) 108) as [H2|H2]|]; cbn [andb].
  - rewrite py_index_ok by lia. cbn [bind]. eexists.
    split; [reflexivity|]. split; [now rewrite length_modify_at|].
    intros i k Hk. rewrite nth_error_modify_at.
    destruct (Nat.eqb_spec i (Z.to_nat (pitch n - 21))) as [Hi|Hi].
    + rewrite Hk. cbn [option_map]. rewrite routed_one.
      destruct (Z.eqb_spec (pitch n) (21 + Z.of_nat i)); [reflexivity|lia].
    + apply Hout; [exact Hk | lia].
  - exists keys. repeat split; auto. intros i k Hk.
    apply Hout; [exact Hk|]. specialize (Hlt i k Hk). lia.
  - exists keys. repeat split; auto. intros i k Hk.
    apply Hout; [exact Hk | lia].
Qed.

Lemma foldM_assign_spec (ns : list Note) (keys : list KB_key) :
  length keys = 88%nat ->
  exists keys',
    foldM assign ns keys = Ok keys' /\ length keys' = 88%nat /\
    forall i k, nth_error keys i = Some k ->
      nth_error keys' i = Some (with_notes k (_notes k ++ routed_notes ns i)).
Proof.
  revert keys. induction ns as [|n ns IH]; intros keys Hl.
  - exists keys. repeat split; auto. intros i k Hk.
    change (routed_notes [] i) with (@nil Note).
    now rewrite app_nil_r, with_notes_same.
  - destruct (assign_spec keys n Hl) as (keys1 & Ha & Hl1 & H1).
    destruct (IH keys1 Hl1) as (keys' & Hf & Hl' & H').
    exists keys'. cbn [foldM]. rewrite Ha. cbn [bind]. repeat split; auto.
    intros i k Hk. rewrite (H' i _ (H1 i k Hk)).
    rewrite (routed_cons n ns). destruct k. cbn.
    now rewrite <- app_assoc.
Qed.

Lemma assign_Forall (P : KB_key -> Prop) (keys keys' : list KB_key)
    (n : Note) :
  (forall k ns, P k -> P (with_notes k ns)) ->
  Forall P keys -> assign keys n = Ok keys' -> Forall P keys'.
Proof.
  intros HP H Ha. unfold assign in Ha.
  destruct ((21 <=? pitch n) && (pitch n <=? 108))%Z.
  - apply bind_ok in Ha. destruct Ha as (i & _ & Ha). inversion Ha.
    apply modify_at_Forall; auto.
  - now inversion Ha; subst.
Qed.

Lemma foldM_assign_Forall (P : KB_key -> Prop) (ns : list Note)
    (keys keys' : list KB_key) :
  (forall k ns, P k -> P (with_notes k ns)) ->
  Forall P keys -> foldM assign ns keys = Ok keys' -> Forall P keys'.
Proof.
  intro HP. revert keys. induction ns as [|n ns IH]; intros keys H Hf.
  - now inversion Hf; subst.
  - simpl in Hf. apply bind_ok in Hf. destruct Hf as (keys1 & Ha & Hf).
    eapply IH; [|exact Hf]. eapply assign_Forall; eauto.
Qed.

(** ** The loader *)

Lemma pydiv_ok_inv (a b : Q) (q : Q) : pydiv a b = Ok q -> ~ b == 0.
Proof.
  intro H. now apply pydiv_inv in H.
Qed.

Lemma loadMidiFile_inv (self : PianoTileCreator) (midi : MidiFile)
    (L : Loaded) :
  loadMidiFile self midi = Ok L ->
  exists tc ln keys0 keys1,
    getitem (tempo_changes midi) 0 = Ok tc /\
    getitem (sorted_notes midi) (-1) = Ok ln /\
    ~ ticks_per_sec_of midi tc == 0 /\
    ~ vid_fps self == 0 /\
    init_keys self (ticks_per_sec_of midi tc) = Ok keys0 /\
    foldM assign (sorted_notes midi) keys0 = Ok keys1 /\
    mapM createTiles keys1 = Ok (all_key_objs L) /\
    creator L = self /\
    all_notes L = sorted_notes midi /\
    ticks_per_sec L = ticks_per_sec_of midi tc /\
    total_duration L = inject_Z (end_ ln) / ticks_per_sec_of midi tc /\
    ticks_per_frame L = ticks_per_sec_of midi tc / vid_fps self.
Proof.
  intro H. unfold loadMidiFile in H.
  fold (sorted_notes midi) in H.
  apply bind_ok in H. destruct H as (tc & Htc & H).
  fold (ticks_per_sec_of midi tc) in H.
  apply bind_ok in H. destruct H as (ln & Hln & H).
  apply bind_ok in H. destruct H as (dur & Hdur & H).
  apply bind_ok in H. destruct H as (tpf & Htpf & H).
  apply bind_ok in H. destruct H as (keys0 & Hk0 & H).
  apply bind_ok in H. destruct H as (keys1 & Hk1 & H).
  apply bind_ok in H. destruct H as (keys2 & Hk2 & H).
  apply pydiv_inv in Hdur. destruct Hdur as [Hz ->].
  apply pydiv_inv in Htpf. destruct Htpf as [Hfps ->].
  inversion H; subst L. simpl.
  exists tc, ln, keys0, keys1. repeat split; auto.
Qed.

Lemma mapM_createTiles_ok (tps : Q) (keys : list KB_key) :
  ~ tps == 0 ->
  Forall (fun k => _ticks_per_sec k = tps) keys ->
  mapM createTiles keys = Ok (map tiles_created keys).
Proof.
  intros Hz H. apply mapM_ok_map. intros k Hk.
  rewrite Forall_forall in H. apply createTiles_ok. now rewrite (H k Hk).
Qed.

Lemma mapM_Forall_out {A B : Type} (f : A -> result B) (P : B -> Prop)
    (l : list A) (l' : list B) :
  (forall a b, f a = Ok b -> P b) -> mapM f l = Ok l' -> Forall P l'.
Proof.
  intros HP H. apply mapM_Forall2 in H.
  induction H as [|a b l l' Hab H IH]; constructor; eauto.
Qed.

Lemma init_keys_config (self : PianoTileCreator) (tps : Q)
    (keys : list KB_key) :
  init_keys self tps = Ok keys ->
  Forall (fun k => config_of k = creator_config self tps) keys.
Proof.
  intro H. unfold init_keys in H.
  apply (mapM_Forall_out _ _ _ _) with (2 := H).
  intros [i r] k Hk. unfold KB_key_init in Hk.
  rewrite createTiles_no_notes in Hk by reflexivity.
  now inversion Hk.
Qed.

Lemma key_of_spec_tps (self : PianoTileCreator) (tps : Q)
    (l : list (Z * KeySpec)) :
  Forall (fun k => _ticks_per_sec k = tps) (map (key_of_spec self tps) l).
Proof.
  induction l as [|e l IH]; constructor; [reflexivity | exact IH].
Qed.

(** When the width is positive, a tempo entry exists, the tick rate and the
    frame rate are not zero and there is a note, [loadMidiFile] succeeds, and
    its result is the following. *)
Lemma loadMidiFile_total (self : PianoTileCreator) (midi : MidiFile)
    (tc : TempoChange) :
  0 < vid_width self ->
  getitem (tempo_changes midi) 0 = Ok tc ->
  ~ ticks_per_sec_of midi tc == 0 ->
  ~ vid_fps self == 0 ->
  flat_map notes (instruments midi) <> [] ->
  exists L,
    loadMidiFile self midi = Ok L /\
    all_notes L = sorted_notes midi /\
    ticks_per_sec L = ticks_per_sec_of midi tc /\
    length (all_key_objs L) = 88%nat /\
    forall i e, nth_error (enumerate sorted_specs) i = Some e ->
      nth_error (all_key_objs L) i
      = Some (tiles_created
                (with_notes (key_of_spec self (ticks_per_sec_of midi tc) e)
                   (routed_notes (sorted_notes midi) i))).
Proof.
  intros Hw Htc Hz Hfps Hne.
  set (tps := ticks_per_sec_of midi tc) in *.
  destruct (getitem_last_ok (sorted_notes midi)) as [ln Hln];
    [now apply sorted_not_nil|].
  pose proof (init_keys_specs self tps Hw) as Hk0.
  set (keys0 := map (key_of_spec self tps) (enumerate sorted_specs)) in *.
  assert (Hl0 : length keys0 = 88%nat)
    by (unfold keys0; rewrite length_map; vm_compute; reflexivity).
  destruct (foldM_assign_spec (sorted_notes midi) keys0 Hl0)
    as (keys1 & Hk1 & Hl1 & Hn1).
  assert (Hc1 : Forall (fun k => _ticks_per_sec k = tps) keys1).
  { apply (foldM_assign_Forall _ (sorted_notes midi) keys0);
      [auto| |exact Hk1].
    unfold keys0. apply key_of_spec_tps. }
  eexists. split.
  - unfold loadMidiFile. fold (sorted_notes midi). rewrite Htc. cbn [bind].
    fold (ticks_per_sec_of midi tc). fold tps. rewrite Hln. cbn [bind].
    rewrite !pydiv_ok by assumption. cbn [bind].
    rewrite Hk0. cbn [bind]. rewrite Hk1. cbn [bind].
    rewrite (mapM_createTiles_ok tps) by assumption. cbn [bind].
    reflexivity.
  - cbn [all_notes ticks_per_sec all_key_objs].
    split; [reflexivity|]. split; [reflexivity|].
    split; [now rewrite length_map|].
    intros i e He. rewrite nth_error_map.
    rewrite (Hn1 i (key_of_spec self tps e)).
    + reflexivity.
    + unfold keys0. now rewrite nth_error_map, He.
Qed.

(** C9. Every note is appended to the note list of the key at index
    [pitch - 21] when its pitch is in [21, 108], and to no list otherwise,
    and nothing is raised: the load succeeds, the key at index [i] holds
    exactly the notes of pitch [21 + i], in the order of [all_notes], and a
    note of the file is in the list of key [i] if and only if
    [i = pitch - 21]. *)
Theorem pitch_routing (self : PianoTileCreator) (midi : MidiFile)
    (tc : TempoChange) :
  0 < vid_width self ->
  getitem (tempo_changes midi) 0 = Ok tc ->
  ~ ticks_per_sec_of midi tc == 0 ->
  ~ vid_fps self == 0 ->
  flat_map notes (instruments midi) <> [] ->
  exists L,
    loadMidiFile self midi = Ok L /\
    length (all_key_objs L) = 88%nat /\
    (forall i k, nth_error (all_key_objs L) i = Some k ->
       _notes k = routed_notes (all_notes L) i) /\
    (forall n, In n (flat_map notes (instruments midi)) ->
       forall i k, nth_error (all_key_objs L) i = Some k ->
         (In n (_notes k) <-> Z.of_nat i = (pitch n - 21)%Z)).
Proof.
  intros Hw Htc Hz Hfps Hne.
  destruct (loadMidiFile_total self midi tc Hw Htc Hz Hfps Hne)
    as (L & HL & Hn & _ & Hlen & Hkeys).
  exists L. split; [exact HL|]. split; [exact Hlen|].
  assert (Hr : forall i k, nth_error (all_key_objs L) i = Some k ->
            _notes k = routed_notes (all_notes L) i).
  { intros i k Hk.
    assert (Hi : (i < length (enumerate sorted_specs))%nat).
    { replace (length (enumerate sorted_specs)) with 88%nat
        by (vm_compute; reflexivity).
      rewrite <- Hlen. apply nth_error_Some. congruence. }
    apply nth_error_Some in Hi.
    destruct (nth_error (enumerate sorted_specs) i) as [e|] eqn:He;
      [|congruence].
    rewrite (Hkeys i e He) in Hk. inversion Hk. rewrite Hn. reflexivity. }
  split; [exact Hr|].
  intros n Hin i k Hk. rewrite (Hr i k Hk). unfold routed_notes.
  rewrite filter_In, Hn. unfold sorted_notes. rewrite sorted_In.
  rewrite Z.eqb_eq. intuition lia.
Qed.

Lemma pitch_routing_witness :
  exists L,
    loadMidiFile demo_creator demo_midi = Ok L /\
    length (all_key_objs L) = 88%nat /\
    (forall i k, nth_error (all_key_objs L) i = Some k ->
       _notes k = routed_notes (all_notes L) i) /\
    (forall n, In n (flat_map notes (instruments demo_midi)) ->
       forall i k, nth_error (all_key_objs L) i = Some k ->
         (In n (_notes k) <-> Z.of_nat i = (pitch n - 21)%Z)).
Proof.
  apply (pitch_routing demo_creator demo_midi {| tempo := 120; time := 0 |}).
  - reflexivity.
  - reflexivity.
  - vm_compute. discriminate.
  - vm_compute. discriminate.
  - discriminate.
Defined.

(** ** The frame loop *)

Lemma config_tps (k : KB_key) (self : PianoTileCreator) (tps : Q) :
  config_of k = creator_config self tps -> _ticks_per_sec k = tps.
Proof.
  intro H. unfold config_of, creator_config in H. now inversion H.
Qed.

Lemma loaded_keys_config (self : PianoTileCreator) (midi : MidiFile)
    (L : Loaded) :
  loadMidiFile self midi = Ok L ->
  Forall (fun k => config_of k = creator_config self (ticks_per_sec L))
         (all_key_objs L).
Proof.
  intro H. apply loadMidiFile_inv in H.
  destruct H as (tc & ln & keys0 & keys1 & _ & _ & _ & _ & H0 & H1 & H2
                 & _ & _ & -> & _).
  apply init_keys_config in H0.
  apply (foldM_assign_Forall
           (fun k => config_of k = creator_config self
                                     (ticks_per_sec_of midi tc))
           _ _ _ (fun k ns Hk => Hk) H0) in H1.
  apply mapM_Forall2 in H2.
  apply (Forall2_Forall_r _ _ _ _ _) with (2 := H2) (3 := H1).
  intros k k' Hk Hc. apply createTiles_inv in Hc. now subst k'.
Qed.

Lemma render_loop_total (self : PianoTileCreator) (tps tpf : Q)
    (frames : list Z) (keys : list KB_key) :
  ~ tps == 0 ->
  Forall (fun k => config_of k = creator_config self tps) keys ->
  exists fs,
    render_loop tpf frames keys = Ok fs /\
    map frame_tick fs = map (fun i => inject_Z i * tpf) frames.
Proof.
  intro Hz. revert keys. induction frames as [|i frames IH]; intros keys H.
  - exists []. split; reflexivity.
  - cbn [render_loop].
    rewrite (mapM_ok_map _ (fun k => updated k (inject_Z i * tpf))).
    + cbn [bind].
      destruct (IH (map (fun k => updated k (inject_Z i * tpf)) keys))
        as (fs & Hfs & Ht).
      { apply Forall_forall. intros k Hk. apply in_map_iff in Hk.
        destruct Hk as (k0 & <- & Hk0). rewrite Forall_forall in H.
        exact (H k0 Hk0). }
      rewrite Hfs. cbn [bind]. eexists. split; [reflexivity|].
      cbn [map frame_tick]. now rewrite Ht.
    + intros k Hk. rewrite Forall_forall in H. apply update_ok.
      now rewrite (config_tps k self tps (H k Hk)).
Qed.

Lemma py_int_floor (q : Q) : 0 <= q -> py_int q = Qfloor q.
Proof.
  intro H. destruct q as [n d]. unfold py_int, Qfloor. simpl.
  unfold Qle in H. simpl in H.
  apply Z.quot_div_nonneg; lia.
Qed.

Lemma getitem_0 {A : Type} (l : list A) (a : A) :
  getitem l 0 = Ok a -> nth_error l 0 = Some a.
Proof.
  unfold getitem, py_index. cbn [Z.leb Z.compare andb].
  destruct (0 <? Z.of_nat (length l))%Z.
  - cbn [bind Z.to_nat]. destruct (nth_error l 0); intro H; now inversion H.
  - destruct (- Z.of_nat (length l) <=? 0)%Z; discriminate.
Qed.




(** On the 480/120/30 scenario with a last note ending at tick 960 the
    binary64 evaluation gives the 32 frames of the rationals. *)
Lemma frame_count_scenario :
  Binary64.frames 480 120%float 960 30 = Some 32%Z /\
  (Qfloor (total_duration scenario_loaded * vid_fps scenario_creator) + 2)%Z
  = 32%Z.
Proof.
  split; vm_compute; reflexivity.
Qed.

(** ** Independence of the velocities *)

Lemma fmap_bind {A B C : Type} (f : B -> C) (c : result A)
    (k : A -> result B) :
  fmap f (bind c k) = bind c (fun a => fmap f (k a)).
Proof. now destruct c. Qed.

Lemma bind_fmap {A B C : Type} (f : A -> B) (c : result A)
    (k : B -> result C) :
  bind (fmap f c) k = bind c (fun a => k (f a)).
Proof. now destruct c. Qed.

Lemma bind_ext {A B : Type} (c : result A) (k1 k2 : A -> result B) :
  (forall a, c = Ok a -> k1 a = k2 a) -> bind c k1 = bind c k2.
Proof.
  intro H. destruct c as [a|e]; simpl; [now apply H | reflexivity].
Qed.

Lemma mapM_map_comm {A A' B B' : Type} (f : A' -> result B')
    (f' : A -> result B) (g : A -> A') (h : B -> B') (l : list A) :
  (forall a, In a l -> f (g a) = fmap h (f' a)) ->
  mapM f (map g l) = fmap (map h) (mapM f' l).
Proof.
  induction l as [|a l IH]; intro H; [reflexivity|]. cbn [map mapM].
  rewrite H by (now left). rewrite IH by (intros b Hb; apply H; now right).
  destruct (f' a) as [b|e]; [|reflexivity]. cbn [fmap bind].
  now destruct (mapM f' l).
Qed.

Lemma flat_map_strip (l : list Instrument) :
  flat_map notes
    (map (fun ins => {| notes := map strip (notes ins) |}) l)
  = map strip (flat_map notes l).
Proof.
  induction l as [|ins l IH]; [reflexivity|]. cbn [map flat_map notes].
  now rewrite IH, map_app.
Qed.

Lemma sorted_strip (l : list Note) :
  sorted note_leb (map strip l) = map strip (sorted note_leb l).
Proof.
  rewrite sorted_map. f_equal.
Qed.

Lemma getitem_map {A B : Type} (f : A -> B) (l : list A) (i : Z) :
  getitem (map f l) i = fmap f (getitem l i).
Proof.
  unfold getitem, py_index. rewrite length_map.
  destruct ((0 <=? i) && (i <? Z.of_nat (length l)))%Z;
    [|destruct ((- Z.of_nat (length l) <=? i) && (i <? 0))%Z];
    cbn [bind fmap]; try reflexivity;
    rewrite nth_error_map; now destruct (nth_error l _).
Qed.

Lemma py_index_map {A B : Type} (f : A -> B) (l : list A) (i : Z) :
  py_index (map f l) i = py_index l i.
Proof.
  unfold py_index. now rewrite length_map.
Qed.

Lemma map_modify_at {A : Type} (g f f' : A -> A) (k : nat) (l : list A) :
  (forall a, g (f a) = f' (g a)) ->
  map g (modify_at k f l) = modify_at k f' (map g l).
Proof.
  intro H. revert k. induction l as [|a l IH]; intros [|k]; cbn; auto.
  - now rewrite H.
  - now rewrite IH.
Qed.

Lemma assign_strip (keys : list KB_key) (n : Note) :
  assign (map strip_key keys) (strip n)
  = fmap (map strip_key) (assign keys n).
Proof.
  unfold assign. cbn [pitch strip].
  destruct ((21 <=? pitch n) && (pitch n <=? 108))%Z; [|reflexivity].
  rewrite py_index_map.
  destruct (py_index keys (pitch n - 21)) as [i|e]; [|reflexivity].
  cbn [bind fmap]. f_equal. symmetry. apply map_modify_at.
  intros [] . unfold strip_key. cbn. now rewrite map_app.
Qed.

Lemma foldM_assign_strip (ns : list Note) (keys : list KB_key) :
  foldM assign (map strip ns) (map strip_key keys)
  = fmap (map strip_key) (foldM assign ns keys).
Proof.
  revert keys. induction ns as [|n ns IH]; intro keys; [reflexivity|].
  cbn [map foldM]. rewrite assign_strip.
  destruct (assign keys n) as [keys1|e]; [|reflexivity].
  cbn [fmap bind]. apply IH.
Qed.

Lemma new_tile_strip (k : KB_key) (n : Note) :
  _showKeyVelocity k = false ->
  new_tile (strip_key k) (strip n) = new_tile k n.
Proof.
  intro H. unfold new_tile. cbn. now rewrite H.
Qed.

Lemma fmap_map_id {A : Type} (c : result (list A)) :
  fmap (map (fun t => t)) c = c.
Proof.
  destruct c as [l|e]; cbn; [now rewrite map_id | reflexivity].
Qed.

Lemma createTiles_strip (k : KB_key) :
  _showKeyVelocity k = false ->
  createTiles (strip_key k) = fmap strip_key (createTiles k).
Proof.
  intro H. unfold createTiles.
  change (_notes (strip_key k)) with (map strip (_notes k)).
  rewrite (mapM_map_comm _ (new_tile k) strip (fun t => t)).
  - rewrite fmap_map_id.
    destruct (mapM (new_tile k) (_notes k)) as [ts|e]; reflexivity.
  - intros n _. rewrite new_tile_strip by exact H.
    now destruct (new_tile k n).
Qed.

Lemma filter_map_comm {A B : Type} (f : A -> B) (p : B -> bool)
    (l : list A) :
  filter p (map f l) = map f (filter (fun a => p (f a)) l).
Proof.
  induction l as [|a l IH]; [reflexivity|]. cbn [map filter].
  destruct (p (f a)); cbn [map]; now rewrite IH.
Qed.

Lemma update_display_strip (k : KB_key) (tick : Q) :
  _showKeyVelocity k = false ->
  update_display (strip_key k) tick = update_display k tick.
Proof.
  intro H. unfold update_display, current_note.
  change (_notes (strip_key k)) with (map strip (_notes k)).
  rewrite filter_map_comm. cbn [start end_ strip].
  change (_showKeyVelocity (strip_key k)) with (_showKeyVelocity k).
  rewrite H.
  destruct (filter _ (_notes k)); reflexivity.
Qed.

Lemma update_strip (k : KB_key) (tick : Q) :
  _showKeyVelocity k = false ->
  update (strip_key k) tick = fmap strip_key (update k tick).
Proof.
  intro H. unfold update. rewrite update_display_strip by exact H.
  change (_tiles (strip_key k)) with (_tiles k).
  change (update_tile (strip_key k) tick) with (update_tile k tick).
  destruct (mapM (update_tile k tick) (_tiles k)) as [ts|e]; reflexivity.
Qed.

Lemma update_inv (k k' : KB_key) (tick : Q) :
  update k tick = Ok k' ->
  exists ts,
    mapM (update_tile k tick) (_tiles k) = Ok ts /\
    k' = with_key_rect (with_tiles k ts) (update_display k tick).
Proof.
  intro H. unfold update in H. apply bind_ok in H.
  destruct H as (ts & Hts & H). exists ts. split; [exact Hts|].
  now inversion H.
Qed.

Lemma update_tile_alpha (k : KB_key) (tick : Q) (t t' : Tile) :
  update_tile k tick t = Ok t' -> alpha (rect t') = alpha (rect t).
Proof.
  intro H. unfold update_tile in H. apply bind_ok in H.
  destruct H as (t1 & Hm & H). inversion H; subst t'. clear H.
  assert (H1 : alpha (rect t1) = alpha (rect t)).
  { unfold move_tile in Hm.
    destruct (state t <=? 1)%Z; [|now inversion Hm].
    destruct (Qle_bool _ _);
      apply bind_ok in Hm; destruct Hm as (d & _ & Hm); now inversion Hm. }
  rewrite <- H1. unfold step_state.
  destruct (state t1 =? 1)%Z; [|destruct (state t1 =? 0)%Z];
    try destruct (Qle_bool _ _); reflexivity.
Qed.

(** What holds of every key while velocities are not shown. *)
Lemma quiet_update (k k' : KB_key) (tick : Q) :
  _showKeyVelocity k = false /\
  Forall (fun t => alpha (rect t) = Some 1) (_tiles k) ->
  update k tick = Ok k' ->
  _showKeyVelocity k' = false /\
  Forall (fun t => alpha (rect t) = Some 1) (_tiles k').
Proof.
  intros [Hs Ha] H. apply update_inv in H. destruct H as (ts & Hts & ->).
  split; [exact Hs|]. cbn. apply mapM_Forall2 in Hts.
  apply (Forall2_Forall_r _ _ _ _ _) with (2 := Hts) (3 := Ha).
  intros t t' Ht Hu. apply update_tile_alpha in Hu. congruence.
Qed.

Lemma mapM_update_Forall (P : KB_key -> Prop) (tick : Q)
    (keys keys' : list KB_key) :
  (forall k k', P k -> update k tick = Ok k' -> P k') ->
  Forall P keys ->
  mapM (fun k => update k tick) keys = Ok keys' -> Forall P keys'.
Proof.
  intros HP H Hm. apply mapM_Forall2 in Hm.
  apply (Forall2_Forall_r _ _ _ _ _) with (2 := Hm) (3 := H).
  intros k k' Hk Hu. now apply (HP k k').
Qed.

Lemma render_loop_Forall (P : KB_key -> Prop) (tpf : Q) (frames : list Z)
    (keys : list KB_key) (fs : list Frame) :
  (forall k tick k', P k -> update k tick = Ok k' -> P k') ->
  Forall P keys ->
  render_loop tpf frames keys = Ok fs ->
  Forall (fun f => Forall P (frame_keys f)) fs.
Proof.
  intro HP. revert keys fs.
  induction frames as [|i frames IH]; intros keys fs H Hr.
  - inversion Hr. constructor.
  - cbn [render_loop] in Hr. apply bind_ok in Hr.
    destruct Hr as (keys' & Hk & Hr). apply bind_ok in Hr.
    destruct Hr as (rest & Hrest & Hr). inversion Hr; subst fs.
    assert (H' : Forall P keys').
    { apply (mapM_update_Forall P (inject_Z i * tpf) keys keys'); auto.
      intros k k'. apply HP. }
    constructor; [exact H'|]. now apply (IH keys').
Qed.

Lemma render_loop_strip (tpf : Q) (frames : list Z) (keys : list KB_key) :
  Forall (fun k => _showKeyVelocity k = false) keys ->
  render_loop tpf frames (map strip_key keys)
  = fmap (map strip_frame) (render_loop tpf frames keys).
Proof.
  revert keys. induction frames as [|i frames IH]; intros keys H;
    [reflexivity|].
  cbn [render_loop].
  rewrite (mapM_map_comm _ (fun k => update k (inject_Z i * tpf))
             strip_key strip_key).
  - destruct (mapM (fun k => update k (inject_Z i * tpf)) keys)
      as [keys'|e] eqn:E; [|reflexivity].
    cbn [fmap bind]. rewrite IH.
    + destruct (render_loop tpf frames keys'); reflexivity.
    + apply (mapM_update_Forall _ (inject_Z i * tpf) keys keys'); auto.
      intros k k' Hk Hu. apply update_inv in Hu.
      destruct Hu as (ts & _ & ->). exact Hk.
  - intros k Hk. rewrite Forall_forall in H. apply update_strip.
    now apply H.
Qed.

Lemma config_show (k : KB_key) (self : PianoTileCreator) (tps : Q) :
  config_of k = creator_config self tps ->
  _showKeyVelocity k = showKeyVelocity self.
Proof.
  intro H. unfold config_of, creator_config in H. now inversion H.
Qed.

Lemma init_keys_strip (self : PianoTileCreator) (tps : Q)
    (keys : list KB_key) :
  init_keys self tps = Ok keys -> map strip_key keys = keys.
Proof.
  intro H. unfold init_keys in H.
  assert (Hall : Forall (fun k => strip_key k = k) keys).
  { apply (mapM_Forall_out _ _ _ _) with (2 := H).
    intros [i r] k Hk. unfold KB_key_init in Hk.
    rewrite createTiles_no_notes in Hk by reflexivity.
    now inversion Hk. }
  clear H. induction Hall as [|k keys Hk Hall IH]; [reflexivity|].
  cbn [map]. now rewrite Hk, IH.
Qed.

Lemma loadMidiFile_strip (self : PianoTileCreator) (midi : MidiFile) :
  showKeyVelocity self = false ->
  loadMidiFile self (strip_midi midi)
  = fmap strip_loaded (loadMidiFile self midi).
Proof.
  intro Hs. unfold loadMidiFile.
  cbn [strip_midi instruments tempo_changes ticks_per_beat].
  rewrite flat_map_strip, sorted_strip.
  destruct (getitem (tempo_changes midi) 0) as [tc|e]; [|reflexivity].
  cbn [bind]. rewrite getitem_map.
  fold (sorted_notes midi). fold (ticks_per_sec_of midi tc).
  destruct (getitem (sorted_notes midi) (-1)) as [ln|e]; [|reflexivity].
  cbn [fmap bind]. change (end_ (strip ln)) with (end_ ln).
  destruct (pydiv (inject_Z (end_ ln)) (ticks_per_sec_of midi tc))
    as [dur|e]; [|reflexivity].
  cbn [bind].
  destruct (pydiv (ticks_per_sec_of midi tc) (vid_fps self)) as [tpf|e];
    [|reflexivity].
  cbn [bind].
  destruct (init_keys self (ticks_per_sec_of midi tc)) as [keys0|e] eqn:E0;
    [|reflexivity].
  cbn [bind]. rewrite <- (init_keys_strip _ _ _ E0) at 1.
  rewrite foldM_assign_strip.
  destruct (foldM assign (sorted_notes midi) keys0) as [keys1|e] eqn:E1;
    [|reflexivity].
  cbn [fmap bind].
  rewrite (mapM_map_comm _ createTiles strip_key strip_key).
  - destruct (mapM createTiles keys1); reflexivity.
  - intros k Hk. apply createTiles_strip.
    apply init_keys_config in E0.
    apply (foldM_assign_Forall
             (fun k => config_of k = creator_config self
                                       (ticks_per_sec_of midi tc))
             _ _ _ (fun k ns Hk => Hk) E0) in E1.
    rewrite Forall_forall in E1.
    now rewrite (config_show _ _ _ (E1 k Hk)).
Qed.

Lemma loaded_keys_quiet (self : PianoTileCreator) (midi : MidiFile)
    (L : Loaded) :
  showKeyVelocity self = false ->
  loadMidiFile self midi = Ok L ->
  Forall (fun k => _showKeyVelocity k = false /\
                   Forall (fun t => alpha (rect t) = Some 1) (_tiles k))
         (all_key_objs L).
Proof.
  intros Hs H. apply loadMidiFile_inv in H.
  destruct H as (tc & ln & keys0 & keys1 & _ & _ & _ & _ & H0 & H1 & H2 & _).
  apply init_keys_config in H0.
  apply (foldM_assign_Forall
           (fun k => config_of k = creator_config self
                                     (ticks_per_sec_of midi tc))
           _ _ _ (fun k ns Hk => Hk) H0) in H1.
  apply mapM_Forall2 in H2.
  apply (Forall2_Forall_r _ _ _ _ _) with (2 := H2) (3 := H1).
  intros k k' Hk Hc. apply createTiles_inv in Hc. subst k'.
  apply config_show in Hk. rewrite Hs in Hk.
  split; [exact Hk|]. cbn. apply Forall_forall. intros t Ht.
  apply in_map_iff in Ht. destruct Ht as (n & <- & _). cbn.
  now rewrite Hk.
Qed.

Lemma run_strip (self : PianoTileCreator) (midi : MidiFile) :
  showKeyVelocity self = false ->
  run self (strip_midi midi) = fmap (map strip_frame) (run self midi).
Proof.
  intro Hs. unfold run. rewrite loadMidiFile_strip by exact Hs.
  destruct (loadMidiFile self midi) as [L|e] eqn:E; [|reflexivity].
  cbn [fmap bind]. unfold render.
  cbn [strip_loaded ticks_per_frame total_duration creator all_key_objs].
  apply render_loop_strip.
  pose proof (loaded_keys_quiet self midi L Hs E) as H.
  apply Forall_forall. intros k Hk. rewrite Forall_forall in H.
  now apply H.
Qed.

Lemma view_strip (fs : list Frame) : view (map strip_frame fs) = view fs.
Proof.
  unfold view. rewrite map_map. apply map_ext. intro f.
  cbn [strip_frame frame_tick frame_keys]. now rewrite map_map.
Qed.

Lemma fmap_view_strip (c : result (list Frame)) :
  fmap view (fmap (map strip_frame) c) = fmap view c.
Proof.
  destruct c as [fs|e]; cbn; [now rewrite view_strip | reflexivity].
Qed.

(** C10. While velocities are not shown as opacity, two inputs that differ
    in the velocities of their notes only are rendered alike: the same
    exception, or the same frames with, for every key, the same key
    rectangle (colour and opacity included) and the same tiles; and every
    tile of every frame has opacity 1. *)
Theorem velocity_independence (self : PianoTileCreator)
    (m1 m2 : MidiFile) :
  showKeyVelocity self = false ->
  strip_midi m1 = strip_midi m2 ->
  fmap view (run self m1) = fmap view (run self m2) /\
  forall fs f k t,
    run self m1 = Ok fs -> In f fs -> In k (frame_keys f) ->
    In t (_tiles k) -> alpha (rect t) = Some 1.
Proof.
  intros Hs Hm. split.
  - rewrite <- (fmap_view_strip (run self m1)).
    rewrite <- (fmap_view_strip (run self m2)).
    rewrite <- !run_strip by exact Hs. now rewrite Hm.
  - intros fs f k t Hr Hf Hk Ht. unfold run in Hr.
    apply bind_ok in Hr. destruct Hr as (L & HL & Hr).
    pose proof (loaded_keys_quiet self m1 L Hs HL) as Hq.
    unfold render in Hr.
    apply (render_loop_Forall _ _ _ _ _
             (fun k tick k' => quiet_update k k' tick) Hq) in Hr.
    rewrite Forall_forall in Hr. specialize (Hr f Hf).
    rewrite Forall_forall in Hr. destruct (Hr k Hk) as [_ Ha].
    rewrite Forall_forall in Ha. now apply Ha.
Qed.

Lemma velocity_independence_witness :
  fmap view (run demo_creator demo_midi)
  = fmap view (run demo_creator loud_midi) /\
  forall fs f k t,
    run demo_creator demo_midi = Ok fs -> In f fs -> In k (frame_keys f) ->
    In t (_tiles k) -> alpha (rect t) = Some 1.
Proof.
  apply (velocity_independence demo_creator demo_midi loud_midi);
    reflexivity.
Defined.

(** ** Further examples *)

(** Of the three notes of [stray_midi] only middle C is kept, by the key at
    index 39; the notes of pitch 20 and 109 are in no key. *)
Example stray_notes_dropped :
  fmap (fun L => map (fun k => map pitch (_notes k)) (all_key_objs L))
       (loadMidiFile demo_creator stray_midi)
  = Ok (repeat [] 39 ++ [[60%Z]] ++ repeat [] 48).
Proof. vm_compute. reflexivity. Qed.

(** The constructor refuses a keyboard ratio outside [0, 1). *)
Lemma init_refuses_ratio (video_width video_height video_dpi video_fps
    KB_ratio tile_velocity : Q) (key_color : string)
    (showKeyVelocity : bool) :
  ~ video_dpi == 0 ->
  KB_ratio < 0 \/ 1 <= KB_ratio ->
  PianoTileCreator_init video_width video_height video_dpi video_fps
    KB_ratio tile_velocity key_color showKeyVelocity
  = Raise ValueError.
Proof.
  intros Hd Hr. unfold PianoTileCreator_init.
  rewrite !pydiv_ok by exact Hd. cbn [bind]. unfold Qlt_bool.
  destruct (Qle_bool_spec 0 KB_ratio) as [H0|H0];
    destruct (Qle_bool_spec 1 KB_ratio) as [H1|H1];
    try reflexivity.
  exfalso. destruct Hr; lra.
Qed.

(** With ratio 0 the keyboard boundary is at 0. *)
Example init_ratio_zero :
  fmap kb_top
    (PianoTileCreator_init 1040 400 100 32 0 256 "green" false)
  = Ok (0 * 400).
Proof. reflexivity. Qed.

(** * Further properties of the code *)

(** ** Phases *)

Lemma step_state_phase (self : KB_key) (t : Tile) :
  phase_ok t ->
  (state t <= state (step_state self t) <= state t + 1)%Z.
Proof.
  intros [[E _]|[[E _]|[E _]]]; unfold step_state; rewrite E;
    cbn [Z.eqb Pos.eqb]; try (destruct (Qle_bool _ _)); cbn; lia.
Qed.

Lemma moved_state (self : KB_key) (tick : Q) (t : Tile) :
  state (moved self tick t) = state t /\
  in_axes (rect (moved self tick t)) = in_axes (rect t).
Proof.
  unfold moved. destruct (state t <=? 1)%Z; [|auto].
  destruct (Qle_bool _ _); auto.
Qed.

Lemma moved_phase_ok (self : KB_key) (tick : Q) (t : Tile) :
  phase_ok t -> phase_ok (moved self tick t).
Proof.
  unfold phase_ok. destruct (moved_state self tick t) as [-> ->]. auto.
Qed.

Lemma run_tile_state_le (self : KB_key) (t0 : Tile) (ticks : list Q)
    (t t' : Tile) :
  ~ _ticks_per_sec self == 0 ->
  tile_inv self t0 t ->
  run_tile self ticks t = Ok t' -> (state t <= state t')%Z.
Proof.
  intro Hz. revert t. induction ticks as [|tick ticks IH]; intros t Hi Hr.
  - inversion Hr. lia.
  - unfold run_tile in Hr. cbn [foldM] in Hr.
    rewrite update_tile_ok in Hr by exact Hz. cbn [bind] in Hr.
    pose proof (tile_inv_step self t0 t tick Hi) as Hi'.
    specialize (IH _ Hi' Hr).
    destruct Hi as (_ & _ & Hp & _).
    pose proof (step_state_phase self _ (moved_phase_ok self tick t Hp)).
    destruct (moved_state self tick t) as [Hs _]. lia.
Qed.

(** X1. The phase of a tile only moves forward: one call of [update]
    leaves it or raises it by one (0 to 1, or 1 to 2, never 0 to 2), and
    after any further calls it is at least what it was and at most 2. *)
Theorem phase_moves_forward (self : KB_key) (n : Note) (t0 t : Tile)
    (ticks : list Q) :
  new_tile self n = Ok t0 ->
  run_tile self ticks t0 = Ok t ->
  (forall tick, exists t',
     update_tile self tick t = Ok t' /\
     (state t <= state t' <= state t + 1)%Z) /\
  (forall more, exists t',
     run_tile self more t = Ok t' /\
     (0 <= state t)%Z /\ (state t <= state t' <= 2)%Z).
Proof.
  intros Hn Hr. apply new_tile_inv in Hn. destruct Hn as [Hz ->].
  pose proof (run_tile_inv self Hz ticks _ _ _ (tile_inv_init self n) Hr)
    as Hi.
  split.
  - intro tick. eexists. split; [now apply update_tile_ok|].
    destruct Hi as (_ & _ & Hp & _).
    pose proof (step_state_phase self _ (moved_phase_ok self tick t Hp)).
    destruct (moved_state self tick t) as [Hs _]. lia.
  - intro more. destruct (run_tile_total self Hz more t) as [t' Hr'].
    exists t'. split; [exact Hr'|].
    pose proof (run_tile_state_le self _ more t t' Hz Hi Hr') as Hle.
    pose proof (run_tile_inv self Hz more _ _ _ Hi Hr') as (_ & _ & Hp' & _).
    destruct Hi as (_ & _ & Hp & _).
    destruct Hp as [[E _]|[[E _]|[E _]]];
      destruct Hp' as [[E' _]|[[E' _]|[E' _]]]; lia.
Qed.

Lemma phase_moves_forward_witness :
  (forall tick, exists t',
     update_tile demo_key tick
       (step_state demo_key (moved demo_key 32 (tile_of demo_key demo_note)))
     = Ok t' /\
     (state (step_state demo_key
               (moved demo_key 32 (tile_of demo_key demo_note)))
      <= state t'
      <= state (step_state demo_key
                  (moved demo_key 32 (tile_of demo_key demo_note))) + 1)%Z) /\
  (forall more, exists t',
     run_tile demo_key more
       (step_state demo_key (moved demo_key 32 (tile_of demo_key demo_note)))
     = Ok t' /\
     (0 <= state (step_state demo_key
                    (moved demo_key 32 (tile_of demo_key demo_note))))%Z /\
     (state (step_state demo_key
               (moved demo_key 32 (tile_of demo_key demo_note)))
      <= state t' <= 2)%Z).
Proof.
  apply (phase_moves_forward demo_key demo_note
           (tile_of demo_key demo_note) _ [32]); reflexivity.
Defined.

(** X4. While the leading edge of a tile is above [kb_top], the frame
    update at tick [tick] leaves its far (upper) edge, [y + height], at
    [kb_top + (end/ticks_per_sec) * tile_velocity
       - tile_velocity * (tick/ticks_per_sec)]:
    the far edge is the one derived from the end of the note, and the tile
    keeps its full length. *)
Theorem upper_edge_position (self : KB_key) (n : Note) (t0 t : Tile)
    (ticks : list Q) (tick : Q) :
  (0 <= start n < end_ n)%Z ->
  new_tile self n = Ok t0 ->
  run_tile self ticks t0 = Ok t ->
  _kbtop self < get_y (rect t) ->
  exists t',
    update_tile self tick t = Ok t' /\
    get_height (rect t') = initial_w t0 /\
    get_y (rect t') + get_height (rect t') ==
      _kbtop self
      + inject_Z (end_ n) / _ticks_per_sec self * _tile_velocity self
      - _tile_velocity self * (tick / _ticks_per_sec self).
Proof.
  intros Hn Ht Hr Hy. apply new_tile_inv in Ht. destruct Ht as [Hz ->].
  destruct (falling_not_done self n t ticks Hn Hz Hr Hy) as [Hs Hsy].
  pose proof (run_tile_inv self Hz ticks _ _ _ (tile_inv_init self n) Hr)
    as (_ & Hw & _ & _ & Hf).
  destruct (Hf Hy) as [_ Hh].
  eexists. split; [apply update_tile_ok; exact Hz|].
  destruct (step_state_geometry self (moved self tick t)) as [-> ->].
  unfold moved. apply Z.leb_le in Hs. rewrite Hs.
  destruct (Qle_bool_spec (get_y (rect t)) (_kbtop self)) as [Hle|Hle];
    [lra|].
  cbn [rect with_rect get_y get_height set_y].
  split; [congruence|].
  rewrite Hh, Hw, Hsy. cbn [tile_of start_y_pos initial_w]. field.
  exact Hz.
Qed.

Lemma upper_edge_position_witness :
  exists t',
    update_tile demo_key 64
      (step_state demo_key (moved demo_key 32 (tile_of demo_key demo_note)))
    = Ok t' /\
    get_height (rect t') = initial_w (tile_of demo_key demo_note) /\
    get_y (rect t') + get_height (rect t')
    == 100 + 1074 / 1024 * 256 - 256 * (64 / 1024).
Proof.
  apply (upper_edge_position demo_key demo_note
           (tile_of demo_key demo_note) _ [32]).
  - simpl. lia.
  - reflexivity.
  - reflexivity.
  - vm_compute. reflexivity.
Defined.

(** ** Opacity and alignment of the tiles *)

Lemma run_tile_alpha (self : KB_key) (ticks : list Q) (t t' : Tile) :
  run_tile self ticks t = Ok t' -> alpha (rect t') = alpha (rect t).
Proof.
  revert t. induction ticks as [|tick ticks IH]; intros t H.
  - now inversion H.
  - unfold run_tile in H. cbn [foldM] in H. apply bind_ok in H.
    destruct H as (t1 & H1 & H). apply update_tile_alpha in H1.
    rewrite <- H1. now apply IH.
Qed.

(** X5. When velocities are shown, a tile of a note with velocity in
    [0, 127] is created with opacity [velocity / 127], which lies in
    [0, 1], and no update changes it. *)
Theorem tile_opacity_from_velocity (self : KB_key) (n : Note) (t0 t : Tile)
    (ticks : list Q) :
  _showKeyVelocity self = true ->
  (0 <= velocity n <= 127)%Z ->
  new_tile self n = Ok t0 ->
  run_tile self ticks t0 = Ok t ->
  alpha (rect t) = Some (inject_Z (velocity n) / 127) /\
  0 <= inject_Z (velocity n) / 127 <= 1.
Proof.
  intros Hs [Hv0 Hv1] Ht Hr. apply new_tile_inv in Ht.
  destruct Ht as [_ ->]. split.
  - rewrite (run_tile_alpha self ticks _ _ Hr). cbn. now rewrite Hs.
  - rewrite Zle_Qle in Hv0, Hv1.
    change (inject_Z 0) with 0 in Hv0. change (inject_Z 127) with 127 in Hv1.
    set (x := inject_Z (velocity n)) in *.
    assert (E : x / 127 == x * (1 / 127)) by field. rewrite E.
    assert (Hc : (0 : Q) < 1 / 127) by reflexivity.
    assert (Hc1 : 127 * (1 / 127) == 1) by reflexivity.
    split; nra.
Qed.

Lemma tile_opacity_from_velocity_witness :
  alpha (rect (step_state loud_key
                 (moved loud_key 32 (tile_of loud_key demo_note))))
  = Some (inject_Z (velocity demo_note) / 127) /\
  0 <= inject_Z (velocity demo_note) / 127 <= 1.
Proof.
  apply (tile_opacity_from_velocity loud_key demo_note
           (tile_of loud_key demo_note) _ [32]).
  - reflexivity.
  - simpl. lia.
  - reflexivity.
  - reflexivity.
Defined.

Lemma update_tile_static (k : KB_key) (tick : Q) (t t' : Tile) :
  update_tile k tick t = Ok t' ->
  get_x (rect t') = get_x (rect t) /\
  get_width (rect t') = get_width (rect t) /\
  facecolor (rect t') = facecolor (rect t).
Proof.
  intro H. unfold update_tile in H. apply bind_ok in H.
  destruct H as (t1 & Hm & H). inversion H; subst t'. clear H.
  assert (H1 : get_x (rect t1) = get_x (rect t) /\
               get_width (rect t1) = get_width (rect t) /\
               facecolor (rect t1) = facecolor (rect t)).
  { unfold move_tile in Hm.
    destruct (state t <=? 1)%Z; [|inversion Hm; auto].
    destruct (Qle_bool _ _);
      apply bind_ok in Hm; destruct Hm as (d & _ & Hm); inversion Hm;
      auto. }
  destruct H1 as (<- & <- & <-). unfold step_state.
  destruct (state t1 =? 1)%Z; [|destruct (state t1 =? 0)%Z];
    try destruct (Qle_bool _ _); auto.
Qed.

Lemma update_display_static (k : KB_key) (tick : Q) :
  get_x (update_display k tick) = get_x (_rect k) /\
  get_y (update_display k tick) = get_y (_rect k) /\
  get_width (update_display k tick) = get_width (_rect k) /\
  get_height (update_display k tick) = get_height (_rect k) /\
  in_axes (update_display k tick) = in_axes (_rect k).
Proof.
  unfold update_display.
  destruct (current_note k tick); destruct (_showKeyVelocity k);
    try destruct (_isSharp k); cbn; auto.
Qed.

Lemma mapM_length {A B : Type} (f : A -> result B) (l : list A)
    (l' : list B) :
  mapM f l = Ok l' -> length l' = length l.
Proof.
  intro H. apply mapM_Forall2 in H.
  induction H; cbn; [reflexivity | now f_equal].
Qed.

Lemma update_keeps (k k' : KB_key) (tick : Q) :
  update k tick = Ok k' ->
  _notes k' = _notes k /\ _midi_num k' = _midi_num k /\
  _isSharp k' = _isSharp k /\ config_of k' = config_of k /\
  length (_tiles k') = length (_tiles k) /\
  (Forall (over_key k) (_tiles k) -> Forall (over_key k') (_tiles k')).
Proof.
  intro H. apply update_inv in H. destruct H as (ts & Hts & ->).
  repeat split; try reflexivity.
  - cbn. now apply mapM_length in Hts.
  - cbn [_tiles with_key_rect with_tiles]. intro Hall.
    apply mapM_Forall2 in Hts.
    apply (Forall2_Forall_r _ _ _ _ _) with (2 := Hts) (3 := Hall).
    intros t t' (Hx & Hw & Hc) Hu. apply update_tile_static in Hu.
    destruct Hu as (Hx' & Hw' & Hc').
    destruct (update_display_static k tick) as (Ex & _ & Ew & _).
    unfold over_key. cbn. rewrite Ex, Ew. repeat split; congruence.
Qed.

Lemma run_key_keeps (ticks : list Q) (k k' : KB_key) :
  run_key k ticks = Ok k' ->
  _notes k' = _notes k /\ _midi_num k' = _midi_num k /\
  _isSharp k' = _isSharp k /\ config_of k' = config_of k /\
  length (_tiles k') = length (_tiles k) /\
  (Forall (over_key k) (_tiles k) -> Forall (over_key k') (_tiles k')).
Proof.
  revert k. induction ticks as [|tick ticks IH]; intros k H.
  - inversion H; subst. repeat split; auto.
  - unfold run_key in H. cbn [foldM] in H. apply bind_ok in H.
    destruct H as (k1 & H1 & H). apply update_keeps in H1.
    apply IH in H.
    destruct H1 as (A1 & B1 & C1 & D1 & E1 & F1).
    destruct H as (A & B & C & D & E & F).
    repeat split; try congruence. auto.
Qed.

(** X6. Every tile stands over its key, from creation on: after
    [createTiles] and any sequence of updates, the key still has the notes
    it was given, one tile per note, and each tile has the x-position and
    the width of the key rectangle and the tile colour of the key. *)
Theorem tiles_stay_over_key (k k1 k' : KB_key) (ticks : list Q) :
  createTiles k = Ok k1 ->
  run_key k1 ticks = Ok k' ->
  _notes k' = _notes k /\
  length (_tiles k') = length (_notes k) /\
  Forall (over_key k') (_tiles k').
Proof.
  intros Hc Hr. apply createTiles_inv in Hc. subst k1.
  apply run_key_keeps in Hr.
  destruct Hr as (Hn & _ & _ & _ & Hl & Hall).
  split; [exact Hn|]. split.
  - rewrite Hl. cbn. apply length_map.
  - apply Hall. cbn. apply Forall_forall. intros t Ht.
    apply in_map_iff in Ht. destruct Ht as (n & <- & _).
    repeat split.
Qed.

Lemma tiles_stay_over_key_witness :
  exists k',
    run_key (tiles_created demo_key) [0; 32; 64] = Ok k' /\
    _notes k' = _notes demo_key /\
    length (_tiles k') = length (_notes demo_key) /\
    Forall (over_key k') (_tiles k').
Proof.
  eexists. split; [vm_compute; reflexivity|].
  apply (tiles_stay_over_key demo_key (tiles_created demo_key) _ [0; 32; 64]);
    vm_compute; reflexivity.
Defined.

(** ** The key display *)

Lemma current_note_nil (k : KB_key) (tick : Q) :
  current_note k tick = [] <->
  forall n, In n (_notes k) -> ~ sounding tick n.
Proof.
  unfold current_note, sounding, Qlt_bool. split.
  - intros H n Hn [H1 H2].
    assert (Hin : In n (filter
                    (fun n => Qle_bool (inject_Z (start n)) tick
                              && negb (Qle_bool (inject_Z (end_ n)) tick))
                    (_notes k))).
    { apply filter_In. split; [exact Hn|].
      destruct (Qle_bool_spec (inject_Z (start n)) tick); [|lra].
      destruct (Qle_bool_spec (inject_Z (end_ n)) tick); [lra|].
      reflexivity. }
    rewrite H in Hin. contradiction.
  - intro H.
    destruct (filter _ (_notes k)) as [|n l] eqn:E; [reflexivity|].
    exfalso.
    assert (Hin : In n (n :: l)) by now left.
    rewrite <- E in Hin. apply filter_In in Hin. destruct Hin as [Hn Hb].
    apply andb_prop in Hb. destruct Hb as [H1 H2].
    apply (H n Hn). split.
    + now apply Qle_bool_iff.
    + destruct (Qle_bool_spec (inject_Z (end_ n)) tick);
        [discriminate | assumption].
Qed.

(** X7. A key is lit exactly while one of its notes sounds: after
    [update] at [tick], the key has the tile colour when some note of the
    key has [start <= tick < end], and otherwise its idle colour, black for
    a sharp key and white for a natural one.  The update never moves,
    resizes or detaches the key rectangle, and it leaves its opacity alone
    when velocities are not shown. *)
Theorem key_lit_while_sounding (self k' : KB_key) (tick : Q) :
  update self tick = Ok k' ->
  ((exists n, In n (_notes self) /\ sounding tick n) ->
   facecolor (_rect k') = _key_color self) /\
  ((forall n, In n (_notes self) -> ~ sounding tick n) ->
   facecolor (_rect k')
   = if _isSharp self then "black"%string else "white"%string) /\
  (get_x (_rect k') = get_x (_rect self) /\
   get_y (_rect k') = get_y (_rect self) /\
   get_width (_rect k') = get_width (_rect self) /\
   get_height (_rect k') = get_height (_rect self) /\
   in_axes (_rect k') = in_axes (_rect self)) /\
  (_showKeyVelocity self = false -> alpha (_rect k') = alpha (_rect self)).
Proof.
  intro H. apply update_inv in H. destruct H as (ts & _ & ->).
  cbn [_rect with_key_rect].
  split; [|split; [|split]].
  - intros (n & Hn & Hs). unfold update_display.
    destruct (current_note self tick) as [|m l] eqn:E.
    + exfalso. apply (proj1 (current_note_nil self tick) E n Hn Hs).
    + destruct (_showKeyVelocity self); reflexivity.
  - intro Hnone. apply current_note_nil in Hnone. unfold update_display.
    rewrite Hnone.
    destruct (_showKeyVelocity self); destruct (_isSharp self); reflexivity.
  - apply update_display_static.
  - intro Hs. unfold update_display. rewrite Hs.
    destruct (current_note self tick); [destruct (_isSharp self)|];
      reflexivity.
Qed.

Lemma key_lit_while_sounding_witness :
  exists k',
    update (tiles_created demo_key) 50 = Ok k' /\
    ((exists n, In n (_notes (tiles_created demo_key)) /\ sounding 50 n) ->
     facecolor (_rect k') = _key_color (tiles_created demo_key)) /\
    ((forall n, In n (_notes (tiles_created demo_key)) -> ~ sounding 50 n) ->
     facecolor (_rect k')
     = if _isSharp (tiles_created demo_key)
       then "black"%string else "white"%string) /\
    (get_x (_rect k') = get_x (_rect (tiles_created demo_key)) /\
     get_y (_rect k') = get_y (_rect (tiles_created demo_key)) /\
     get_width (_rect k') = get_width (_rect (tiles_created demo_key)) /\
     get_height (_rect k') = get_height (_rect (tiles_created demo_key)) /\
     in_axes (_rect k') = in_axes (_rect (tiles_created demo_key))) /\
    (_showKeyVelocity (tiles_created demo_key) = false ->
     alpha (_rect k') = alpha (_rect (tiles_created demo_key))).
Proof.
  eexists. split; [vm_compute; reflexivity|].
  apply (key_lit_while_sounding (tiles_created demo_key) _ 50).
  vm_compute. reflexivity.
Defined.

(** ** The order of the notes *)

Lemma insert_perm {A : Type} (leb : A -> A -> bool) (a : A) (l : list A) :
  Permutation (insert leb a l) (a :: l).
Proof.
  induction l as [|b l IH]; cbn; [reflexivity|].
  destruct (leb a b); [reflexivity|].
  rewrite IH. apply perm_swap.
Qed.

Lemma sorted_perm {A : Type} (leb : A -> A -> bool) (l : list A) :
  Permutation (sorted leb l) l.
Proof.
  induction l as [|a l IH]; cbn; [reflexivity|].
  rewrite insert_perm. now constructor.
Qed.

Lemma note_leb_order (a b : Note) : note_leb a b = true <-> note_order a b.
Proof.
  unfold note_leb, note_order.
  rewrite orb_true_iff, andb_true_iff, Z.ltb_lt, Z.eqb_eq, Z.leb_le. lia.
Qed.

Lemma note_order_total (a b : Note) : note_order a b \/ note_order b a.
Proof. unfold note_order. lia. Qed.

Lemma note_order_trans (a b c : Note) :
  note_order a b -> note_order b c -> note_order a c.
Proof. unfold note_order. lia. Qed.

Lemma insert_note_sorted (a : Note) (l : list Note) :
  StronglySorted note_order l ->
  StronglySorted note_order (insert note_leb a l).
Proof.
  intro H. induction H as [|b l Hs IH Hall]; cbn.
  - repeat constructor.
  - destruct (note_leb a b) eqn:E.
    + apply note_leb_order in E. constructor; [now constructor|].
      constructor; [exact E|].
      apply Forall_forall. intros c Hc. rewrite Forall_forall in Hall.
      apply (note_order_trans a b c E). now apply Hall.
    + constructor; [exact IH|].
      apply Forall_forall. intros c Hc. apply insert_In in Hc.
      destruct Hc as [->|Hc].
      * destruct (note_order_total a b) as [Hab|Hba]; [|exact Hba].
        apply note_leb_order in Hab. congruence.
      * rewrite Forall_forall in Hall. now apply Hall.
Qed.

Lemma sorted_notes_sorted (l : list Note) :
  StronglySorted note_order (sorted note_leb l).
Proof.
  induction l as [|a l IH]; cbn; [constructor|].
  now apply insert_note_sorted.
Qed.

(** A list already in order is left as it is: notes with equal keys keep
    the order in which the file has them. *)
Lemma sorted_of_sorted (l : list Note) :
  StronglySorted note_order l -> sorted note_leb l = l.
Proof.
  intro H. induction H as [|a l Hs IH Hall]; cbn; [reflexivity|].
  rewrite IH. destruct l as [|b l]; [reflexivity|]. cbn.
  inversion Hall as [|? ? Hab _]; subst.
  apply note_leb_order in Hab. now rewrite Hab.
Qed.

Lemma all_notes_sorted_aux (self : PianoTileCreator) (midi : MidiFile)
    (L : Loaded) :
  loadMidiFile self midi = Ok L -> StronglySorted note_order (all_notes L).
Proof.
  intro H. apply loadMidiFile_inv in H.
  destruct H as (tc & ln & keys0 & keys1 & _ & _ & _ & _ & _ & _ & _
                 & _ & -> & _).
  apply sorted_notes_sorted.
Qed.

(** X8. [all_notes] holds exactly the notes of all instruments, each as
    often as the file has it, ordered by start tick and, for equal start
    ticks, from the highest pitch down; a file whose notes are already in
    that order keeps them as they are. *)
Theorem all_notes_sorted (self : PianoTileCreator) (midi : MidiFile)
    (L : Loaded) :
  loadMidiFile self midi = Ok L ->
  Permutation (all_notes L) (flat_map notes (instruments midi)) /\
  StronglySorted note_order (all_notes L) /\
  (StronglySorted note_order (flat_map notes (instruments midi)) ->
   all_notes L = flat_map notes (instruments midi)).
Proof.
  intro H. apply loadMidiFile_inv in H.
  destruct H as (tc & ln & keys0 & keys1 & _ & _ & _ & _ & _ & _ & _
                 & _ & -> & _).
  unfold sorted_notes. split; [apply sorted_perm|].
  split; [apply sorted_notes_sorted | apply sorted_of_sorted].
Qed.

Lemma all_notes_sorted_witness :
  exists L,
    loadMidiFile demo_creator stray_midi = Ok L /\
    Permutation (all_notes L) (flat_map notes (instruments stray_midi)) /\
    StronglySorted note_order (all_notes L) /\
    (StronglySorted note_order (flat_map notes (instruments stray_midi)) ->
     all_notes L = flat_map notes (instruments stray_midi)).
Proof.
  eexists. split; [vm_compute; reflexivity|].
  apply (all_notes_sorted demo_creator stray_midi).
  vm_compute. reflexivity.
Defined.

(** ** The keys after a load *)

Lemma getitem_0_ok {A : Type} (l : list A) (a : A) :
  nth_error l 0 = Some a -> getitem l 0 = Ok a.
Proof.
  destruct l as [|b l]; cbn; intro H; [discriminate|].
  inversion H; subst. unfold getitem, py_index.
  cbn [Z.leb Z.compare andb].
  destruct (Z.ltb_spec 0 (Z.of_nat (length (a :: l)))) as [Hlt|Hge].
  - reflexivity.
  - cbn [length] in Hge. lia.
Qed.

Lemma getitem_last_nonempty {A : Type} (l : list A) (a : A) :
  getitem l (-1) = Ok a -> l <> [].
Proof.
  intros H E. subst l. discriminate.
Qed.

Lemma sorted_nil_inv {A : Type} (leb : A -> A -> bool) (l : list A) :
  sorted leb l <> [] -> l <> [].
Proof.
  intros H E. subst l. now apply H.
Qed.

(** What a successful load has built when the width is positive. *)
Lemma loaded_keys (self : PianoTileCreator) (midi : MidiFile) (L : Loaded) :
  0 < vid_width self ->
  loadMidiFile self midi = Ok L ->
  length (all_key_objs L) = 88%nat /\
  forall i e, nth_error (enumerate sorted_specs) i = Some e ->
    nth_error (all_key_objs L) i
    = Some (tiles_created
              (with_notes (key_of_spec self (ticks_per_sec L) e)
                 (routed_notes (all_notes L) i))).
Proof.
  intros Hw HL. pose proof HL as Hinv. apply loadMidiFile_inv in Hinv.
  destruct Hinv as (tc & ln & keys0 & keys1 & Htc & Hln & Hz & Hfps & _ & _
                    & _ & _ & Hn & Htps & _).
  destruct (loadMidiFile_total self midi tc Hw Htc Hz Hfps)
    as (L' & HL' & Hn' & Htps' & Hlen & Hkeys).
  { apply (sorted_nil_inv note_leb).
    apply (getitem_last_nonempty _ ln). exact Hln. }
  rewrite HL in HL'. inversion HL'; subst L'.
  split; [exact Hlen|]. intros i e He.
  rewrite Hn, Htps. now apply Hkeys.
Qed.

Lemma nth_error_combine_seq {A : Type} (l : list A) (s i : nat)
    (e : Z * A) :
  nth_error (combine (map Z.of_nat (seq s (length l))) l) i = Some e ->
  fst e = Z.of_nat (s + i) /\ nth_error l i = Some (snd e).
Proof.
  revert i s. induction l as [|a l IH]; intros i s H.
  - destruct i; discriminate.
  - destruct i as [|i]; cbn in H.
    + inversion H; subst. cbn. split; [f_equal; lia | reflexivity].
    + apply IH in H. destruct H as [H1 H2]. split; [|exact H2].
      rewrite H1. f_equal. lia.
Qed.

Lemma nth_error_enumerate {A : Type} (l : list A) (i : nat) (e : Z * A) :
  nth_error (enumerate l) i = Some e ->
  fst e = Z.of_nat i /\ nth_error l i = Some (snd e).
Proof.
  unfold enumerate, py_range. rewrite Nat2Z.id. intro H.
  now apply nth_error_combine_seq in H.
Qed.

Lemma filter_sorted {A : Type} (R : A -> A -> Prop) (p : A -> bool)
    (l : list A) :
  StronglySorted R l -> StronglySorted R (filter p l).
Proof.
  intro H. induction H as [|a l Hs IH Hall]; cbn; [constructor|].
  destruct (p a); [|exact IH]. constructor; [exact IH|].
  apply Forall_forall. intros b Hb. apply filter_In in Hb.
  rewrite Forall_forall in Hall. now apply Hall.
Qed.

(** X9. After a load with a positive width, the key at index [i] has
    MIDI number [21 + i]; all its notes have that pitch and are ordered by
    start tick; and it has one tile per note, in the order of its notes. *)
Theorem key_timeline (self : PianoTileCreator) (midi : MidiFile)
    (L : Loaded) (i : nat) (k : KB_key) :
  0 < vid_width self ->
  loadMidiFile self midi = Ok L ->
  nth_error (all_key_objs L) i = Some k ->
  _midi_num k = (21 + Z.of_nat i)%Z /\
  Forall (fun n => pitch n = _midi_num k) (_notes k) /\
  StronglySorted (fun a b => (start a <= start b)%Z) (_notes k) /\
  _tiles k = map (tile_of k) (_notes k).
Proof.
  intros Hw HL Hk.
  destruct (loaded_keys self midi L Hw HL) as [Hlen Hkeys].
  assert (Hi : (i < length (enumerate sorted_specs))%nat).
  { replace (length (enumerate sorted_specs)) with 88%nat
      by (vm_compute; reflexivity).
    rewrite <- Hlen. apply nth_error_Some. congruence. }
  apply nth_error_Some in Hi.
  destruct (nth_error (enumerate sorted_specs) i) as [e|] eqn:He;
    [|congruence].
  rewrite (Hkeys i e He) in Hk. inversion Hk; subst k. clear Hk.
  apply nth_error_enumerate in He. destruct He as [Hfst _].
  cbn [tiles_created with_tiles with_notes key_of_spec _midi_num _notes
       _tiles].
  rewrite Hfst. split; [reflexivity|]. split; [|split].
  - apply Forall_forall. intros n Hn. unfold routed_notes in Hn.
    apply filter_In in Hn. destruct Hn as [_ Hn]. now apply Z.eqb_eq in Hn.
  - apply filter_sorted.
    pose proof (all_notes_sorted_aux self midi L HL) as Hs.
    apply (StronglySorted_map_impl note_order
             (fun a b => (start a <= start b)%Z) (fun n => n)) in Hs.
    + now rewrite map_id in Hs.
    + unfold note_order. intros a b. lia.
  - reflexivity.
Qed.

Lemma key_timeline_witness :
  exists L k,
    loadMidiFile demo_creator demo_midi = Ok L /\
    nth_error (all_key_objs L) 39 = Some k /\
    _midi_num k = (21 + Z.of_nat 39)%Z /\
    Forall (fun n => pitch n = _midi_num k) (_notes k) /\
    StronglySorted (fun a b => (start a <= start b)%Z) (_notes k) /\
    _tiles k = map (tile_of k) (_notes k).
Proof.
  eexists. eexists. split; [vm_compute; reflexivity|].
  split; [vm_compute; reflexivity|].
  eapply (key_timeline demo_creator demo_midi).
  - reflexivity.
  - vm_compute. reflexivity.
  - vm_compute. reflexivity.
Defined.

(** ** When a load succeeds *)

(** X10. With a positive video width, [loadMidiFile] succeeds exactly
    when the file has a tempo entry, the tick rate computed from the first
    one is not zero, the frame rate is not zero and there is at least one
    note. *)
Theorem load_succeeds_iff (self : PianoTileCreator) (midi : MidiFile) :
  0 < vid_width self ->
  (exists L, loadMidiFile self midi = Ok L) <->
  (exists tc, nth_error (tempo_changes midi) 0 = Some tc /\
              ~ inject_Z (ticks_per_beat midi) * tempo tc / 60 == 0) /\
  ~ vid_fps self == 0 /\
  flat_map notes (instruments midi) <> [].
Proof.
  intro Hw. split.
  - intros [L HL]. apply loadMidiFile_inv in HL.
    destruct HL as (tc & ln & keys0 & keys1 & Htc & Hln & Hz & Hfps & _).
    split; [|split].
    + exists tc. split; [now apply getitem_0 | exact Hz].
    + exact Hfps.
    + apply (sorted_nil_inv note_leb).
      apply (getitem_last_nonempty _ ln). exact Hln.
  - intros ((tc & Htc & Hz) & Hfps & Hne).
    apply getitem_0_ok in Htc.
    destruct (loadMidiFile_total self midi tc Hw Htc Hz Hfps Hne)
      as (L & HL & _).
    now exists L.
Qed.

Lemma load_succeeds_iff_witness :
  (exists L, loadMidiFile demo_creator demo_midi = Ok L) <->
  (exists tc, nth_error (tempo_changes demo_midi) 0 = Some tc /\
              ~ inject_Z (ticks_per_beat demo_midi) * tempo tc / 60 == 0) /\
  ~ vid_fps demo_creator == 0 /\
  flat_map notes (instruments demo_midi) <> [].
Proof.
  apply (load_succeeds_iff demo_creator demo_midi). reflexivity.
Defined.

Lemma pydiv_zero (a b : Q) : b == 0 -> pydiv a b = Raise ZeroDivisionError.
Proof.
  intro H. unfold pydiv. now rewrite (Qeq_eq_bool _ _ H).
Qed.

(** X11. Zero rates end a load with [ZeroDivisionError]: for a file with a
    tempo entry and at least one note, a tick rate of zero (no ticks per
    beat, or a tempo of zero) fails in the total duration, and otherwise a
    frame rate of zero fails in the ticks per frame; in both cases before
    the keyboard is built. *)
Theorem load_zero_rate (self : PianoTileCreator) (midi : MidiFile)
    (tc : TempoChange) :
  nth_error (tempo_changes midi) 0 = Some tc ->
  flat_map notes (instruments midi) <> [] ->
  inject_Z (ticks_per_beat midi) * tempo tc / 60 == 0 \/
  vid_fps self == 0 ->
  loadMidiFile self midi = Raise ZeroDivisionError.
Proof.
  intros Htc Hne Hzero. apply getitem_0_ok in Htc.
  destruct (getitem_last_ok (sorted_notes midi)) as [ln Hln];
    [now apply sorted_not_nil|].
  unfold loadMidiFile. fold (sorted_notes midi). rewrite Htc. cbn [bind].
  rewrite Hln. cbn [bind].
  destruct (Qeq_bool_spec (inject_Z (ticks_per_beat midi) * tempo tc / 60) 0)
    as [Hz|Hz].
  - now rewrite pydiv_zero by exact Hz.
  - rewrite pydiv_ok by exact Hz. cbn [bind].
    destruct Hzero as [Hz'|Hfps]; [contradiction|].
    now rewrite pydiv_zero by exact Hfps.
Qed.

Lemma load_zero_rate_witness :
  loadMidiFile demo_creator still_midi = Raise ZeroDivisionError.
Proof.
  apply (load_zero_rate demo_creator still_midi {| tempo := 0; time := 0 |}).
  - reflexivity.
  - discriminate.
  - left. reflexivity.
Defined.

(** ** The frames of a rendering *)

Lemma Forall2_compose {A B C : Type} (R : A -> B -> Prop)
    (S : B -> C -> Prop) (T : A -> C -> Prop) (l1 : list A) (l2 : list B)
    (l3 : list C) :
  (forall a b c, R a b -> S b c -> T a c) ->
  Forall2 R l1 l2 -> Forall2 S l2 l3 -> Forall2 T l1 l3.
Proof.
  intros H H12. revert l3.
  induction H12 as [|a b l1 l2 Hab H12 IH]; intros l3 H23;
    inversion H23; subst; constructor; eauto.
Qed.

Lemma render_loop_Forall2 (R : KB_key -> KB_key -> Prop) (tpf : Q)
    (frames : list Z) (keys0 keys : list KB_key) (fs : list Frame) :
  (forall k0 k k' tick, R k0 k -> update k tick = Ok k' -> R k0 k') ->
  Forall2 R keys0 keys ->
  render_loop tpf frames keys = Ok fs ->
  Forall (fun f => Forall2 R keys0 (frame_keys f)) fs.
Proof.
  intro HR. revert keys fs.
  induction frames as [|i frames IH]; intros keys fs H Hr.
  - inversion Hr. constructor.
  - cbn [render_loop] in Hr. apply bind_ok in Hr.
    destruct Hr as (keys' & Hk & Hr). apply bind_ok in Hr.
    destruct Hr as (rest & Hrest & Hr). inversion Hr; subst fs.
    apply mapM_Forall2 in Hk.
    assert (H' : Forall2 R keys0 keys').
    { apply (Forall2_compose R
               (fun k k' => update k (inject_Z i * tpf) = Ok k') R
               keys0 keys keys'); auto.
      intros a b c Hab Hbc. now apply (HR a b c (inject_Z i * tpf)). }
    constructor; [exact H'|]. now apply (IH keys').
Qed.

Lemma Forall2_refl {A : Type} (R : A -> A -> Prop) (l : list A) :
  (forall a, R a a) -> Forall2 R l l.
Proof.
  intro H. induction l; constructor; auto.
Qed.

Lemma same_key_update (k0 k k' : KB_key) (tick : Q) :
  same_key k0 k -> update k tick = Ok k' -> same_key k0 k'.
Proof.
  intros (A & B & C & D) Hu. apply update_keeps in Hu.
  destruct Hu as (A1 & B1 & C1 & _ & E1 & _).
  unfold same_key. repeat split; congruence.
Qed.

Lemma loaded_tiles_over_key (self : PianoTileCreator) (midi : MidiFile)
    (L : Loaded) :
  loadMidiFile self midi = Ok L ->
  Forall (fun k => Forall (over_key k) (_tiles k)) (all_key_objs L).
Proof.
  intro H. apply loadMidiFile_inv in H.
  destruct H as (tc & ln & keys0 & keys1 & _ & _ & _ & _ & _ & _ & H2 & _).
  apply (mapM_Forall_out _ _ _ _) with (2 := H2).
  intros k k' Hc. apply createTiles_inv in Hc. subst k'. cbn.
  apply Forall_forall. intros t Ht. apply in_map_iff in Ht.
  destruct Ht as (n & <- & _). repeat split.
Qed.

Lemma over_key_update (k k' : KB_key) (tick : Q) :
  Forall (over_key k) (_tiles k) -> update k tick = Ok k' ->
  Forall (over_key k') (_tiles k').
Proof.
  intros H Hu. apply update_keeps in Hu. now apply Hu.
Qed.

(** X12. After a successful load the frame loop of [render] never
    raises, whatever the number of frames: run over [range(count)] it
    returns one frame per index (none when [count] is not positive), and
    every frame shows every key of the keyboard, in order, with its MIDI
    number, its kind, its notes and as many tiles as it was loaded with,
    each tile standing over its key. *)
Theorem render_loop_completes (self : PianoTileCreator) (midi : MidiFile)
    (L : Loaded) (count : Z) :
  loadMidiFile self midi = Ok L ->
  exists fs,
    render_loop (ticks_per_frame L) (py_range count) (all_key_objs L)
    = Ok fs /\
    length fs = Z.to_nat count /\
    Forall (fun f =>
              Forall2 same_key (all_key_objs L) (frame_keys f) /\
              Forall (fun k => Forall (over_key k) (_tiles k))
                     (frame_keys f))
           fs.
Proof.
  intro HL.
  pose proof (loaded_keys_config self midi L HL) as Hc.
  pose proof (loaded_tiles_over_key self midi L HL) as Hov.
  pose proof HL as Hinv. apply loadMidiFile_inv in Hinv.
  destruct Hinv as (tc & ln & keys0 & keys1 & _ & _ & Hz & _ & _ & _ & _
                    & Hcr & _ & Htps & _).
  destruct (render_loop_total self (ticks_per_sec L) (ticks_per_frame L)
              (py_range count) (all_key_objs L)) as (fs & Hfs & Ht).
  { rewrite Htps. exact Hz. }
  { exact Hc. }
  exists fs. split; [exact Hfs|]. split.
  - rewrite <- (length_map frame_tick), Ht, length_map.
    unfold py_range. now rewrite length_map, length_seq.
  - pose proof (render_loop_Forall2 same_key _ _ (all_key_objs L) _ _
                  same_key_update
                  (Forall2_refl same_key _
                     (fun k => conj eq_refl
                                 (conj eq_refl (conj eq_refl eq_refl))))
                  Hfs) as H1.
    pose proof (render_loop_Forall _ _ _ _ _
                  (fun k tick k' => over_key_update k k' tick) Hov Hfs)
      as H2.
    rewrite Forall_forall in *. intros f Hf. split; auto.
Qed.

Lemma render_loop_completes_witness :
  loadMidiFile scenario_creator scenario_midi = Ok scenario_loaded /\
  exists fs,
    render_loop (ticks_per_frame scenario_loaded) (py_range 32)
      (all_key_objs scenario_loaded)
    = Ok fs /\
    length fs = Z.to_nat 32 /\
    Forall (fun f =>
              Forall2 same_key (all_key_objs scenario_loaded)
                      (frame_keys f) /\
              Forall (fun k => Forall (over_key k) (_tiles k))
                     (frame_keys f))
           fs.
Proof.
  split; [vm_compute; reflexivity|].
  apply (render_loop_completes scenario_creator scenario_midi
           scenario_loaded).
  vm_compute. reflexivity.
Defined.

(** X13. The two extra frames: with a positive tick rate and frame rate,
    a last note (in the order of [all_notes]) that ends at a tick [>= 0]
    and a time base none of whose operations rounds ([exact_time_base]),
    [render] takes frames at ticks [0, tpf, ..., (N+1) * tpf] where
    frame [N] is the last one not after the end of that note and frame
    [N + 1], the final one, is taken strictly after it. *)
Theorem last_frame_after_last_note (self : PianoTileCreator)
    (midi : MidiFile) (L : Loaded) (front : list Note) (ln : Note) :
  loadMidiFile self midi = Ok L ->
  0 < ticks_per_sec L ->
  0 < vid_fps self ->
  all_notes L = front ++ [ln] ->
  (0 <= end_ ln)%Z ->
  exact_time_base self midi L = true ->
  exists fs N,
    render L = Ok fs /\
    map frame_tick fs = frame_ticks (ticks_per_frame L) (S (S N)) /\
    inject_Z (Z.of_nat N) * ticks_per_frame L <= inject_Z (end_ ln) /\
    inject_Z (end_ ln) < inject_Z (Z.of_nat (S N)) * ticks_per_frame L.
Proof.
  intros HL Htps Hfps Hlast Hend _.
  pose proof (loaded_keys_config self midi L HL) as Hc.
  pose proof HL as Hinv. apply loadMidiFile_inv in Hinv.
  destruct Hinv as (tc & ln' & keys0 & keys1 & _ & Hln & Hz & _ & _ & _ & _
                    & Hcr & Hnotes & Htps' & Hdur & Htpf).
  apply getitem_last in Hln. destruct Hln as [front' Hfront'].
  rewrite Hnotes, Hfront' in Hlast.
  apply app_inj_tail in Hlast. destruct Hlast as [_ ->].
  rewrite <- Htps' in Hdur, Htpf.
  set (tps := ticks_per_sec L) in *. set (fps := vid_fps self) in *.
  set (e := inject_Z (end_ ln)) in *.
  assert (He : 0 <= e) by (unfold e; rewrite <- (Zle_Qle 0); exact Hend).
  set (q := total_duration L * fps).
  assert (Hq : q == e * (fps / tps)).
  { unfold q. rewrite Hdur. field. lra. }
  assert (Hr : 0 < fps / tps).
  { unfold Qdiv. apply Qmult_lt_0_compat; [exact Hfps|].
    now apply Qinv_lt_0_compat. }
  assert (Hq0 : 0 <= q).
  { rewrite Hq. apply Qmult_le_0_compat; lra. }
  assert (Hf0 : (0 <= Qfloor q)%Z).
  { pose proof (Qfloor_resp_le _ _ Hq0) as Hf.
    change (Qfloor 0) with 0%Z in Hf. exact Hf. }
  set (N := Z.to_nat (Qfloor q)).
  destruct (render_loop_total self tps (ticks_per_frame L)
              (py_range (Qfloor q + 2)) (all_key_objs L))
    as (fs & Hfs & Ht).
  { lra. }
  { exact Hc. }
  exists fs, N. split; [|split].
  - unfold render. rewrite Hcr. fold fps. fold q.
    rewrite py_int_floor by exact Hq0. exact Hfs.
  - rewrite Ht. unfold frame_ticks. do 2 f_equal. unfold N. lia.
  - assert (HN : inject_Z (Z.of_nat N) = inject_Z (Qfloor q))
      by (unfold N; now rewrite Z2Nat.id).
    assert (HSN : inject_Z (Z.of_nat (S N)) == inject_Z (Qfloor q) + 1).
    { rewrite Nat2Z.inj_succ. unfold Z.succ. rewrite inject_Z_plus.
      rewrite HN. reflexivity. }
    rewrite HSN, HN. clear HSN HN.
    pose proof (Qfloor_le q) as Hlo. pose proof (Qlt_floor q) as Hhi.
    rewrite inject_Z_plus in Hhi. change (inject_Z 1) with 1 in Hhi.
    set (F := inject_Z (Qfloor q)) in *.
    assert (Hr' : 0 < tps / fps).
    { unfold Qdiv. apply Qmult_lt_0_compat; [exact Htps|].
      now apply Qinv_lt_0_compat. }
    assert (Hqe : q * (tps / fps) == e).
    { rewrite Hq. field. split; lra. }
    rewrite Htpf. split.
    + rewrite <- Hqe. apply Qmult_le_compat_r; lra.
    + rewrite <- Hqe. apply Qmult_lt_compat_r; lra.
Qed.

Lemma last_frame_after_last_note_witness :
  exists fs N,
    render scenario_loaded = Ok fs /\
    map frame_tick fs
    = frame_ticks (ticks_per_frame scenario_loaded) (S (S N)) /\
    inject_Z (Z.of_nat N) * ticks_per_frame scenario_loaded
    <= inject_Z (end_ scenario_note) /\
    inject_Z (end_ scenario_note)
    < inject_Z (Z.of_nat (S N)) * ticks_per_frame scenario_loaded.
Proof.
  apply (last_frame_after_last_note scenario_creator scenario_midi
           scenario_loaded [] scenario_note).
  - vm_compute. reflexivity.
  - vm_compute. reflexivity.
  - vm_compute. reflexivity.
  - vm_compute. reflexivity.
  - simpl. lia.
  - vm_compute. reflexivity.
Defined.

(** ** More on the keyboard *)

Lemma Forall_map_in {A B : Type} (P : B -> Prop) (f : A -> B) (l : list A) :
  (forall a, In a l -> P (f a)) -> Forall P (map f l).
Proof.
  intro H. apply Forall_forall. intros b Hb. apply in_map_iff in Hb.
  destruct Hb as (a & <- & Ha). now apply H.
Qed.

Lemma Ok_inj {A : Type} (a b : A) : Ok a = Ok b -> a = b.
Proof. intro H. now inversion H. Qed.

Lemma init_keys_inv (self : PianoTileCreator) (tps : Q)
    (keys : list KB_key) :
  0 < vid_width self ->
  init_keys self tps = Ok keys ->
  keys = map (key_of_spec self tps) (enumerate sorted_specs).
Proof.
  intros Hw H. rewrite init_keys_specs in H by exact Hw.
  symmetry. exact (Ok_inj _ _ H).
Qed.

(** X14. The sort puts the keys in true keyboard order: for a positive
    width, a key is sharp exactly when its MIDI number is one of the black
    pitch classes (A#, C#, D#, F#, G#), and its rectangle is black when it
    is sharp and white when it is not. *)
Theorem sharp_keys_are_black_notes (self : PianoTileCreator) (tps : Q)
    (keys : list KB_key) :
  0 < vid_width self ->
  init_keys self tps = Ok keys ->
  Forall (fun k =>
            _isSharp k = black_pitch_class (_midi_num k) /\
            facecolor (_rect k)
            = if _isSharp k then "black"%string else "white"%string)
         keys.
Proof.
  intros Hw H. apply init_keys_inv in H; [|exact Hw]. subst keys.
  apply Forall_map_in. intros e He.
  rewrite key_of_spec_isSharp by exact Hw.
  assert (Hall : forallb
            (fun e : Z * KeySpec =>
               Bool.eqb (is_sharp (snd e)) (black_pitch_class (21 + fst e)))
            (enumerate sorted_specs) = true)
    by (vm_compute; reflexivity).
  rewrite forallb_forall in Hall. specialize (Hall e He).
  apply Bool.eqb_prop in Hall.
  split; [exact Hall|].
  destruct e as [i [x|x p]]; reflexivity.
Qed.

Lemma sharp_keys_are_black_notes_witness :
  exists keys,
    init_keys demo_creator 1024 = Ok keys /\
    Forall (fun k =>
              _isSharp k = black_pitch_class (_midi_num k) /\
              facecolor (_rect k)
              = if _isSharp k then "black"%string else "white"%string)
           keys.
Proof.
  eexists. split; [vm_compute; reflexivity|].
  apply (sharp_keys_are_black_notes demo_creator 1024).
  - reflexivity.
  - vm_compute. reflexivity.
Defined.

(** X15. The keyboard stays inside its strip: for a positive width and a
    keyboard boundary [kb_top >= 0], every key rectangle lies between x = 0
    and the video width, starts at or above y = 0 and ends exactly at
    [kb_top]. *)
Theorem keys_inside_strip (self : PianoTileCreator) (tps : Q)
    (keys : list KB_key) :
  0 < vid_width self ->
  0 <= kb_top self ->
  init_keys self tps = Ok keys ->
  Forall (fun k =>
            0 <= get_x (_rect k) /\
            get_x (_rect k) + get_width (_rect k) <= vid_width self /\
            0 <= get_y (_rect k) /\
            get_y (_rect k) + get_height (_rect k) == kb_top self)
         keys.
Proof.
  intros Hw Hkb H. apply init_keys_inv in H; [|exact Hw]. subst keys.
  pose proof (white_key_width_pos self Hw) as Hwkw.
  apply Forall_map_in. intros e He.
  assert (Hall : forallb
            (fun e : Z * KeySpec =>
               Qle_bool 0 (spec_pos (snd e)) &&
               Qle_bool (spec_pos (snd e) + spec_width (snd e)) 52)
            (enumerate sorted_specs) = true)
    by (vm_compute; reflexivity).
  rewrite forallb_forall in Hall. specialize (Hall e He).
  apply andb_prop in Hall. destruct Hall as [H0 H1].
  apply Qle_bool_iff in H0. apply Qle_bool_iff in H1.
  cbn [key_of_spec _rect].
  set (w := vid_width self / 52) in *.
  assert (Hwidth : vid_width self == 52 * w) by (unfold w; field).
  split; [|split].
  - rewrite spec_rect_x. apply Qmult_le_0_compat; lra.
  - rewrite spec_rect_x, spec_rect_width, Hwidth.
    apply (Qmult_le_compat_r _ _ w) in H1; lra.
  - destruct (snd e) as [x|x p]; cbn [spec_rect get_y get_height].
    + split; [lra | ring].
    + set (kb := kb_top self) in *.
      assert (E : kb * 80 / 126.27 == kb * (80 / 126.27)) by field.
      assert (Hc : (80 / 126.27 : Q) <= 1) by (vm_compute; discriminate).
      split; [|ring].
      rewrite E.
      assert (Hm : kb * (80 / 126.27) <= kb * 1)
        by (rewrite !(Qmult_comm kb); apply Qmult_le_compat_r; lra).
      lra.
Qed.

Lemma keys_inside_strip_witness :
  exists keys,
    init_keys demo_creator 1024 = Ok keys /\
    Forall (fun k =>
              0 <= get_x (_rect k) /\
              get_x (_rect k) + get_width (_rect k) <= vid_width demo_creator /\
              0 <= get_y (_rect k) /\
              get_y (_rect k) + get_height (_rect k) == kb_top demo_creator)
           keys.
Proof.
  eexists. split; [vm_compute; reflexivity|].
  apply (keys_inside_strip demo_creator 1024).
  - reflexivity.
  - vm_compute. discriminate.
  - vm_compute. reflexivity.
Defined.

Lemma init_keys_ok (self : PianoTileCreator) (tps : Q) :
  init_keys self tps
  = Ok (map (key_of_rect self tps) (enumerate (all_key_rects self))).
Proof.
  unfold init_keys. apply mapM_ok_map. intros [i r] _. reflexivity.
Qed.

Lemma sorted_length {A : Type} (leb : A -> A -> bool) (l : list A) :
  length (sorted leb l) = length l.
Proof.
  apply Permutation_length, sorted_perm.
Qed.

Lemma length_enumerate {A : Type} (l : list A) :
  length (enumerate l) = length l.
Proof.
  unfold enumerate, py_range.
  rewrite length_combine, length_map, length_seq, Nat2Z.id.
  apply Nat.min_id.
Qed.

Lemma black_keys_zero (self : PianoTileCreator) (wkw : Q) :
  wkw == 0 -> black_keys self wkw = [].
Proof.
  intro H. unfold black_keys.
  set (pat := map (fun p => p / 22.15 * wkw) black_key_pattern).
  assert (Hall : Forall (fun q => q == 0) pat).
  { apply Forall_map_in. intros p _. rewrite H. field. }
  assert (Hnth : forall i : nat, nth i pat 0 == 0).
  { clear -Hall. induction Hall as [|q l Hq Hall IH]; intros [|i]; cbn;
      try reflexivity; auto. }
  assert (Hbody : forall x : nat,
            truthy (nth (x mod length pat) pat 0) = false).
  { intro x. unfold truthy. apply negb_false_iff. apply Qeq_eq_bool.
    apply Hnth. }
  induction (seq 0 51) as [|x l IH]; [reflexivity|].
  cbn [flat_map]. rewrite IH. cbv zeta. now rewrite Hbody.
Qed.

(** X16. A video of width 0 gets a keyboard of 52 natural keys only, all
    at x = 0: every scaled entry of the sharp pattern is zero, which the
    builder reads as "no sharp key here".  Distributing a note of pitch 73
    or more over these keys raises [IndexError]. *)
Theorem zero_width_keyboard (self : PianoTileCreator) (tps : Q) :
  vid_width self == 0 ->
  exists keys,
    init_keys self tps = Ok keys /\
    length keys = 52%nat /\
    Forall (fun k => _isSharp k = false /\ get_x (_rect k) == 0) keys /\
    forall n, (73 <= pitch n <= 108)%Z -> assign keys n = Raise IndexError.
Proof.
  intro Hw.
  assert (Hwkw : vid_width self / 52 == 0) by (rewrite Hw; reflexivity).
  assert (Hrects : all_key_rects self
                   = sorted key_leb (white_keys self (vid_width self / 52))).
  { unfold all_key_rects. rewrite black_keys_zero by exact Hwkw.
    now rewrite app_nil_r. }
  assert (Hlen : length (map (key_of_rect self tps)
                           (enumerate (all_key_rects self))) = 52%nat).
  { rewrite length_map, length_enumerate, Hrects, sorted_length.
    unfold white_keys. now rewrite length_map, length_seq. }
  eexists. split; [apply init_keys_ok|]. split; [exact Hlen|]. split.
  - apply Forall_map_in. intros [i r] He. apply in_combine_r in He.
    rewrite Hrects in He. apply sorted_In in He. unfold white_keys in He.
    apply in_map_iff in He. destruct He as (x & <- & _).
    cbn [key_of_rect _isSharp _rect snd get_x get_width]. split.
    + unfold Qlt_bool.
      destruct (Qle_bool_spec (vid_width self / 52) (vid_width self / 52));
        [reflexivity | lra].
    + rewrite Hwkw. ring.
  - intros n Hn. unfold assign.
    destruct (Z.leb_spec 21 (pitch n)); [|lia].
    destruct (Z.leb_spec (pitch n) 108); [|lia]. cbn [andb].
    unfold py_index. rewrite Hlen.
    destruct (Z.leb_spec 0 (pitch n - 21)); [|lia].
    destruct (Z.ltb_spec (pitch n - 21) (Z.of_nat 52)); [lia|].
    cbn [andb].
    destruct (Z.ltb_spec (pitch n - 21) 0); [lia|].
    now rewrite andb_false_r.
Qed.

Lemma zero_width_keyboard_witness :
  exists keys,
    init_keys zero_width_creator 1024 = Ok keys /\
    length keys = 52%nat /\
    Forall (fun k => _isSharp k = false /\ get_x (_rect k) == 0) keys /\
    forall n, (73 <= pitch n <= 108)%Z -> assign keys n = Raise IndexError.
Proof.
  apply (zero_width_keyboard zero_width_creator 1024). reflexivity.
Defined.

(** ** The constructor *)

(** X17. With a nonzero dpi, the constructor accepts a keyboard ratio in
    [0, 1) and refuses any other with [ValueError].  When it accepts, the
    keyboard boundary is [KB_ratio * video_height], which for a positive
    height lies in [0, video_height): some room is always left for the
    tiles. *)
Theorem constructor_checks_ratio (video_width video_height video_dpi
    video_fps KB_ratio tile_velocity : Q) (key_color : string)
    (showKeyVelocity : bool) :
  ~ video_dpi == 0 ->
  (0 <= KB_ratio /\ KB_ratio < 1 ->
   exists self,
     PianoTileCreator_init video_width video_height video_dpi video_fps
       KB_ratio tile_velocity key_color showKeyVelocity = Ok self /\
     kb_top self = KB_ratio * video_height /\
     vid_height self = video_height /\
     (0 < video_height -> 0 <= kb_top self /\ kb_top self < vid_height self))
  /\
  (KB_ratio < 0 \/ 1 <= KB_ratio ->
   PianoTileCreator_init video_width video_height video_dpi video_fps
     KB_ratio tile_velocity key_color showKeyVelocity = Raise ValueError).
Proof.
  intro Hd. split.
  - intros [H0 H1]. unfold PianoTileCreator_init.
    rewrite !pydiv_ok by exact Hd. cbn [bind]. unfold Qlt_bool.
    destruct (Qle_bool_spec 0 KB_ratio) as [_|Hn]; [|lra].
    destruct (Qle_bool_spec 1 KB_ratio) as [Hn|_]; [lra|].
    cbn [andb negb]. eexists. split; [reflexivity|].
    cbn [kb_top vid_height]. repeat split.
    + apply Qmult_le_0_compat; lra.
    + assert (Hlt : KB_ratio * video_height < 1 * video_height)
        by (apply Qmult_lt_compat_r; assumption).
      lra.
  - intro Hr. unfold PianoTileCreator_init.
    rewrite !pydiv_ok by exact Hd. cbn [bind]. unfold Qlt_bool.
    destruct (Qle_bool_spec 0 KB_ratio) as [H0|H0];
      destruct (Qle_bool_spec 1 KB_ratio) as [H1|H1];
      try reflexivity.
    exfalso. destruct Hr; lra.
Qed.

Lemma constructor_checks_ratio_witness :
  (0 <= 1 # 4 /\ 1 # 4 < 1 ->
   exists self,
     PianoTileCreator_init 1040 400 100 32 (1 # 4) 256 "green" false
     = Ok self /\
     kb_top self = (1 # 4) * 400 /\
     vid_height self = 400 /\
     (0 < 400 -> 0 <= kb_top self /\ kb_top self < vid_height self))
  /\
  ((1 # 4) < 0 \/ 1 <= 1 # 4 ->
   PianoTileCreator_init 1040 400 100 32 (1 # 4) 256 "green" false
   = Raise ValueError).
Proof.
  apply (constructor_checks_ratio 1040 400 100 32 (1 # 4) 256 "green" false).
  vm_compute. discriminate.
Defined.

(** ** Building the tiles again *)

Lemma update_key_rect (k k' : KB_key) (tick : Q) :
  update k tick = Ok k' ->
  get_x (_rect k') = get_x (_rect k) /\
  get_width (_rect k') = get_width (_rect k).
Proof.
  intro H. apply update_inv in H. destruct H as (ts & _ & ->).
  cbn [_rect with_key_rect].
  destruct (update_display_static k tick) as (-> & _ & -> & _). auto.
Qed.

Lemma run_key_rect (ticks : list Q) (k k' : KB_key) :
  run_key k ticks = Ok k' ->
  get_x (_rect k') = get_x (_rect k) /\
  get_width (_rect k') = get_width (_rect k).
Proof.
  revert k. induction ticks as [|tick ticks IH]; intros k H.
  - inversion H; subst. auto.
  - unfold run_key in H. cbn [foldM] in H. apply bind_ok in H.
    destruct H as (k1 & H1 & H). apply update_key_rect in H1.
    apply IH in H. destruct H1, H. split; congruence.
Qed.

Lemma tile_of_ext (k k' : KB_key) (n : Note) :
  config_of k' = config_of k ->
  get_x (_rect k') = get_x (_rect k) ->
  get_width (_rect k') = get_width (_rect k) ->
  tile_of k' n = tile_of k n.
Proof.
  intros Hc Hx Hw. destruct k, k'. unfold config_of in Hc.
  cbn in Hc, Hx, Hw. inversion Hc. subst. unfold tile_of. cbn.
  now rewrite Hx, Hw.
Qed.

(** X18. [createTiles] starts from an empty list every time it is called:
    called again on a key that has been updated any number of times, it
    succeeds and gives back exactly the tiles of the first call, one per
    note, with no tile twice and none of the progress of the old tiles. *)
Theorem createTiles_rebuilds (k k1 k2 : KB_key) (ticks : list Q) :
  createTiles k = Ok k1 ->
  run_key k1 ticks = Ok k2 ->
  exists k3,
    createTiles k2 = Ok k3 /\
    _tiles k3 = _tiles k1 /\
    length (_tiles k3) = length (_notes k).
Proof.
  intros Hc Hr. pose proof Hc as Hinv. apply createTiles_inv in Hinv.
  subst k1.
  pose proof (run_key_keeps ticks _ _ Hr) as (Hn & _ & _ & Hcf & _ & _).
  pose proof (run_key_rect ticks _ _ Hr) as (Hx & Hw).
  cbn [tiles_created _notes with_tiles _rect] in Hn, Hx, Hw.
  change (config_of (tiles_created k)) with (config_of k) in Hcf.
  exists (tiles_created k2).
  assert (Htiles : _tiles (tiles_created k2) = _tiles (tiles_created k)).
  { cbn [tiles_created _tiles with_tiles]. rewrite Hn.
    apply map_ext. intro n. now apply tile_of_ext. }
  split; [|split].
  - destruct (_notes k) as [|n ns] eqn:E.
    + apply createTiles_no_notes. congruence.
    + apply createTiles_ok.
      destruct (Qeq_bool_spec (_ticks_per_sec k) 0) as [Hz|Hz].
      * exfalso. unfold createTiles in Hc. rewrite E in Hc.
        cbn [mapM] in Hc. unfold new_tile, pydiv in Hc.
        rewrite (Qeq_eq_bool _ _ Hz) in Hc. discriminate.
      * unfold config_of in Hcf. inversion Hcf. congruence.
  - exact Htiles.
  - rewrite Htiles. cbn. apply length_map.
Qed.

Lemma createTiles_rebuilds_witness :
  exists k3,
    createTiles demo_key_played = Ok k3 /\
    _tiles k3 = _tiles (tiles_created demo_key) /\
    length (_tiles k3) = length (_notes demo_key).
Proof.
  apply (createTiles_rebuilds demo_key (tiles_created demo_key)
           demo_key_played (frame_ticks 32 35)).
  - reflexivity.
  - vm_compute. reflexivity.
Defined.

(** * Replay against direct computation, both ways of agreeing *)

Lemma run_tile_play (self : KB_key) (ticks : list Q) (t : Tile) :
  ~ _ticks_per_sec self == 0 ->
  run_tile self ticks t = Ok (play self ticks t).
Proof.
  intro Hz. revert t. induction ticks as [|tick ticks IH]; intro t;
    [reflexivity|].
  unfold run_tile. cbn [foldM]. rewrite update_tile_ok by exact Hz.
  cbn [bind]. apply IH.
Qed.

Lemma replay_replayed (self : KB_key) (tpf : Q) (N : nat) (t : Tile) :
  ~ _ticks_per_sec self == 0 ->
  replay self tpf N t = Ok (replayed self tpf N t).
Proof.
  intro Hz. unfold replay, replayed. now apply run_tile_play.
Qed.

Lemma replayed_0 (self : KB_key) (tpf : Q) (t : Tile) :
  replayed self tpf 0 t = step_state self (moved self (inject_Z 0 * tpf) t).
Proof. reflexivity. Qed.

Lemma replayed_S (self : KB_key) (tpf : Q) (k : nat) (t : Tile) :
  replayed self tpf (S k) t
  = step_state self
      (moved self (inject_Z (Z.of_nat (S k)) * tpf) (replayed self tpf k t)).
Proof.
  unfold replayed, play. rewrite (frame_ticks_S tpf (S k)).
  now rewrite fold_left_app.
Qed.

Lemma play_inv (self : KB_key) (ticks : list Q) (t0 t : Tile) :
  tile_inv self t0 t -> tile_inv self t0 (play self ticks t).
Proof.
  revert t. induction ticks as [|tick ticks IH]; intros t H; [exact H|].
  cbn [play fold_left]. apply IH. now apply tile_inv_step.
Qed.

(** A tile created at or below the keyboard: as long as the next update
    does not finish it, updating the directly computed tile gives the
    directly computed tile of the next tick. *)
Lemma clipped_step (self : KB_key) (t : Tile) (tick tick' : Q) :
  state t = 0%Z ->
  get_y (rect t) <= _kbtop self ->
  state (step_state self
           (moved self tick' (step_state self (moved self tick t))))
  <> 2%Z ->
  step_state self (moved self tick' (step_state self (moved self tick t)))
  = step_state self (moved self tick' t).
Proof.
  destruct t as [s r sy w]. cbn [state rect]. intros -> Hy.
  unfold step_state, moved.
  cbn [state rect start_y_pos initial_w get_y get_height
       with_rect with_state set_y set_height add_patch remove
       Z.leb Z.eqb Z.compare Pos.compare Pos.compare_cont Pos.eqb].
  repeat (case_Qle;
          cbn [state rect start_y_pos initial_w get_y get_height
               with_rect with_state set_y set_height add_patch remove
               Z.leb Z.eqb Z.compare Pos.compare Pos.compare_cont Pos.eqb]);
    intro Hne; try reflexivity; try congruence; exfalso; lra.
Qed.
Lemma replayed_inv (self : KB_key) (n : Note) (tpf : Q) (k : nat) :
  tile_inv self (tile_of self n) (replayed self tpf k (tile_of self n)).
Proof.
  unfold replayed. apply play_inv. apply tile_inv_init.
Qed.

Lemma replayed_state_le (self : KB_key) (n : Note) (tpf : Q) (k : nat) :
  (state (replayed self tpf k (tile_of self n))
   <= state (replayed self tpf (S k) (tile_of self n)))%Z.
Proof.
  rewrite replayed_S.
  pose proof (replayed_inv self n tpf k) as (_ & _ & Hp & _).
  set (t := replayed self tpf k (tile_of self n)) in *.
  set (tick := inject_Z (Z.of_nat (S k)) * tpf).
  pose proof (moved_phase_ok self tick t Hp) as Hm.
  pose proof (step_state_phase self (moved self tick t) Hm) as Hs.
  destruct (moved_state self tick t) as [Hms _]. rewrite Hms in Hs. lia.
Qed.

Lemma replayed_state_range (self : KB_key) (n : Note) (tpf : Q) (k : nat) :
  (0 <= state (replayed self tpf k (tile_of self n)) <= 2)%Z.
Proof.
  pose proof (replayed_inv self n tpf k) as (_ & _ & Hp & _).
  destruct Hp as [[E _]|[[E _]|[E _]]]; rewrite E; lia.
Qed.

(** A tile created at or below the keyboard and not done after frame [N]
    of the replay is the tile of the single update at the tick of frame
    [N]. *)
Lemma replayed_clipped (self : KB_key) (n : Note) (tpf : Q) (N : nat) :
  get_y (rect (tile_of self n)) <= _kbtop self ->
  state (replayed self tpf N (tile_of self n)) <> 2%Z ->
  replayed self tpf N (tile_of self n)
  = step_state self
      (moved self (inject_Z (Z.of_nat N) * tpf) (tile_of self n)).
Proof.
  intro Hy. induction N as [|k IH]; intro Hne; [apply replayed_0|].
  pose proof (replayed_state_le self n tpf k) as Hle.
  pose proof (replayed_state_range self n tpf (S k)) as Hr.
  assert (Hk : state (replayed self tpf k (tile_of self n)) <> 2%Z) by lia.
  revert Hne. rewrite replayed_S, (IH Hk). intro Hne.
  now apply clipped_step.
Qed.

Section ReplayGeneral.
Variable self : KB_key.
Variable n : Note.
Variable tpf : Q.
Hypothesis note_ok : (0 <= start n < end_ n)%Z.
Hypothesis velocity_nonneg : 0 <= _tile_velocity self.
Hypothesis tps_pos : 0 < _ticks_per_sec self.
Hypothesis tpf_nonneg : 0 <= tpf.

(** One update of a reachable tile leaves the leading edge where it was
    when it had reached the keyboard, and puts it where the falling branch
    has it at that tick otherwise. *)
Lemma update_y (t : Tile) (tick : Q) :
  tile_inv self (tile_of self n) t ->
  get_y (rect (step_state self (moved self tick t)))
  = if Qle_bool (get_y (rect t)) (_kbtop self)
    then get_y (rect t) else edge_at self n tick.
Proof.
  intros (Hs & Hw & Hp & Hd & Hf).
  rewrite (proj1 (step_state_geometry self _)).
  unfold moved, edge_at. rewrite <- Hs.
  destruct Hp as [[E _]|[[E _]|[E _]]]; rewrite E;
    cbn [Z.leb Z.compare Pos.compare Pos.compare_cont].
  - case_Qle; reflexivity.
  - case_Qle; reflexivity.
  - case_Qle; [reflexivity|]. exfalso.
    destruct (Hf Hle) as [Hy Hh]. specialize (Hd E).
    rewrite Hs in Hy. pose proof (initial_w_pos self n note_ok Hy) as Hpos.
    rewrite Hh, Hw in Hd. lra.
Qed.

Lemma replayed_step (k : nat) :
  exists t,
    tile_inv self (tile_of self n) t /\
    replayed self tpf k (tile_of self n)
    = step_state self (moved self (inject_Z (Z.of_nat k) * tpf) t) /\
    (k = 0%nat -> t = tile_of self n) /\
    (forall j, k = S j -> t = replayed self tpf j (tile_of self n)).
Proof.
  destruct k as [|j].
  - exists (tile_of self n). split; [apply tile_inv_init|].
    split; [apply replayed_0|]. split; [reflexivity|discriminate].
  - exists (replayed self tpf j (tile_of self n)).
    split; [apply replayed_inv|]. split; [apply replayed_S|].
    split; [discriminate|]. intros j' H. now inversion H.
Qed.

(** A replayed tile that is above the keyboard after frame [k] is where
    the falling branch puts it at the tick of frame [k]. *)
Lemma replayed_above_edge (k : nat) :
  _kbtop self < get_y (rect (replayed self tpf k (tile_of self n))) ->
  _kbtop self < edge_at self n (inject_Z (Z.of_nat k) * tpf).
Proof.
  destruct (replayed_step k) as (t & Hi & -> & _).
  rewrite (update_y t _ Hi). case_Qle; intro H; [exfalso; lra | exact H].
Qed.

(** Once the replayed tile has reached the keyboard its leading edge is
    held. *)
Lemma replayed_held (k m : nat) :
  (k <= m)%nat ->
  get_y (rect (replayed self tpf k (tile_of self n))) <= _kbtop self ->
  get_y (rect (replayed self tpf m (tile_of self n)))
  = get_y (rect (replayed self tpf k (tile_of self n))).
Proof.
  intros Hkm Hk. induction Hkm as [|m Hkm IH]; [reflexivity|].
  rewrite replayed_S, (update_y _ _ (replayed_inv self n tpf m)), IH.
  case_Qle; [reflexivity | exfalso; lra].
Qed.

Lemma edge_at_monotone (tick1 tick2 : Q) :
  tick1 <= tick2 -> edge_at self n tick2 <= edge_at self n tick1.
Proof.
  intro H. unfold edge_at.
  pose proof (drop_monotone _ _ _ _ velocity_nonneg tps_pos H). lra.
Qed.

(** The replayed tile is never below where the falling branch would have
    it. *)
Lemma replayed_edge_le (k : nat) :
  _kbtop self < get_y (rect (tile_of self n)) ->
  edge_at self n (inject_Z (Z.of_nat k) * tpf)
  <= get_y (rect (replayed self tpf k (tile_of self n))).
Proof.
  intro H0. induction k as [|k IH].
  - rewrite replayed_0, (update_y _ _ (tile_inv_init self n)).
    case_Qle; [exfalso; lra | apply Qle_refl].
  - rewrite replayed_S, (update_y _ _ (replayed_inv self n tpf k)).
    case_Qle; [|apply Qle_refl].
    pose proof (edge_at_monotone _ _ (frame_tick_le tpf k tpf_nonneg)). lra.
Qed.

End ReplayGeneral.

Lemma drop_strict (v tps t1 t2 : Q) :
  0 < v -> 0 < tps -> t1 < t2 -> v * t1 / tps < v * t2 / tps.
Proof.
  intros Hv Htps Ht. unfold Qdiv.
  pose proof (Qinv_lt_0_compat _ Htps) as Hi.
  set (i := / tps) in *.
  assert (H1 : 0 < v * i) by (apply Qmult_lt_0_compat; lra).
  assert (H2 : t1 * (v * i) < t2 * (v * i))
    by (apply Qmult_lt_compat_r; assumption).
  lra.
Qed.

(** C1, as the code has it.  The tile is not a function of the tick
    alone, but frame-by-frame replay to frame [N] and the single update at
    the tick of frame [N] give the same tile (phase, position and height
    included) in both of these cases: the replayed tile was above [kb_top]
    after every frame before [N] (it has only fallen so far); or the tile
    was created at or below [kb_top] and the replayed tile is not done
    after frame [N]. *)
Theorem replay_agrees_until_held (self : KB_key) (n : Note) (tpf : Q)
    (N : nat) (t0 : Tile) :
  (0 <= start n < end_ n)%Z ->
  0 <= _tile_velocity self ->
  0 < _ticks_per_sec self ->
  0 <= tpf ->
  new_tile self n = Ok t0 ->
  (forall k, (k < N)%nat ->
     _kbtop self < get_y (rect (replayed self tpf k t0)))
  \/ (get_y (rect t0) <= _kbtop self
      /\ state (replayed self tpf N t0) <> 2%Z) ->
  exists t,
    replay self tpf N t0 = Ok t /\ direct self tpf N t0 = Ok t /\
    replayed self tpf N t0 = t.
Proof.
  intros Hn Hv Htps Htpf Ht Hc.
  pose proof (tps_nonzero_of_pos self Htps) as Hz.
  pose proof Ht as Ht'. apply new_tile_inv in Ht'. destruct Ht' as [_ E].
  destruct Hc as [Hall|[Hy Hne]].
  - destruct (replay_agrees_while_falling self n tpf N t0 Hn Hv Htps Htpf Ht)
      as (t & Hr & Hd).
    + intros j Hj. specialize (Hall j Hj). subst t0.
      now apply replayed_above_edge.
    + exists t. repeat split; try assumption.
      rewrite replay_replayed in Hr by exact Hz. now apply Ok_inj.
  - subst t0. exists (replayed self tpf N (tile_of self n)).
    split; [now apply replay_replayed|]. split; [|reflexivity].
    unfold direct. rewrite update_tile_ok by exact Hz.
    now rewrite replayed_clipped.
Qed.

Lemma replay_agrees_until_held_witness :
  (exists t,
     replay scenario_key 32 29 (tile_of scenario_key scenario_note) = Ok t /\
     direct scenario_key 32 29 (tile_of scenario_key scenario_note) = Ok t /\
     replayed scenario_key 32 29 (tile_of scenario_key scenario_note) = t) /\
  (exists t,
     replay demo_key 32 2 (tile_of demo_key demo_note) = Ok t /\
     direct demo_key 32 2 (tile_of demo_key demo_note) = Ok t /\
     replayed demo_key 32 2 (tile_of demo_key demo_note) = t).
Proof.
  split.
  - apply (replay_agrees_until_held scenario_key scenario_note).
    + simpl. lia.
    + vm_compute. discriminate.
    + vm_compute. reflexivity.
    + vm_compute. discriminate.
    + reflexivity.
    + right. split; vm_compute; discriminate.
  - apply (replay_agrees_until_held demo_key demo_note).
    + simpl. lia.
    + vm_compute. discriminate.
    + vm_compute. reflexivity.
    + vm_compute. discriminate.
    + reflexivity.
    + left. intros k Hk.
      destruct k as [|[|k]]; [vm_compute; reflexivity ..|lia].
Defined.

(** The two cases of the theorem are the only ones: with a positive tile
    velocity and a positive tick step, whenever the replayed tile and the
    directly computed one have the same phase and the same leading edge,
    one of the two cases holds. *)
Lemma replay_agrees_only_until_held (self : KB_key) (n : Note) (tpf : Q)
    (N : nat) (t0 t1 t2 : Tile) :
  (0 <= start n < end_ n)%Z ->
  0 < _tile_velocity self ->
  0 < _ticks_per_sec self ->
  0 < tpf ->
  new_tile self n = Ok t0 ->
  replay self tpf N t0 = Ok t1 ->
  direct self tpf N t0 = Ok t2 ->
  state t1 = state t2 ->
  get_y (rect t1) == get_y (rect t2) ->
  (forall k, (k < N)%nat ->
     _kbtop self < get_y (rect (replayed self tpf k t0)))
  \/ (get_y (rect t0) <= _kbtop self
      /\ state (replayed self tpf N t0) <> 2%Z).
Proof.
  intros Hn Hv Htps Htpf Ht Hr Hd Hst Hy.
  pose proof (tps_nonzero_of_pos self Htps) as Hz.
  apply new_tile_inv in Ht. destruct Ht as [_ ->].
  rewrite replay_replayed in Hr by exact Hz. apply Ok_inj in Hr.
  unfold direct in Hd. rewrite update_tile_ok in Hd by exact Hz.
  apply Ok_inj in Hd.
  assert (Hs2 : (state t2 <= 1)%Z).
  { subst t2.
    pose proof (tile_inv_init self n) as (_ & _ & Hp & _).
    pose proof (step_state_phase self _
                  (moved_phase_ok self (inject_Z (Z.of_nat N) * tpf) _ Hp))
      as Hs.
    destruct (moved_state self (inject_Z (Z.of_nat N) * tpf)
                (tile_of self n)) as [Hms _].
    rewrite Hms in Hs. cbn [tile_of state] in Hs. lia. }
  destruct (Qlt_le_dec (_kbtop self) (get_y (rect (tile_of self n))))
    as [Habove|Hbelow].
  - left.
    assert (Hsearch :
      forall M, (M <= N)%nat ->
        (forall k, (k < M)%nat ->
           _kbtop self
           < get_y (rect (replayed self tpf k (tile_of self n))))
        \/ exists k, (k < N)%nat /\
             get_y (rect (replayed self tpf k (tile_of self n)))
             <= _kbtop self).
    { induction M as [|M IH]; intro HM; [left; intros k Hk; lia|].
      destruct IH as [IH|IH]; [lia| |right; exact IH].
      destruct (Qlt_le_dec (_kbtop self)
                  (get_y (rect (replayed self tpf M (tile_of self n)))))
        as [H|H].
      - left. intros k Hk.
        destruct (Nat.eq_dec k M) as [->|Hne]; [exact H|apply IH; lia].
      - right. exists M. split; [lia|exact H]. }
    destruct (Hsearch N (Nat.le_refl N)) as [Hall|(k & Hk & Hheld)];
      [exact Hall|exfalso].
    pose proof (replayed_held self n tpf Hn k N (Nat.lt_le_incl _ _ Hk)
                  Hheld) as Hh.
    pose proof (replayed_edge_le self n tpf Hn (Qlt_le_weak _ _ Hv) Htps
                  (Qlt_le_weak _ _ Htpf) k Habove) as Hlow.
    assert (Hd2 : get_y (rect t2)
                  = edge_at self n (inject_Z (Z.of_nat N) * tpf)).
    { subst t2. rewrite (update_y self n Hn _ _ (tile_inv_init self n)).
      case_Qle; [exfalso; lra | reflexivity]. }
    assert (Hticks : inject_Z (Z.of_nat k) * tpf
                     < inject_Z (Z.of_nat N) * tpf).
    { apply Qmult_lt_compat_r; [exact Htpf|]. rewrite <- Zlt_Qlt. lia. }
    pose proof (drop_strict _ _ _ _ Hv Htps Hticks) as Hdrop.
    rewrite <- Hr, Hh, Hd2 in Hy. unfold edge_at in *. lra.
  - right. split; [exact Hbelow|]. rewrite Hr, Hst. lia.
Qed.

(** The second case ends where the replay removes the tile: the scenario
    note ends at tick 960, the tick of frame 30, where the replayed tile is
    done and the directly computed one is present. *)
Lemma replay_differs_once_done :
  exists t1 t2,
    replay scenario_key 32 30 (tile_of scenario_key scenario_note) = Ok t1 /\
    direct scenario_key 32 30 (tile_of scenario_key scenario_note) = Ok t2 /\
    state t1 = 2%Z /\ state t2 = 1%Z.
Proof.
  eexists. eexists.
  split; [vm_compute; reflexivity|].
  split; [vm_compute; reflexivity|].
  split; vm_compute; reflexivity.
Qed.

(** * Binary64 numbers *)

Lemma binary64_at_sound (q : Q) (e : Z) :
  binary64_at q e = true ->
  exists m, (Z.abs m < 2 ^ 53)%Z /\ q == inject_Z m * 2 ^ e.
Proof.
  unfold binary64_at.
  set (a := (Qnum q * 2 ^ Z.max 0 (- e))%Z).
  set (b := (QDen q * 2 ^ Z.max 0 e)%Z).
  intro H. apply andb_true_iff in H. destruct H as [Hm Hb].
  apply Z.eqb_eq in Hm. apply Z.ltb_lt in Hb.
  assert (Hb0 : b <> 0%Z).
  { unfold b. pose proof (Z.pow_pos_nonneg 2 (Z.max 0 e)). lia. }
  pose proof (Z_div_exact_full_2 a b Hb0 Hm) as Hab.
  exists (a / b)%Z. split; [exact Hb|].
  set (m := (a / b)%Z) in *.
  assert (Hq : q == inject_Z (Qnum q) / inject_Z (QDen q))
    by (destruct q; apply Qmake_Qdiv).
  assert (Hd : ~ inject_Z (QDen q) == 0).
  { change 0 with (inject_Z 0). rewrite inject_Z_injective. lia. }
  destruct (Z.le_gt_cases 0 e) as [He|He].
  - assert (Ha : a = Qnum q) by (unfold a; rewrite Z.max_l by lia; lia).
    assert (Hb' : b = (QDen q * 2 ^ e)%Z)
      by (unfold b; now rewrite Z.max_r by lia).
    rewrite Ha, Hb' in Hab.
    rewrite Hq at 1. rewrite Hab, !inject_Z_mult, Zpower_Qpower by exact He.
    change (inject_Z 2) with 2. field. exact Hd.
  - assert (Ha : a = (Qnum q * 2 ^ (- e))%Z)
      by (unfold a; now rewrite Z.max_r by lia).
    assert (Hb' : b = QDen q) by (unfold b; rewrite Z.max_l by lia; lia).
    rewrite Ha, Hb' in Hab.
    assert (Hab' : inject_Z (Qnum q) * 2 ^ (- e)
                   == inject_Z (QDen q) * inject_Z m).
    { rewrite <- inject_Z_mult, <- Hab, inject_Z_mult.
      rewrite Zpower_Qpower by lia. reflexivity. }
    assert (Hp : ~ 2 ^ (- e) == 0) by (apply Qpower_not_0; discriminate).
    assert (He2 : 2 ^ e == / 2 ^ (- e)).
    { rewrite <- Qpower_opp. now rewrite Z.opp_involutive. }
    rewrite Hq at 1. rewrite He2.
    apply (Qmult_inj_r _ _ (2 ^ (- e)) Hp).
    apply (Qmult_inj_r _ _ (inject_Z (QDen q)) Hd).
    transitivity (inject_Z (Qnum q) * 2 ^ (- e)); [field; exact Hd|].
    rewrite Hab'. field. exact Hp.
Qed.

Lemma binary64_at_complete (q : Q) (e m : Z) :
  (Z.abs m < 2 ^ 53)%Z -> q == inject_Z m * 2 ^ e ->
  binary64_at q e = true.
Proof.
  intros Hm Hq. unfold binary64_at.
  set (a := (Qnum q * 2 ^ Z.max 0 (- e))%Z).
  set (b := (QDen q * 2 ^ Z.max 0 e)%Z).
  assert (Hb0 : (0 < b)%Z).
  { unfold b. pose proof (Z.pow_pos_nonneg 2 (Z.max 0 e)). lia. }
  assert (Hab : a = (m * b)%Z).
  { assert (Hq' : inject_Z (Qnum q) == q * inject_Z (QDen q)).
    { destruct q as [n d]. cbn [Qnum Qden]. rewrite (Qmake_Qdiv n d).
      field. change 0 with (inject_Z 0). rewrite inject_Z_injective. lia. }
    apply inject_Z_injective. unfold a, b.
    set (D := inject_Z (QDen q)) in *. set (N := inject_Z (Qnum q)) in *.
    destruct (Z.le_gt_cases 0 e) as [He|He].
    - rewrite Z.max_l, Z.max_r by lia. rewrite Z.pow_0_r, Z.mul_1_r.
      rewrite !inject_Z_mult, Zpower_Qpower by exact He.
      change (inject_Z 2) with 2. fold D. fold N.
      rewrite Hq', Hq. ring.
    - rewrite Z.max_r, Z.max_l by lia. rewrite Z.pow_0_r, Z.mul_1_r.
      rewrite !inject_Z_mult, Zpower_Qpower by lia.
      change (inject_Z 2) with 2. fold D. fold N.
      assert (Hp : ~ 2 ^ (- e) == 0) by (apply Qpower_not_0; discriminate).
      assert (He2 : 2 ^ e == / 2 ^ (- e)).
      { rewrite <- Qpower_opp. now rewrite Z.opp_involutive. }
      rewrite Hq', Hq, He2. field. exact Hp. }
  rewrite Hab, Z.mod_mul, Z.div_mul by lia.
  apply andb_true_iff. split; [reflexivity | now apply Z.ltb_lt].
Qed.

(** [binary64] accepts the finite binary64 numbers, and only them. *)
Lemma binary64_spec (q : Q) :
  binary64 q = true <->
  exists m e, (Z.abs m < 2 ^ 53)%Z /\ (-1074 <= e <= 971)%Z /\
              q == inject_Z m * 2 ^ e.
Proof.
  unfold binary64.
  set (fits := fun e => (-1074 <=? e)%Z && (e <=? 971)%Z && binary64_at q e).
  set (first := [Z.max (-1074) (_ - 53); Z.max (-1074) (_ - 52)]).
  set (all := map (fun i => (i - 1074)%Z) (py_range 2046)).
  assert (Hfits : forall e, fits e = true ->
            exists m e, (Z.abs m < 2 ^ 53)%Z /\ (-1074 <= e <= 971)%Z /\
                        q == inject_Z m * 2 ^ e).
  { intros e He. unfold fits in He. apply andb_true_iff in He.
    destruct He as [Hr Hat]. apply andb_true_iff in Hr.
    destruct Hr as [Hlo Hhi]. apply Z.leb_le in Hlo, Hhi.
    destruct (binary64_at_sound q e Hat) as (m & Hm & Hq).
    exists m, e. repeat split; assumption. }
  split.
  - destruct (existsb fits first) eqn:E; intro H.
    + apply existsb_exists in E. destruct E as (e & _ & He). eauto.
    + apply existsb_exists in H. destruct H as (e & _ & He). eauto.
  - intros (m & e & Hm & [Hlo Hhi] & Hq).
    destruct (existsb fits first); [reflexivity|].
    apply existsb_exists. exists e. split.
    + unfold all. apply in_map_iff.
      exists (e + 1074)%Z. split; [lia|].
      unfold py_range. apply in_map_iff.
      exists (Z.to_nat (e + 1074)). split; [lia|].
      apply in_seq. lia.
    + unfold fits. apply andb_true_iff. split.
      * apply andb_true_iff. split; now apply Z.leb_le.
      * now apply (binary64_at_complete q e m).
Qed.
